(** * PyFITS [lib/pyfits/diff.py]: the FITS diff engine

    A shallow embedding of the comparison half of [diff.py]
    ([_BaseDiff.identical], [FITSDiff], [HDUDiff], [HeaderDiff],
    [ImageDataDiff], [RawDataDiff], [TableDataDiff], [diff_values],
    [where_not_allclose]); the [_report] methods are not embedded.

    Conventions of the embedding:
    - a Python [float] is an IEEE 754 binary64 value and a numpy element of
      type float32 or float64 a binary32 or binary64 value: a [spec_float]
      of the Standard Library, with its operations (round to nearest, ties
      to even; infinities, NaN and signed zeros included, NaN payloads
      not);
    - a numpy element of an integer type is an integer wrapped to the width
      of the type; numpy's subtraction, absolute value, multiplication and
      comparisons are carried out in the type numpy promotes the operands
      to;
    - a Python [set] of strings is a [gset string], a [dict] keyed by strings
      a [gmap string _];
    - an exception is a value [Raise e] of the [result] monad;
    - objects that come from other modules (headers, HDUs, columns, record
      arrays, numpy arrays) are records holding what [diff.py] reads. *)

From Stdlib Require Import QArith Qabs Qpower Lqa Ascii SpecFloat.
From stdpp Require Import base gmap sets list strings sorting.

Close Scope Q_scope.
Local Open Scope string_scope.
Local Open Scope list_scope.

(** ** Exceptions *)

Inductive exn : Type :=
| ZeroDivisionError
| TypeError
| IndexError.

Inductive result (A : Type) : Type :=
| Ok (a : A)
| Raise (e : exn).

Arguments Ok {A} a.
Arguments Raise {A} e.

#[global] Instance result_ret : MRet result := fun A a => Ok a.

#[global] Instance result_bind : MBind result := fun A B k m =>
  match m with
  | Ok a => k a
  | Raise e => Raise e
  end.

(** ** IEEE 754 floating point *)

(** The two binary formats of FITS data; a Python [float] is a
    [binary64]. *)
Inductive ftype : Type := binary32 | binary64.

(** The number of bits of the mantissa and the exponent of the
    infinities. *)
Definition prec (k : ftype) : Z :=
  match k with binary32 => 24 | binary64 => 53 end.

Definition emax (k : ftype) : Z :=
  match k with binary32 => 128 | binary64 => 1024 end.

(** A floating-point value: a signed zero, a signed infinity, NaN, or
    [(-1)^s * m * 2^e]. *)
Definition float : Type := spec_float.

(** [0.0] *)
Definition fzero : float := S754_zero false.

Definition fadd (k : ftype) : float -> float -> float := SFadd (prec k) (emax k).
Definition fsub (k : ftype) : float -> float -> float := SFsub (prec k) (emax k).
Definition fmul (k : ftype) : float -> float -> float := SFmul (prec k) (emax k).
Definition fdiv (k : ftype) : float -> float -> float := SFdiv (prec k) (emax k).

(** Conversion to the format [k]. *)
Definition fconv (k : ftype) (x : float) : float :=
  match x with
  | S754_finite s m e => binary_round (prec k) (emax k) s m e
  | _ => x
  end.

(** The value of the format [k] nearest to the integer [z]. *)
Definition float_of_Z (k : ftype) (z : Z) : float :=
  binary_normalize (prec k) (emax k) z 0 false.

Definition isinf (x : float) : bool :=
  match x with S754_infinity _ => true | _ => false end.

(** Python 2 true division of two floats. *)
Definition py_fdiv (x y : float) : result float :=
  if SFeqb y fzero then Raise ZeroDivisionError else Ok (fdiv binary64 x y).

(** ** Strings *)

Definition ascii_lower (c : ascii) : ascii :=
  let n := nat_of_ascii c in
  if (65 <=? n)%nat && (n <=? 90)%nat then ascii_of_nat (n + 32) else c.

(** [str.lower()] *)
Fixpoint str_lower (s : string) : string :=
  match s with
  | EmptyString => EmptyString
  | String c s' => String (ascii_lower c) (str_lower s')
  end.

(** The characters [str.rstrip()] removes: space, \t, \n, \v, \f, \r. *)
Definition is_space (c : ascii) : bool :=
  let n := nat_of_ascii c in
  (n =? 32)%nat || ((9 <=? n)%nat && (n <=? 13)%nat).

(** [str.rstrip()] *)
Fixpoint rstrip (s : string) : string :=
  match s with
  | EmptyString => EmptyString
  | String c s' =>
      match rstrip s' with
      | EmptyString => if is_space c then EmptyString else String c EmptyString
      | r => String c r
      end
  end.

(** [c in s] for a one-character string [c]. *)
Fixpoint str_contains (c : ascii) (s : string) : bool :=
  match s with
  | EmptyString => false
  | String d s' => Ascii.eqb c d || str_contains c s'
  end.

(** [s.startswith(prefix)] *)
Fixpoint startswith (prefix s : string) : bool :=
  match prefix, s with
  | EmptyString, _ => true
  | String p prefix', String c s' => Ascii.eqb p c && startswith prefix' s'
  | String _ _, EmptyString => false
  end.

(** [glob.has_magic]: the pattern [[*?[]] occurs in the string. *)
Definition has_magic (s : string) : bool :=
  str_contains "*"%char s || str_contains "?"%char s || str_contains "["%char s.

(** ** Python scalars (header card values) *)

Inductive pyval : Type :=
| PyNone
| PyBool (b : bool)
| PyInt (z : Z)
| PyFloat (x : float)
| PyStr (s : string).

(** [isinstance(v, float)] *)
Definition is_float (v : pyval) : bool :=
  match v with PyFloat _ => true | _ => false end.

(** [isinstance(v, basestring)] *)
Definition is_basestring (v : pyval) : bool :=
  match v with PyStr _ => true | _ => false end.

(** [x == z] for a float and an integer: Python compares the two exactly,
    without converting the integer. *)
Definition float_eq_int (x : float) (z : Z) : bool :=
  match x with
  | S754_zero _ => (z =? 0)%Z
  | S754_finite s m e =>
      if (0 <=? e)%Z then (cond_Zopp s (Zpos m * 2 ^ e) =? z)%Z
      else (Zpos m mod 2 ^ (- e) =? 0)%Z
           && (cond_Zopp s (Zpos m / 2 ^ (- e)) =? z)%Z
  | _ => false
  end.

(** [a == b]: [None] is equal to itself only, strings are compared by
    content, booleans count as the integers 0 and 1, two floats are
    compared as IEEE 754 has it (NaN is equal to nothing), a float and an
    integer by their exact values.  Never raises. *)
Definition py_eq (a b : pyval) : bool :=
  match a, b with
  | PyNone, PyNone => true
  | PyStr s, PyStr t => String.eqb s t
  | PyBool x, PyBool y => Bool.eqb x y
  | PyBool x, PyInt z => (Z.b2z x =? z)%Z
  | PyInt z, PyBool x => (z =? Z.b2z x)%Z
  | PyInt x, PyInt y => (x =? y)%Z
  | PyFloat x, PyFloat y => SFeqb x y
  | PyFloat x, PyInt z => float_eq_int x z
  | PyInt z, PyFloat x => float_eq_int x z
  | PyFloat x, PyBool y => float_eq_int x (Z.b2z y)
  | PyBool y, PyFloat x => float_eq_int x (Z.b2z y)
  | _, _ => false
  end.

(** [a != b] *)
Definition py_ne (a b : pyval) : bool := negb (py_eq a b).

(** ** numpy arrays *)

(** The integer types of FITS data. *)
Inductive inttype : Type := uint8 | int16 | int32 | int64.

(** The element types: integers, floats, and complex numbers made of two
    floats. *)
Inductive dtype : Type :=
| Dint (i : inttype)
| Dfloat (k : ftype)
| Dcomplex (k : ftype).

(** [np.issubdtype(d, float)] *)
Definition issubdtype_float (d : dtype) : bool :=
  match d with Dfloat _ => true | _ => false end.

(** [np.issubdtype(d, complex)] *)
Definition issubdtype_complex (d : dtype) : bool :=
  match d with Dcomplex _ => true | _ => false end.

(** The value an integer takes in the type [i]: arithmetic wraps around. *)
Definition wrap (i : inttype) (z : Z) : Z :=
  match i with
  | uint8 => z mod 2 ^ 8
  | int16 => (z + 2 ^ 15) mod 2 ^ 16 - 2 ^ 15
  | int32 => (z + 2 ^ 31) mod 2 ^ 32 - 2 ^ 31
  | int64 => (z + 2 ^ 63) mod 2 ^ 64 - 2 ^ 63
  end%Z.

(** One element, as [a[idx]] yields it. *)
Inductive scalar : Type :=
| SInt (z : Z)
| SFloat (x : float)
| SComplex (re im : float).

(** The elements of an array, in C (row-major) order, with their type. *)
Inductive buffer : Type :=
| Ints (i : inttype) (l : list Z)
| Floats (k : ftype) (l : list float)
| Complexes (k : ftype) (l : list (float * float)).

(** A numeric array: its shape and its elements. *)
Record ndarray : Type := {
  shape : list nat;
  elems : buffer
}.

(** [a.dtype] *)
Definition dtype_of (a : ndarray) : dtype :=
  match elems a with
  | Ints i _ => Dint i
  | Floats k _ => Dfloat k
  | Complexes k _ => Dcomplex k
  end.

(** [a.flat] *)
Definition flat (a : ndarray) : list scalar :=
  match elems a with
  | Ints i l => map (fun z => SInt (wrap i z)) l
  | Floats _ l => map SFloat l
  | Complexes _ l => map (fun c => SComplex c.1 c.2) l
  end.

(** [np.ndindex] of the shape: every index tuple of the shape, the last axis
    varying fastest. *)
Fixpoint ndindex (sh : list nat) : list (list nat) :=
  match sh with
  | [] => [[]]
  | n :: sh' => flat_map (fun i => map (cons i) (ndindex sh')) (seq 0 n)
  end.

(** Offset of an index tuple in the flat element sequence. *)
Fixpoint ravel (sh idx : list nat) (acc : nat) : nat :=
  match sh, idx with
  | n :: sh', i :: idx' => ravel sh' idx' (acc * n + i)
  | _, _ => acc
  end.

(** [a[idx]] for a full index tuple. *)
Definition getitem (a : ndarray) (idx : list nat) : scalar :=
  nth (ravel (shape a) idx 0) (flat a) (SInt 0).

(** [np.where(cond)], transposed into a list of index tuples (what
    [izip] makes of it): the positions at which the boolean array [cond]
    holds, in the iteration order of the array. *)
Definition np_where (sh : list nat) (cond : list nat -> bool) : list (list nat) :=
  List.filter cond (ndindex sh).

(** *** Type promotion *)

Definition int_rank (i : inttype) : nat :=
  match i with uint8 => 0 | int16 => 1 | int32 => 2 | int64 => 3 end.

Definition int_join (i j : inttype) : inttype :=
  if (int_rank i <=? int_rank j)%nat then j else i.

Definition float_join (k l : ftype) : ftype :=
  match k, l with binary32, binary32 => binary32 | _, _ => binary64 end.

(** The float format numpy joins the integer type [i] and the format [k]
    in: binary32 does not hold the 32 and 64 bit integers. *)
Definition int_float_join (i : inttype) (k : ftype) : ftype :=
  match i with uint8 | int16 => k | int32 | int64 => binary64 end.

(** [np.promote_types(d1, d2)]: the type in which numpy carries out an
    operation on two arrays. *)
Definition promote_types (d1 d2 : dtype) : dtype :=
  match d1, d2 with
  | Dint i, Dint j => Dint (int_join i j)
  | Dint i, Dfloat k | Dfloat k, Dint i => Dfloat (int_float_join i k)
  | Dfloat k, Dfloat l => Dfloat (float_join k l)
  | Dint i, Dcomplex k | Dcomplex k, Dint i => Dcomplex (int_float_join i k)
  | Dfloat l, Dcomplex k | Dcomplex k, Dfloat l => Dcomplex (float_join k l)
  | Dcomplex k, Dcomplex l => Dcomplex (float_join k l)
  end.

(** An element with the type of the array it is taken from. *)
Definition tval : Type := dtype * scalar.

(** The float format of a float or complex type; binary64 is what a Python
    [float] and an integer element meet in. *)
Definition format_of (d : dtype) : ftype :=
  match d with
  | Dint _ => binary64
  | Dfloat k => k
  | Dcomplex k => k
  end.

(** Conversion from one format to another; within a format nothing is
    done. *)
Definition convert (from to : ftype) (x : float) : float :=
  match from, to with
  | binary32, binary32 => x
  | binary64, binary64 => x
  | _, _ => fconv to x
  end.

(** Conversion of an element to the type of an operation.  Promotion never
    turns a float or a complex number into an integer: that case is not
    reached. *)
Definition to_int (i : inttype) (x : tval) : Z :=
  match x.2 with
  | SInt z => wrap i z
  | _ => 0
  end.

Definition to_float (k : ftype) (x : tval) : float :=
  match x.2 with
  | SInt z => float_of_Z k z
  | SFloat v => convert (format_of x.1) k v
  | SComplex re _ => convert (format_of x.1) k re
  end.

Definition to_complex (k : ftype) (x : tval) : float * float :=
  match x.2 with
  | SComplex re im => (convert (format_of x.1) k re, convert (format_of x.1) k im)
  | _ => (to_float k x, fzero)
  end.

(** [a[idx]] with [a.dtype] *)
Definition item (a : ndarray) (idx : list nat) : tval :=
  (dtype_of a, getitem a idx).

(** ** Functions of other modules, taken as parameters *)

Record Column : Type := {
  name : string;
  format : string
}.

Class External : Type := {
  (** [fnmatch.fnmatch(name, pattern)] *)
  fnmatch : string -> string -> bool;
  (** [Column.__eq__], which with [Column.__hash__] decides membership of a
      [set] of columns *)
  Column_eq : Column -> Column -> bool;
  (** [sorted] on a collection of [Column] objects; it rearranges its input *)
  sorted_columns : list Column -> list Column;
  sorted_columns_perm : forall l, Permutation (sorted_columns l) l;
  (** the C library's [hypot] in the format [k], by which numpy takes the
      absolute value of a complex number *)
  hypot : ftype -> float -> float -> float
}.

(** [sorted] on a set of strings. *)
Definition sorted (X : gset string) : list string :=
  merge_sort String.le (elements X).

(** ** numpy's elementwise operations *)

(** [x - y] *)
Definition np_subtract (x y : tval) : tval :=
  let d := promote_types x.1 y.1 in
  (d,
   match d with
   | Dint i => SInt (wrap i (to_int i x - to_int i y))
   | Dfloat k => SFloat (fsub k (to_float k x) (to_float k y))
   | Dcomplex k =>
       let a := to_complex k x in
       let b := to_complex k y in
       SComplex (fsub k a.1 b.1) (fsub k a.2 b.2)
   end).

(** [np.abs(x)]: of the type of [x], a float for a complex [x]. *)
Definition np_absolute `{External} (x : tval) : tval :=
  match x.1 with
  | Dint i => (Dint i, SInt (wrap i (Z.abs (to_int i x))))
  | Dfloat k => (Dfloat k, SFloat (SFabs (to_float k x)))
  | Dcomplex k =>
      let a := to_complex k x in
      (Dfloat k, SFloat (hypot k a.1 a.2))
  end.

(** [r * x] for a Python float [r] and an element of an integer or float
    type (an absolute value): the product is a float of the format of the
    element, a binary64 for an integer. *)
Definition np_multiply_float (r : float) (x : tval) : tval :=
  let k := format_of x.1 in
  (Dfloat k, SFloat (fmul k (convert binary64 k r) (to_float k x))).

(** [r + x] for a Python float [r], likewise *)
Definition np_add_float (r : float) (x : tval) : tval :=
  let k := format_of x.1 in
  (Dfloat k, SFloat (fadd k (convert binary64 k r) (to_float k x))).

(** A comparison of two real elements, in the type numpy promotes them
    to. *)
Definition np_compare (lt_int : Z -> Z -> bool) (lt_float : float -> float -> bool)
    (x y : tval) : bool :=
  match promote_types x.1 y.1 with
  | Dint i => lt_int (to_int i x) (to_int i y)
  | Dfloat k | Dcomplex k => lt_float (to_float k x) (to_float k y)
  end.

(** [x > y] *)
Definition np_greater (x y : tval) : bool :=
  np_compare (fun a b => (b <? a)%Z) (fun a b => SFltb b a) x y.

(** [x <= y] *)
Definition np_less_equal (x y : tval) : bool :=
  np_compare Z.leb SFleb x y.

(** [x == y] *)
Definition np_equal (x y : tval) : bool :=
  match promote_types x.1 y.1 with
  | Dint i => (to_int i x =? to_int i y)%Z
  | Dfloat k => SFeqb (to_float k x) (to_float k y)
  | Dcomplex k =>
      let a := to_complex k x in
      let b := to_complex k y in
      SFeqb a.1 b.1 && SFeqb a.2 b.2
  end.

(** [x != y] *)
Definition np_not_equal (x y : tval) : bool := negb (np_equal x y).

(** [np.isinf(x)] *)
Definition np_isinf (x : tval) : bool :=
  match x.2 with
  | SInt _ => false
  | SFloat x => isinf x
  | SComplex re im => isinf re || isinf im
  end.

(** One element of [np.allclose]: an infinity is close to the same infinity
    only; any other pair is compared by
    [absolute(x - y) <= atol + rtol * absolute(y)], which is false when a NaN
    is involved. *)
Definition isclose `{External} (rtol atol : float) (x y : tval) : bool :=
  if np_isinf x || np_isinf y then np_isinf x && np_isinf y && np_equal x y
  else
    np_less_equal (np_absolute (np_subtract x y))
                  (np_add_float atol (np_multiply_float rtol (np_absolute y))).

(** [np.allclose(x, y, rtol, atol)] on two element sequences. *)
Definition np_allclose `{External} (x y : list tval) (rtol atol : float) : bool :=
  forallb (fun p => isclose rtol atol p.1 p.2) (combine x y).

(** [where_not_allclose(a, b, rtol, atol)], as a list of index tuples;
    [a] and [b] have one shape (the callers' obligation). *)
Definition where_not_allclose `{External} (a b : ndarray) (rtol atol : float)
    : list (list nat) :=
  if SFeqb atol fzero && SFeqb rtol fzero then
    np_where (shape a) (fun i => np_not_equal (item a i) (item b i))
  else
    np_where (shape a)
      (fun i =>
         np_greater
           (np_absolute (np_subtract (item a i) (item b i)))
           (np_add_float atol (np_multiply_float rtol (np_absolute (item b i))))).

(** ** [diff_values] *)

(** A Python [float] as the numpy array [np.allclose] makes of it. *)
Definition float64 (x : float) : tval := (Dfloat binary64, SFloat x).

Definition diff_values `{External} (a b : pyval) (tolerance : float) : bool :=
  match a, b with
  | PyFloat x, PyFloat y =>
      negb (np_allclose [float64 x] [float64 y] tolerance fzero)
  | _, _ => py_ne a b
  end.

(** ** [_BaseDiff] *)

(** What [bool(v)] inspects of an attribute value. *)
Inductive attr : Type :=
| ANone
| ABool (b : bool)
| AInt (z : Z)
| AFloat (x : float)
| ALen (n : nat)            (* str, tuple, list, set or dict of that length *)
| ADiff (identical : bool)  (* a [_BaseDiff] instance: [__nonzero__] *)
| AObject.                  (* any other instance *)

(** [bool(v)] *)
Definition truth (v : attr) : bool :=
  match v with
  | ANone => false
  | ABool b => b
  | AInt z => negb (z =? 0)%Z
  | AFloat x => negb (SFeqb x fzero)
  | ALen n => negb (n =? 0)%nat
  | ADiff identical => negb identical
  | AObject => true
  end.

Definition alen {A : Type} (l : list A) : attr := ALen (length l).

(** [()] or a 2-tuple. *)
Definition apair {A : Type} (o : option A) : attr :=
  match o with
  | None => ALen 0
  | Some _ => ALen 2
  end.

(** The subclasses of [_BaseDiff]: the instance attributes ([self.__dict__])
    after construction. *)
Class BaseDiff (T : Type) : Type := __dict__ : T -> list (string * attr).

(** [_BaseDiff.identical] *)
Definition identical {T : Type} `{BaseDiff T} (self : T) : bool :=
  negb (existsb (fun kv => truth (snd kv))
          (List.filter (fun kv => startswith "diff_" (fst kv)) (__dict__ self))).

(** [_BaseDiff.__nonzero__] *)
Definition __nonzero__ {T : Type} `{BaseDiff T} (self : T) : bool :=
  negb (identical self).

(** ** Headers *)

Record Card : Type := {
  keyword : string;
  value : pyval;
  comment : string
}.

Record Header : Type := { cards : list Card }.

(** [len(header)] *)
Definition Header_len (h : Header) : nat := length (cards h).

(** [header.get(key)]: the value of the first card of that keyword, else
    [None]. *)
Definition Header_get (h : Header) (key : string) : pyval :=
  match List.find (fun c => String.eqb (keyword c) key) (cards h) with
  | Some c => value c
  | None => PyNone
  end.

(** ** [HeaderDiff] *)

Module HeaderDiff.

Record t : Type := {
  a : Header;
  b : Header;
  ignore_keywords : gset string;
  ignore_comments : gset string;
  tolerance : float;
  ignore_blanks : bool;
  ignore_keyword_patterns : gset string;
  ignore_comment_patterns : gset string;
  common_keywords : list string;
  diff_keyword_count : option (nat * nat);
  diff_keyword_positions : unit;   (* "TODO: Implement this": stays [()] *)
  diff_keywords : option (list string * list string);
  diff_duplicate_keywords : gmap string (nat * nat);
  diff_keyword_values : gmap string (list (option (pyval * pyval)));
  diff_keyword_comments : gmap string (list (option (string * string)))
}.

(** The results of [_diff] stored into [self]. *)
Definition store (self : t) (common : list string) (count : option (nat * nat))
    (keywords : option (list string * list string))
    (duplicates : gmap string (nat * nat))
    (values : gmap string (list (option (pyval * pyval))))
    (comments : gmap string (list (option (string * string)))) : t :=
  {| a := a self; b := b self;
     ignore_keywords := ignore_keywords self;
     ignore_comments := ignore_comments self;
     tolerance := tolerance self;
     ignore_blanks := ignore_blanks self;
     ignore_keyword_patterns := ignore_keyword_patterns self;
     ignore_comment_patterns := ignore_comment_patterns self;
     common_keywords := common;
     diff_keyword_count := count;
     diff_keyword_positions := diff_keyword_positions self;
     diff_keywords := keywords;
     diff_duplicate_keywords := duplicates;
     diff_keyword_values := values;
     diff_keyword_comments := comments |}.

(** The inner function of [_diff]: per keyword, the values and the comments
    of its cards, in card order. *)
Definition get_header_values_comments (self : t) (header : Header)
    : gmap string (list pyval) * gmap string (list string) :=
  foldl (fun acc card =>
           let value :=
             match value card with
             | PyStr s => if ignore_blanks self then PyStr (rstrip s) else PyStr s
             | v => v
             end in
           (<[keyword card := default [] (acc.1 !! keyword card) ++ [value]]> acc.1,
            <[keyword card := default [] (acc.2 !! keyword card) ++ [comment card]]> acc.2))
        (∅, ∅) (cards header).

(** One pass of [for a, b in zip(...)]: the differing pair, or [None], per
    position. *)
Definition diff_pairs {A : Type} (differs : A -> A -> bool) (xs ys : list A)
    : list (option (A * A)) :=
  map (fun p => if differs p.1 p.2 then Some p else None) (combine xs ys).

(** [any(l)] for a list of 2-tuples and [None]s. *)
Definition any_set {A : Type} (l : list (option A)) : bool :=
  existsb (fun o => match o with Some _ => true | None => false end) l.

(** Appending [new] to the [defaultdict] entry of [keyword], then deleting
    the entry when nothing in it is set. *)
Definition record_diffs {A : Type} (m : gmap string (list (option A)))
    (keyword : string) (new : list (option A)) : gmap string (list (option A)) :=
  let l := default [] (m !! keyword) ++ new in
  if any_set l then <[keyword := l]> m else delete keyword m.

(** [for pattern in patterns: if fnmatch.fnmatch(keyword, pattern): skip] *)
Definition skip `{External} (patterns : gset string) (keyword : string) : bool :=
  existsb (fun pattern => fnmatch keyword pattern) (elements patterns).

(** The body of [for keyword in self.common_keywords]; [valuesa[keyword]]
    exists because the keyword is common to both headers. *)
Definition diff_keyword `{External} (self : t)
    (valuesa valuesb : gmap string (list pyval))
    (commentsa commentsb : gmap string (list string))
    (st : gmap string (nat * nat)
          * gmap string (list (option (pyval * pyval)))
          * gmap string (list (option (string * string))))
    (keyword : string) :=
  let '(duplicates, values, comments) := st in
  if bool_decide (keyword ∈ ignore_keywords self) then st
  else if skip (ignore_keyword_patterns self) keyword then st
  else
    let va := default [] (valuesa !! keyword) in
    let vb := default [] (valuesb !! keyword) in
    let counta := length va in
    let countb := length vb in
    let duplicates :=
      if negb (counta =? countb)%nat
      then <[keyword := (counta, countb)]> duplicates else duplicates in
    let values :=
      record_diffs values keyword
        (diff_pairs (fun x y => diff_values x y (tolerance self)) va vb) in
    if bool_decide ("*" ∈ ignore_comments self)
       || bool_decide (keyword ∈ ignore_comments self)
    then (duplicates, values, comments)
    else if skip (ignore_comment_patterns self) keyword
    then (duplicates, values, comments)
    else
      let ca := default [] (commentsa !! keyword) in
      let cb := default [] (commentsb !! keyword) in
      (duplicates, values,
       record_diffs comments keyword
         (diff_pairs (fun x y => diff_values (PyStr x) (PyStr y) fzero) ca cb)).

Definition _diff `{External} (self : t) : t :=
  let '(valuesa, commentsa) := get_header_values_comments self (a self) in
  let '(valuesb, commentsb) := get_header_values_comments self (b self) in
  let keywordsa : gset string := dom valuesa in
  let keywordsb : gset string := dom valuesb in
  let common := sorted (keywordsa ∩ keywordsb) in
  let count :=
    if negb (Header_len (a self) =? Header_len (b self))%nat
    then Some (Header_len (a self), Header_len (b self))
    else diff_keyword_count self in
  (* Any other diff attributes should exclude ignored keywords *)
  let keywordsa := keywordsa ∖ ignore_keywords self in
  let keywordsb := keywordsb ∖ ignore_keywords self in
  let keywordsa :=
    set_fold (fun pattern (ks : gset string) =>
                ks ∖ filter (fun k => fnmatch k pattern = true) ks)
             keywordsa (ignore_keyword_patterns self) in
  let keywordsb :=
    set_fold (fun pattern (ks : gset string) =>
                ks ∖ filter (fun k => fnmatch k pattern = true) ks)
             keywordsb (ignore_keyword_patterns self) in
  if bool_decide ("*" ∈ ignore_keywords self) then
    (* Any other differences between keywords are to be ignored *)
    store self common count (diff_keywords self) (diff_duplicate_keywords self)
      (diff_keyword_values self) (diff_keyword_comments self)
  else
    let left_only_keywords := sorted (keywordsa ∖ keywordsb) in
    let right_only_keywords := sorted (keywordsb ∖ keywordsa) in
    let keywords :=
      match left_only_keywords, right_only_keywords with
      | [], [] => diff_keywords self
      | _, _ => Some (left_only_keywords, right_only_keywords)
      end in
    let '(duplicates, values, comments) :=
      foldl (diff_keyword self valuesa valuesb commentsa commentsb)
            (diff_duplicate_keywords self, diff_keyword_values self,
             diff_keyword_comments self)
            common in
    store self common count keywords duplicates values comments.

(** A keyword that [__init__] moves from the exact set to the patterns. *)
Definition is_pattern (keyword : string) : bool :=
  negb (String.eqb keyword "*") && has_magic keyword.

(** [HeaderDiff(a, b, ignore_keywords, ignore_comments, tolerance,
    ignore_blanks)] for two [Header] objects. *)
Definition __init__ `{External} (a b : Header)
    (ignore_keywords ignore_comments : gset string)
    (tolerance : float) (ignore_blanks : bool) : t :=
  _diff
    {| a := a; b := b;
       ignore_keywords := filter (fun k => is_pattern k = false) ignore_keywords;
       ignore_comments := filter (fun k => is_pattern k = false) ignore_comments;
       tolerance := tolerance;
       ignore_blanks := ignore_blanks;
       ignore_keyword_patterns := filter (fun k => is_pattern k = true) ignore_keywords;
       ignore_comment_patterns := filter (fun k => is_pattern k = true) ignore_comments;
       common_keywords := [];
       diff_keyword_count := None;
       diff_keyword_positions := ();
       diff_keywords := None;
       diff_duplicate_keywords := ∅;
       diff_keyword_values := ∅;
       diff_keyword_comments := ∅ |}.

#[global] Instance base_diff : BaseDiff t := fun self =>
  [ ("ignore_keywords", ALen (size (ignore_keywords self)));
    ("ignore_comments", ALen (size (ignore_comments self)));
    ("tolerance", AFloat (tolerance self));
    ("ignore_blanks", ABool (ignore_blanks self));
    ("ignore_keyword_patterns", ALen (size (ignore_keyword_patterns self)));
    ("ignore_comment_patterns", ALen (size (ignore_comment_patterns self)));
    ("common_keywords", alen (common_keywords self));
    ("diff_keyword_count", apair (diff_keyword_count self));
    ("diff_keyword_positions", ALen 0);
    ("diff_keywords", apair (diff_keywords self));
    ("diff_duplicate_keywords", ALen (size (diff_duplicate_keywords self)));
    ("diff_keyword_values", ALen (size (diff_keyword_values self)));
    ("diff_keyword_comments", ALen (size (diff_keyword_comments self)));
    ("a", ALen (Header_len (a self)));
    ("b", ALen (Header_len (b self))) ].

End HeaderDiff.

(** ** [ImageDataDiff] *)

(** [islice(it, 0, stop)] for [stop >= 0]. *)
Definition islice {A : Type} (l : list A) (stop : Z) : list A :=
  take (Z.to_nat stop) l.

(** [float(n)] for a length or a count. *)
Definition float_of_nat (n : nat) : float := float_of_Z binary64 (Z.of_nat n).

Module ImageDataDiff.

Record t : Type := {
  a : ndarray;
  b : ndarray;
  numdiffs : Z;
  tolerance : float;
  diff_dimensions : option (list nat * list nat);
  diff_pixels : list (list nat * (scalar * scalar));
  diff_ratio : float;
  diff_total : nat
}.

Definition store (self : t) (dimensions : option (list nat * list nat))
    (pixels : list (list nat * (scalar * scalar))) (ratio : float)
    (total : nat) : t :=
  {| a := a self; b := b self;
     numdiffs := numdiffs self;
     tolerance := tolerance self;
     diff_dimensions := dimensions;
     diff_pixels := pixels;
     diff_ratio := ratio;
     diff_total := total |}.

(** The tolerance [_diff] compares with: "If neither a nor b are floating
    point, ignore self.tolerance". *)
Definition effective_tolerance (self : t) : float :=
  if negb ((issubdtype_float (dtype_of (a self))
            || issubdtype_complex (dtype_of (a self)))
           || (issubdtype_float (dtype_of (b self))
               || issubdtype_complex (dtype_of (b self))))
  then fzero
  else tolerance self.

Definition _diff `{External} (self : t) : result t :=
  if negb (bool_decide (shape (a self) = shape (b self))) then
    (* Don't do any further comparison if the dimensions differ *)
    Ok (store self (Some (shape (a self), shape (b self)))
          (diff_pixels self) (diff_ratio self) (diff_total self))
  else
    let tolerance := effective_tolerance self in
    let diffs := where_not_allclose (a self) (b self) tolerance fzero in
    let total := length diffs in
    if (total =? 0)%nat then
      Ok (store self (diff_dimensions self) (diff_pixels self)
            (diff_ratio self) total)
    else
      let numdiffs :=
        if (numdiffs self <? 0)%Z then Z.of_nat total else numdiffs self in
      let pixels :=
        map (fun idx => (idx, (getitem (a self) idx, getitem (b self) idx)))
            (islice diffs numdiffs) in
      ratio ← py_fdiv (float_of_nat total)
                      (float_of_nat (length (flat (a self))));
      Ok (store self (diff_dimensions self) pixels ratio total).

(** The attributes [ImageDataDiff.__init__] sets before it runs [_diff]
    ([diff_ratio] starts as the integer 0, which is the float 0.0 wherever
    it is read). *)
Definition initial (a b : ndarray) (numdiffs : Z) (tolerance : float) : t :=
  {| a := a; b := b; numdiffs := numdiffs; tolerance := tolerance;
     diff_dimensions := None; diff_pixels := []; diff_ratio := fzero;
     diff_total := 0 |}.

Definition __init__ `{External} (a b : ndarray) (numdiffs : Z)
    (tolerance : float) : result t :=
  _diff (initial a b numdiffs tolerance).

#[global] Instance base_diff : BaseDiff t := fun self =>
  [ ("numdiffs", AInt (numdiffs self));
    ("tolerance", AFloat (tolerance self));
    ("diff_dimensions", apair (diff_dimensions self));
    ("diff_pixels", alen (diff_pixels self));
    ("diff_ratio", AFloat (diff_ratio self));
    ("diff_total", AInt (Z.of_nat (diff_total self)));
    ("a", AObject);
    ("b", AObject) ].

End ImageDataDiff.

(** ** [RawDataDiff] *)

(** [t[0]] for a tuple [t]. *)
Definition first (l : list nat) : result nat :=
  match l with
  | [] => Raise IndexError
  | x :: _ => Ok x
  end.

Module RawDataDiff.

Record t : Type := {
  a : ndarray;
  b : ndarray;
  numdiffs : Z;
  tolerance : float;
  diff_dimensions : option (nat * nat);
  diff_bytes : list (nat * (scalar * scalar));
  diff_ratio : float;
  diff_total : nat
}.

(** [RawDataDiff._diff], from the state [ImageDataDiff._diff] leaves:
    the two shapes become two sizes, [diff_pixels] becomes [diff_bytes] and
    is deleted. *)
Definition _diff (super : ImageDataDiff.t) : result t :=
  dimensions ←
    match ImageDataDiff.diff_dimensions super with
    | None => Ok None
    | Some (sa, sb) => x ← first sa; y ← first sb; Ok (Some (x, y))
    end;
  bytes ← mapM (fun p => x ← first p.1; Ok (x, p.2))
               (ImageDataDiff.diff_pixels super);
  Ok {| a := ImageDataDiff.a super; b := ImageDataDiff.b super;
        numdiffs := ImageDataDiff.numdiffs super;
        tolerance := ImageDataDiff.tolerance super;
        diff_dimensions := dimensions;
        diff_bytes := bytes;
        diff_ratio := ImageDataDiff.diff_ratio super;
        diff_total := ImageDataDiff.diff_total super |}.

(** [RawDataDiff(a, b, numdiffs)]: the constructor has no [tolerance]
    parameter and calls [ImageDataDiff.__init__(a, b, numdiffs=numdiffs)],
    whose [tolerance] defaults to [0.0]. *)
Definition __init__ `{External} (a b : ndarray) (numdiffs : Z) : result t :=
  super ← ImageDataDiff._diff (ImageDataDiff.initial a b numdiffs fzero);
  _diff super.

#[global] Instance base_diff : BaseDiff t := fun self =>
  [ ("diff_dimensions", apair (diff_dimensions self));
    ("diff_bytes", alen (diff_bytes self));
    ("numdiffs", AInt (numdiffs self));
    ("tolerance", AFloat (tolerance self));
    ("diff_ratio", AFloat (diff_ratio self));
    ("diff_total", AInt (Z.of_nat (diff_total self)));
    ("a", AObject);
    ("b", AObject) ].

End RawDataDiff.

(** ** Record arrays (table data) *)

(** The array [table[name]] of one column.  numpy's elementwise operations
    are modelled for two operands of one representation and one shape; any
    other pairing is an exception. *)
Inductive colarray : Type :=
| NumCol (arr : ndarray)           (* numbers; the first axis is the row *)
| StrCol (rows : list string)      (* character strings *)
| VarCol (rows : list ndarray).    (* format 'P': one array per row *)

(** [column[idx]], the value of one row. *)
Inductive cell : Type :=
| NumCell (v : list scalar)
| StrCell (s : string).

Record FITS_rec : Type := {
  columns : list Column;          (* [table.columns] *)
  nrows : nat;                    (* [len(table)] *)
  field : string -> colarray      (* [table[name]] *)
}.

(** [np.issubdtype(column.dtype, float)] *)
Definition col_is_float (c : colarray) : bool :=
  match c with
  | NumCol arr => issubdtype_float (dtype_of arr)
  | _ => false
  end.

(** The rows of an array along its first axis, each flattened. *)
Definition rows_of (arr : ndarray) : list (list scalar) :=
  match shape arr with
  | [] => []
  | n :: sh => map (fun i => map (fun j => getitem arr (i :: j)) (ndindex sh)) (seq 0 n)
  end.

(** [len(column)] *)
Definition col_len (c : colarray) : nat :=
  match c with
  | NumCol arr => hd 0%nat (shape arr)
  | StrCol rows => length rows
  | VarCol rows => length rows
  end.

(** An array without elements. *)
Definition no_elements : ndarray :=
  {| shape := [0%nat]; elems := Floats binary64 [] |}.

(** [column[idx]]; [idx] is always a row of the column. *)
Definition col_getitem (c : colarray) (idx : nat) : cell :=
  match c with
  | NumCol arr => NumCell (nth idx (rows_of arr) [])
  | StrCol rows => StrCell (nth idx rows "")
  | VarCol rows => NumCell (flat (nth idx rows no_elements))
  end.

(** The elements of an array, each with the type of the array. *)
Definition items (a : ndarray) : list tval :=
  map (pair (dtype_of a)) (flat a).

(** Two column arrays that numpy compares element by element. *)
Definition comparable (ca cb : colarray) : bool :=
  match ca, cb with
  | NumCol x, NumCol y => bool_decide (shape x = shape y)
  | StrCol r, StrCol s => (length r =? length s)%nat
  | VarCol r, VarCol s =>
      (length r =? length s)%nat
      && forallb (fun p => bool_decide (shape p.1 = shape p.2)) (combine r s)
  | _, _ => false
  end.

(** The row numbers [idx] of [xrange(n)] at which [p idx] holds. *)
Definition rows_where (n : nat) (p : nat -> bool) : list nat :=
  List.filter p (seq 0 n).

(** [diffs[0]] of the three branches of the column loop: the row index of
    every differing element, rows in increasing order. *)
Definition column_diffs `{External} (tolerance : float) (col : Column)
    (cola colb : colarray) : result (list nat) :=
  if negb (comparable cola colb) then Raise TypeError
  else if col_is_float cola && col_is_float colb then
    match cola, colb with
    | NumCol x, NumCol y =>
        Ok (map (hd 0%nat) (where_not_allclose x y tolerance fzero))
    | _, _ => Raise TypeError
    end
  else if str_contains "P"%char (format col) then
    match cola, colb with
    | VarCol r, VarCol s =>
        Ok (rows_where (length r)
              (fun idx =>
                 negb (np_allclose (items (nth idx r no_elements))
                                   (items (nth idx s no_elements))
                                   tolerance fzero)))
    | NumCol x, NumCol y =>
        Ok (rows_where (col_len cola)
              (fun idx =>
                 negb (np_allclose
                         (map (pair (dtype_of x)) (nth idx (rows_of x) []))
                         (map (pair (dtype_of y)) (nth idx (rows_of y) []))
                         tolerance fzero)))
    | _, _ => Raise TypeError
    end
  else
    match cola, colb with
    | NumCol x, NumCol y =>
        Ok (map (hd 0%nat)
              (np_where (shape x)
                 (fun i => np_not_equal (item x i) (item y i))))
    | StrCol r, StrCol s =>
        Ok (rows_where (length r)
              (fun idx => negb (String.eqb (nth idx r "") (nth idx s ""))))
    | _, _ => Raise TypeError
    end.

(** The [last_seen_idx] filter of the sampling loop. *)
Fixpoint skip_seen (last_seen_idx : option nat) (l : list nat) : list nat :=
  match l with
  | [] => []
  | idx :: l' =>
      if bool_decide (Some idx = last_seen_idx) then skip_seen last_seen_idx l'
      else idx :: skip_seen (Some idx) l'
  end.

(** A loop whose body may raise. *)
Fixpoint foldM {A S : Type} (f : S -> A -> result S) (s : S) (l : list A)
    : result S :=
  match l with
  | [] => Ok s
  | x :: l' => s' ← f s x; foldM f s' l'
  end.

(** ** Sets of columns, under [Column.__eq__] *)

Definition column_in `{External} (col : Column) (cols : list Column) : bool :=
  existsb (Column_eq col) cols.

(** [set(cols)] *)
Definition column_set `{External} (cols : list Column) : list Column :=
  foldl (fun s col => if column_in col s then s else s ++ [col]) [] cols.

(** [colsa.intersection(colsb)] *)
Definition column_intersection `{External} (colsa colsb : list Column) : list Column :=
  List.filter (fun col => column_in col colsb) colsa.

(** [colsa.difference(colsb)] *)
Definition column_difference `{External} (colsa colsb : list Column) : list Column :=
  List.filter (fun col => negb (column_in col colsb)) colsa.

(** [dict((col.name.lower(), col) for col in cols)] *)
Definition columns_by_name (cols : list Column) : gmap string Column :=
  foldl (fun m col => <[str_lower (name col) := col]> m) ∅ cols.

(** ** [TableDataDiff] *)

Module TableDataDiff.

Definition sample : Type := (string * nat) * (cell * cell).

Record t : Type := {
  a : FITS_rec;
  b : FITS_rec;
  ignore_fields : gset string;
  numdiffs : Z;
  tolerance : float;
  common_columns : list Column;
  common_column_names : gset string;
  diff_column_count : option (nat * nat);
  diff_columns : option (gmap string Column * gmap string Column);
  diff_column_names : option (list string * list string);
  diff_values : list sample;
  diff_ratio : float;
  diff_total : nat
}.

(** The body of [for col in self.common_columns], on the running
    [self.diff_total] and [self.diff_values]. *)
Definition diff_column `{External} (self : t) (ignore_fields : gset string)
    (st : nat * list sample) (col : Column) : result (nat * list sample) :=
  let '(total, values) := st in
  if bool_decide (str_lower (name col) ∈ ignore_fields) then Ok st
  else
    let cola := field (a self) (name col) in
    let colb := field (b self) (name col) in
    diffs ← column_diffs (tolerance self) col cola colb;
    let total := (total + length (remove_dups diffs))%nat in
    if (0 <=? numdiffs self)%Z && (numdiffs self <=? Z.of_nat (length values))%Z
    then
      (* Don't save any more diff values *)
      Ok (total, values)
    else
      let max_diffs :=
        if (0 <=? numdiffs self)%Z
        then (numdiffs self - Z.of_nat (length values))%Z
        else Z.of_nat (length diffs) in
      Ok (total,
          values ++
          map (fun idx => ((name col, idx), (col_getitem cola idx, col_getitem colb idx)))
              (skip_seen None (islice diffs max_diffs))).

(** [for fieldname in ignore_fields: for col in list(cols): if
    col.name.lower() == fieldname: cols.remove(col)] *)
Definition remove_ignored (ignore_fields : gset string) (cols : list Column)
    : list Column :=
  set_fold (fun fieldname cols =>
              List.filter
                (fun col => negb (String.eqb (str_lower (name col)) fieldname))
                cols)
           cols ignore_fields.

Definition _diff `{External} (self : t) : result t :=
  let colsa := columns (a self) in
  let colsb := columns (b self) in
  let count :=
    if negb (length colsa =? length colsb)%nat
    then Some (length colsa, length colsb)
    else diff_column_count self in
  let colsa := column_set colsa in
  let colsb := column_set colsb in
  if bool_decide ("*" ∈ ignore_fields self) then
    (* If all columns are to be ignored, ignore any further differences *)
    Ok {| a := a self; b := b self; ignore_fields := ignore_fields self;
          numdiffs := numdiffs self; tolerance := tolerance self;
          common_columns := common_columns self;
          common_column_names := common_column_names self;
          diff_column_count := count;
          diff_columns := diff_columns self;
          diff_column_names := diff_column_names self;
          diff_values := diff_values self;
          diff_ratio := diff_ratio self;
          diff_total := diff_total self |}
  else
    let ignore_fields' : gset string := set_map str_lower (ignore_fields self) in
    let colsa := remove_ignored ignore_fields' colsa in
    let colsb := remove_ignored ignore_fields' colsb in
    let common := sorted_columns (column_intersection colsa colsb) in
    let common_names : gset string :=
      list_to_set (map (fun col => str_lower (name col)) common) in
    let left_only_columns := columns_by_name (column_difference colsa colsb) in
    let right_only_columns := columns_by_name (column_difference colsb colsa) in
    let names (only : gmap string Column) (table : FITS_rec) :=
      map name
        (List.filter (fun col => bool_decide (is_Some (only !! str_lower (name col))))
                     (columns table)) in
    let '(only, only_names) :=
      if bool_decide (left_only_columns = ∅) && bool_decide (right_only_columns = ∅)
      then (diff_columns self, diff_column_names self)
      else (Some (left_only_columns, right_only_columns),
            Some (names left_only_columns (a self),
                  names right_only_columns (b self))) in
    st ← foldM (diff_column self ignore_fields')
               (diff_total self, diff_values self) common;
    let total_values := (nrows (a self) * length (columns (a self)))%nat in
    ratio ← py_fdiv (float_of_nat st.1) (float_of_nat total_values);
    Ok {| a := a self; b := b self; ignore_fields := ignore_fields self;
          numdiffs := numdiffs self; tolerance := tolerance self;
          common_columns := common;
          common_column_names := common_names;
          diff_column_count := count;
          diff_columns := only;
          diff_column_names := only_names;
          diff_values := st.2;
          diff_ratio := ratio;
          diff_total := st.1 |}.

Definition initial (a b : FITS_rec) (ignore_fields : gset string)
    (numdiffs : Z) (tolerance : float) : t :=
  {| a := a; b := b; ignore_fields := ignore_fields;
     numdiffs := numdiffs; tolerance := tolerance;
     common_columns := []; common_column_names := ∅;
     diff_column_count := None; diff_columns := None;
     diff_column_names := None; diff_values := [];
     diff_ratio := fzero; diff_total := 0 |}.

Definition __init__ `{External} (a b : FITS_rec) (ignore_fields : gset string)
    (numdiffs : Z) (tolerance : float) : result t :=
  _diff (initial a b ignore_fields numdiffs tolerance).

#[global] Instance base_diff : BaseDiff t := fun self =>
  [ ("ignore_fields", ALen (size (ignore_fields self)));
    ("numdiffs", AInt (numdiffs self));
    ("tolerance", AFloat (tolerance self));
    ("common_columns", alen (common_columns self));
    ("common_column_names", ALen (size (common_column_names self)));
    ("diff_column_count", apair (diff_column_count self));
    ("diff_columns", apair (diff_columns self));
    ("diff_column_names", apair (diff_column_names self));
    ("diff_values", alen (diff_values self));
    ("diff_ratio", AFloat (diff_ratio self));
    ("diff_total", AInt (Z.of_nat (diff_total self)));
    ("a", AObject);
    ("b", AObject) ].

End TableDataDiff.

(** ** HDUs *)

(** [hdu.data] when it is not [None]. *)
Inductive hdudata : Type :=
| ArrayData (arr : ndarray)
| TableData (rec : FITS_rec).

Module HDU.

Record t : Type := {
  name : string;
  header : Header;
  data : option hdudata;
  is_image : bool;
  is_table : bool     (* [isinstance(hdu, _TableLikeHDU)] *)
}.

End HDU.

(** A data operand of the representation a comparator accepts. *)
Definition as_array (d : hdudata) : result ndarray :=
  match d with
  | ArrayData arr => Ok arr
  | TableData _ => Raise TypeError
  end.

Definition as_table (d : hdudata) : result FITS_rec :=
  match d with
  | TableData rec => Ok rec
  | ArrayData _ => Raise TypeError
  end.

(** ** [HDUDiff] *)

Inductive data_diff : Type :=
| ImageDiff (d : ImageDataDiff.t)
| TableDiff (d : TableDataDiff.t)
| RawDiff (d : RawDataDiff.t).

#[global] Instance data_diff_base_diff : BaseDiff data_diff := fun self =>
  match self with
  | ImageDiff d => __dict__ d
  | TableDiff d => __dict__ d
  | RawDiff d => __dict__ d
  end.

Module HDUDiff.

Record t : Type := {
  a : HDU.t;
  b : HDU.t;
  ignore_keywords : gset string;
  ignore_comments : gset string;
  ignore_fields : gset string;
  tolerance : float;
  numdiffs : Z;
  ignore_blanks : bool;
  diff_extnames : option (string * string);
  diff_extvers : option (pyval * pyval);
  diff_extension_types : option (pyval * pyval);
  diff_headers : option HeaderDiff.t;
  diff_data : option data_diff
}.

(** The data comparison [_diff] selects, if any. *)
Definition select_data_diff `{External} (self : t)
    (extension_types : option (pyval * pyval)) : result (option data_diff) :=
  match HDU.data (a self), HDU.data (b self) with
  | Some da, Some db =>
      if HDU.is_image (a self) && HDU.is_image (b self) then
        x ← as_array da; y ← as_array db;
        d ← ImageDataDiff.__init__ x y (numdiffs self) (tolerance self);
        Ok (Some (ImageDiff d))
      else if HDU.is_table (a self) && HDU.is_table (b self) then
        x ← as_table da; y ← as_table db;
        (* TableDataDiff(self.a.data, self.b.data): the defaults
           ignore_fields=[], numdiffs=10, tolerance=0.0 *)
        d ← TableDataDiff.__init__ x y ∅ 10 fzero;
        Ok (Some (TableDiff d))
      else if negb (bool_decide (is_Some extension_types)) then
        x ← as_array da; y ← as_array db;
        (* RawDataDiff(self.a.data, self.b.data): the default numdiffs=10 *)
        d ← RawDataDiff.__init__ x y 10;
        Ok (Some (RawDiff d))
      else Ok (diff_data self)
  | _, _ =>
      (* TODO: Perhaps have some means of marking this case *)
      Ok (diff_data self)
  end.

Definition _diff `{External} (self : t) : result t :=
  let ha := HDU.header (a self) in
  let hb := HDU.header (b self) in
  let extnames :=
    if negb (String.eqb (HDU.name (a self)) (HDU.name (b self)))
    then Some (HDU.name (a self), HDU.name (b self))
    else diff_extnames self in
  let extvers :=
    if py_ne (Header_get ha "EXTVER") (Header_get hb "EXTVER")
    then Some (Header_get ha "EXTVER", Header_get hb "EXTVER")
    else diff_extvers self in
  let extension_types :=
    if py_ne (Header_get ha "XTENSION") (Header_get hb "XTENSION")
    then Some (Header_get ha "XTENSION", Header_get hb "XTENSION")
    else diff_extension_types self in
  let headers :=
    HeaderDiff.__init__ ha hb (ignore_keywords self) (ignore_comments self)
      (tolerance self) (ignore_blanks self) in
  data ← select_data_diff self extension_types;
  Ok {| a := a self; b := b self;
        ignore_keywords := ignore_keywords self;
        ignore_comments := ignore_comments self;
        ignore_fields := ignore_fields self;
        tolerance := tolerance self;
        numdiffs := numdiffs self;
        ignore_blanks := ignore_blanks self;
        diff_extnames := extnames;
        diff_extvers := extvers;
        diff_extension_types := extension_types;
        diff_headers := Some headers;
        diff_data := data |}.

Definition __init__ `{External} (a b : HDU.t)
    (ignore_keywords ignore_comments ignore_fields : gset string)
    (numdiffs : Z) (tolerance : float) (ignore_blanks : bool) : result t :=
  _diff {| a := a; b := b;
           ignore_keywords := ignore_keywords;
           ignore_comments := ignore_comments;
           ignore_fields := ignore_fields;
           tolerance := tolerance;
           numdiffs := numdiffs;
           ignore_blanks := ignore_blanks;
           diff_extnames := None;
           diff_extvers := None;
           diff_extension_types := None;
           diff_headers := None;
           diff_data := None |}.

(** An attribute that holds a diff object or [None]. *)
Definition adiff {T : Type} `{BaseDiff T} (o : option T) : attr :=
  match o with
  | None => ANone
  | Some d => ADiff (identical d)
  end.

#[global] Instance base_diff : BaseDiff t := fun self =>
  [ ("ignore_keywords", ALen (size (ignore_keywords self)));
    ("ignore_comments", ALen (size (ignore_comments self)));
    ("ignore_fields", ALen (size (ignore_fields self)));
    ("tolerance", AFloat (tolerance self));
    ("numdiffs", AInt (numdiffs self));
    ("ignore_blanks", ABool (ignore_blanks self));
    ("diff_extnames", apair (diff_extnames self));
    ("diff_extvers", apair (diff_extvers self));
    ("diff_extension_types", apair (diff_extension_types self));
    ("diff_headers", adiff (diff_headers self));
    ("diff_data", adiff (diff_data self));
    ("a", AObject);
    ("b", AObject) ].

End HDUDiff.

(** ** [FITSDiff] *)

Module FITSDiff.

Record t : Type := {
  a : list HDU.t;
  b : list HDU.t;
  ignore_keywords : gset string;
  ignore_comments : gset string;
  ignore_fields : gset string;
  numdiffs : Z;
  tolerance : float;
  ignore_blanks : bool;
  diff_hdu_count : option (nat * nat);
  diff_hdus : list (nat * HDUDiff.t)
}.

(** [hdulist[idx]] *)
Definition hdu_at (l : list HDU.t) (idx : nat) : result HDU.t :=
  match l !! idx with
  | Some hdu => Ok hdu
  | None => Raise IndexError
  end.

(** Every [HDUDiff] the loop of [_diff] constructs, with its index. *)
Definition hdu_diffs `{External} (self : t) : result (list (nat * HDUDiff.t)) :=
  mapM (fun idx =>
          x ← hdu_at (a self) idx;
          y ← hdu_at (b self) idx;
          hdu_diff ← HDUDiff.__init__ x y
                       (ignore_keywords self) (ignore_comments self)
                       (ignore_fields self) (numdiffs self)
                       (tolerance self) (ignore_blanks self);
          Ok (idx, hdu_diff))
       (seq 0 (min (length (a self)) (length (b self)))).

Definition _diff `{External} (self : t) : result t :=
  let count :=
    if negb (length (a self) =? length (b self))%nat
    then Some (length (a self), length (b self))
    else diff_hdu_count self in
  diffs ← hdu_diffs self;
  Ok {| a := a self; b := b self;
        ignore_keywords := ignore_keywords self;
        ignore_comments := ignore_comments self;
        ignore_fields := ignore_fields self;
        numdiffs := numdiffs self;
        tolerance := tolerance self;
        ignore_blanks := ignore_blanks self;
        diff_hdu_count := count;
        diff_hdus :=
          diff_hdus self ++ List.filter (fun p => negb (identical p.2)) diffs |}.

(** The attributes [FITSDiff.__init__] sets before it runs [_diff], for two
    [HDUList] objects. *)
Definition initial (a b : list HDU.t)
    (ignore_keywords ignore_comments ignore_fields : gset string)
    (numdiffs : Z) (tolerance : float) (ignore_blanks : bool) : t :=
  {| a := a; b := b;
     ignore_keywords := ignore_keywords;
     ignore_comments := ignore_comments;
     ignore_fields := ignore_fields;
     numdiffs := numdiffs;
     tolerance := tolerance;
     ignore_blanks := ignore_blanks;
     diff_hdu_count := None;
     diff_hdus := [] |}.

Definition __init__ `{External} (a b : list HDU.t)
    (ignore_keywords ignore_comments ignore_fields : gset string)
    (numdiffs : Z) (tolerance : float) (ignore_blanks : bool) : result t :=
  _diff (initial a b ignore_keywords ignore_comments ignore_fields
           numdiffs tolerance ignore_blanks).

#[global] Instance base_diff : BaseDiff t := fun self =>
  [ ("ignore_keywords", ALen (size (ignore_keywords self)));
    ("ignore_comments", ALen (size (ignore_comments self)));
    ("ignore_fields", ALen (size (ignore_fields self)));
    ("numdiffs", AInt (numdiffs self));
    ("tolerance", AFloat (tolerance self));
    ("ignore_blanks", ABool (ignore_blanks self));
    ("diff_hdu_count", apair (diff_hdu_count self));
    ("diff_hdus", alen (diff_hdus self));
    ("a", alen (a self));
    ("b", alen (b self)) ].

End FITSDiff.

(** ** Vocabulary of the statements *)

(** *** Numbers *)

(** A zero or a finite number. *)
Definition finite (x : float) : bool :=
  match x with
  | S754_zero _ | S754_finite _ _ _ => true
  | _ => false
  end.

(** A value of the format [k]: the mantissa and the exponent are the
    canonical ones of the format. *)
Definition valid (k : ftype) (x : float) : bool :=
  valid_binary (prec k) (emax k) x.

(** The real number a zero or a finite float stands for. *)
Definition float_value (x : float) : Q :=
  match x with
  | S754_finite s m e => (inject_Z (cond_Zopp s (Zpos m)) * 2 ^ e)%Q
  | _ => 0%Q
  end.

(** The number an integer or a finite float element stands for (of a
    complex element, the real part). *)
Definition scalar_value (x : scalar) : Q :=
  match x with
  | SInt z => inject_Z z
  | SFloat v => float_value v
  | SComplex re _ => float_value re
  end.

(** The integer a [bool] or an [int] stands for. *)
Definition py_integer (v : pyval) : option Z :=
  match v with
  | PyBool b => Some (Z.b2z b)
  | PyInt z => Some z
  | _ => None
  end.

(** "Exactly equal": [None] and itself, two strings of the same characters,
    two integers (booleans included) of the same value, two floats equal as
    IEEE 754 has it, an integer and a finite float of the same value. *)
Inductive py_equal : pyval -> pyval -> Prop :=
| py_equal_none : py_equal PyNone PyNone
| py_equal_str (s : string) : py_equal (PyStr s) (PyStr s)
| py_equal_int (a b : pyval) (z : Z) :
    py_integer a = Some z -> py_integer b = Some z -> py_equal a b
| py_equal_float (x y : float) :
    SFeqb x y = true -> py_equal (PyFloat x) (PyFloat y)
| py_equal_int_float (a : pyval) (z : Z) (x : float) :
    py_integer a = Some z -> finite x = true ->
    (float_value x == inject_Z z)%Q -> py_equal a (PyFloat x)
| py_equal_float_int (a : pyval) (z : Z) (x : float) :
    py_integer a = Some z -> finite x = true ->
    (float_value x == inject_Z z)%Q -> py_equal (PyFloat x) a.

(** Two binary64 values are close for [np.allclose] with the relative
    tolerance [rtol] and no absolute tolerance: an infinity is close to
    itself only; otherwise [|x - y| <= 0.0 + rtol * |y|], every operation in
    binary64 (which fails when a NaN is involved). *)
Definition close64 (rtol x y : float) : Prop :=
  match x, y with
  | S754_infinity s, S754_infinity s' => s = s'
  | S754_infinity _, _ => False
  | _, S754_infinity _ => False
  | _, _ =>
      SFleb (SFabs (fsub binary64 x y))
            (fadd binary64 fzero (fmul binary64 rtol (SFabs y))) = true
  end.

(** *** Arrays *)

(** An index tuple within the bounds of a shape. *)
Definition valid_index (sh idx : list nat) : Prop :=
  Forall2 (fun i n => (i < n)%nat) idx sh.

(** Row-major (C) order of index tuples: lexicographic, the first axis the
    most significant. *)
Inductive lex_lt : list nat -> list nat -> Prop :=
| lex_lt_head (i j : nat) (l l' : list nat) :
    (i < j)%nat -> lex_lt (i :: l) (j :: l')
| lex_lt_tail (i : nat) (l l' : list nat) :
    lex_lt l l' -> lex_lt (i :: l) (i :: l').

(** The number of elements of a shape. *)
Definition shape_size (sh : list nat) : nat := foldr Nat.mul 1%nat sh.

(** An array holds as many elements as its shape says. *)
Definition wf_array (a : ndarray) : Prop :=
  length (flat a) = shape_size (shape a).

(** The element [x] exceeds the relative tolerance around [y], as numpy
    evaluates [np.abs(x - y) > 0.0 + rtol * np.abs(y)]. *)
Definition exceeds `{External} (rtol : float) (x y : tval) : bool :=
  np_greater (np_absolute (np_subtract x y))
             (np_add_float fzero (np_multiply_float rtol (np_absolute y))).

(** The positions at which [a] deviates from [b]: where the elements are
    unequal when [rtol] is zero, where [a] exceeds the relative tolerance
    [rtol] around [b] otherwise. *)
Definition deviating `{External} (a b : ndarray) (rtol : float)
    (idx : list nat) : bool :=
  if SFeqb rtol fzero then np_not_equal (item a idx) (item b idx)
  else exceeds rtol (item a idx) (item b idx).

(** An array of floats of the format [k], all of them values of the format;
    and one whose elements are finite as well. *)
Definition float_array (k : ftype) (a : ndarray) : Prop :=
  exists l, elems a = Floats k l /\ Forall (fun x => valid k x = true) l.

Definition finite_array (k : ftype) (a : ndarray) : Prop :=
  exists l, elems a = Floats k l
            /\ Forall (fun x => valid k x = true /\ finite x = true) l.

(** Relative deviation of [x] from [y] in exact arithmetic, and its maximum
    over two arrays. *)
Definition rel_dev (x y : Q) : Q := (Qabs (x - y) / Qabs y)%Q.

Definition max_rel_dev (a b : ndarray) : Q :=
  foldr (fun idx m =>
           let r := rel_dev (scalar_value (getitem a idx))
                            (scalar_value (getitem b idx)) in
           if Qle_bool m r then r else m)
        0%Q (ndindex (shape a)).

(** An array one of whose operands makes [ImageDataDiff] honour the
    tolerance. *)
Definition inexact (a : ndarray) : bool :=
  issubdtype_float (dtype_of a) || issubdtype_complex (dtype_of a).

(** *** Tables *)

(** A column array of the representation its format announces: a
    variable-length array column has a 'P' format, a character column has
    not. *)
Definition well_typed (col : Column) (c : colarray) : bool :=
  match c with
  | NumCol _ => true
  | StrCol _ => negb (str_contains "P"%char (format col))
  | VarCol _ => str_contains "P"%char (format col)
  end.

(** A column whose cells hold one value each (or one array each). *)
Definition scalar_cells (c : colarray) : Prop :=
  match c with
  | NumCol arr => length (shape arr) = 1%nat
  | _ => True
  end.

(** The columns of the two tables can be compared by [TableDataDiff]. *)
Definition comparable_tables (a b : FITS_rec) : Prop :=
  forall col, In col (columns a) ->
    comparable (field a (name col)) (field b (name col)) = true
    /\ well_typed col (field a (name col)) = true.

(** *** Diff objects *)

(** The specification of [identical] for one class of diff objects. *)
Definition identical_iff_no_diff (T : Type) `{BaseDiff T} : Prop :=
  forall self : T,
    (identical self = true
     <-> forall attr v, In (attr, v) (__dict__ self) ->
           startswith "diff_" attr = true -> truth v = false)
    /\ exists attr v, In (attr, v) (__dict__ self)
                      /\ startswith "diff_" attr = true.

(** ** Sample inputs *)

(** A matcher for patterns made of [*], [?] and literal characters. *)
Fixpoint glob (pattern s : string) : bool :=
  match pattern with
  | EmptyString => match s with EmptyString => true | _ => false end
  | String p pattern' =>
      if Ascii.eqb p "*"%char then
        (fix star (s : string) : bool :=
           glob pattern' s
           || match s with
              | EmptyString => false
              | String _ s' => star s'
              end) s
      else
        match s with
        | EmptyString => false
        | String c s' =>
            (Ascii.eqb p "?"%char || Ascii.eqb p c) && glob pattern' s'
        end
  end.

(** Columns are equal when their lowercased names and their formats are;
    [sorted] leaves their order alone; [hypot(x, y)] is computed as
    [sqrt(x*x + y*y)]. *)
Definition sample_external : External :=
  {| fnmatch := fun name pattern => glob pattern name;
     Column_eq := fun c d =>
       String.eqb (str_lower (name c)) (str_lower (name d))
       && String.eqb (format c) (format d);
     sorted_columns := fun l => l;
     sorted_columns_perm := fun l => Permutation_refl l;
     hypot := fun k x y =>
       SFsqrt (prec k) (emax k) (fadd k (fmul k x x) (fmul k y y)) |}.

Definition card (k : string) (v : pyval) (c : string) : Card :=
  {| keyword := k; value := v; comment := c |}.

Definition header_a : Header :=
  {| cards := [card "N" (PyInt 2) "naxis"; card "HISTORY" (PyStr "v1") ""] |}.

Definition header_b : Header :=
  {| cards := [card "N" (PyInt 3) "naxis"; card "HISTORY" (PyStr "v1") "";
               card "HISTORY" (PyStr "v2") ""] |}.

(** The Python float [float(n) / float(d)]. *)
Definition ratio (n d : Z) : float :=
  fdiv binary64 (float_of_Z binary64 n) (float_of_Z binary64 d).

(** An array of integers of the type [i]; an array of float64 and one of
    float32 that hold integers. *)
Definition ints (sh : list nat) (i : inttype) (l : list Z) : ndarray :=
  {| shape := sh; elems := Ints i l |}.

Definition doubles (sh : list nat) (l : list Z) : ndarray :=
  {| shape := sh; elems := Floats binary64 (map (float_of_Z binary64) l) |}.

Definition singles (sh : list nat) (l : list float) : ndarray :=
  {| shape := sh; elems := Floats binary32 (map (fconv binary32) l) |}.

Definition grid_a : ndarray := doubles [2; 2] [1; 2; 3; 4]%Z.

Definition grid_b : ndarray := doubles [2; 2] [1; 5; 3; 0]%Z.

Definition line_a : ndarray := doubles [2] [1; 3]%Z.

Definition line_b : ndarray := doubles [2] [1; 4]%Z.

(** A primary HDU with and without data, and an extension of a type that is
    neither image nor table, whose data are bytes. *)
Definition primary (d : option hdudata) : HDU.t :=
  {| HDU.name := "PRIMARY"; HDU.header := header_a; HDU.data := d;
     HDU.is_image := true; HDU.is_table := false |}.

Definition raw_extension (bytes : list Z) : HDU.t :=
  {| HDU.name := "";
     HDU.header := {| cards := [card "XTENSION" (PyStr "FOO") ""] |};
     HDU.data := Some (ArrayData (ints [length bytes] uint8 bytes));
     HDU.is_image := false; HDU.is_table := false |}.

(** A table of the single column X, [n] rows long, that holds the array
    [c]. *)
Definition one_column (fmt : string) (c : colarray) (n : nat) : FITS_rec :=
  {| columns := [{| name := "X"; format := fmt |}];
     nrows := n;
     field := fun _ => c |}.

Definition vectors_a : FITS_rec :=
  one_column "3J" (NumCol (ints [2; 3] int32 [1; 2; 3; 4; 5; 6]%Z)) 2.

Definition vectors_b : FITS_rec :=
  one_column "3J" (NumCol (ints [2; 3] int32 [0; 0; 0; 0; 0; 0]%Z)) 2.

Definition scalars_a : FITS_rec :=
  one_column "J" (NumCol (ints [3] int32 [1; 2; 3]%Z)) 3.

Definition scalars_b : FITS_rec :=
  one_column "J" (NumCol (ints [3] int32 [1; 0; 0]%Z)) 3.

Definition no_rows : FITS_rec :=
  one_column "J" (NumCol (ints [0] int32 [])) 0.

(** *** Rounding *)

Local Open Scope Z_scope.

(** The state of a right shift of the mantissa [m] by [k] bits: the bits
    shifted out are [m - shr_m * 2^k]; the round bit tells whether they reach
    one half, the sticky bit whether they hold anything else. *)
Definition shr_inv (m k : Z) (mrs : shr_record) : Prop :=
  0 <= shr_m mrs
  /\ 0 <= m - shr_m mrs * 2 ^ k < 2 ^ k
  /\ (shr_r mrs = true <-> 2 ^ k <= 2 * (m - shr_m mrs * 2 ^ k))
  /\ (shr_s mrs = true
      <-> m - shr_m mrs * 2 ^ k <> 0 /\ 2 * (m - shr_m mrs * 2 ^ k) <> 2 ^ k).

(** [m1] is [m / 2^k] rounded to the nearest integer, a tie to the even
    one. *)
Definition is_rne (m k m1 : Z) : Prop :=
  ((2 * m1 - 1) * 2 ^ k <= 2 * m <= (2 * m1 + 1) * 2 ^ k)
  /\ (2 * m = (2 * m1 - 1) * 2 ^ k \/ 2 * m = (2 * m1 + 1) * 2 ^ k ->
      Z.even m1 = true).

(** The float of sign [s] that the mantissa [m1] at the exponent [E] stands
    for, [m1] being at most [2^prec]. *)
Definition encode (prec emax : Z) (s : bool) (m1 E : Z) : spec_float :=
  if m1 =? 0 then S754_zero s
  else if m1 =? 2 ^ prec then
    if E + 1 <=? emax - prec
    then S754_finite s (Z.to_pos (2 ^ (prec - 1))) (E + 1)
    else S754_infinity s
  else
    if E <=? emax - prec then S754_finite s (Z.to_pos m1) E
    else S754_infinity s.

(** The value [m * 2^e] is at most [m' * 2^e']. *)
Definition value_le (m e m' e' : Z) : Prop :=
  m * 2 ^ (e - Z.min e e') <= m' * 2 ^ (e' - Z.min e e').

(** The number [m * 2^e]. *)
Definition dyadic (m e : Z) : Q := (inject_Z m * 2 ^ e)%Q.

(** The place of a float in the order of [SFcompare]: the sign and class,
    then the exponent, then the mantissa. *)
Definition fkey (x : spec_float) : Z * Z * Z :=
  match x with
  | S754_infinity true => (-2, 0, 0)
  | S754_finite true m e => (-1, - e, - Zpos m)
  | S754_zero _ => (0, 0, 0)
  | S754_nan => (0, 0, 0)
  | S754_finite false m e => (1, e, Zpos m)
  | S754_infinity false => (2, 0, 0)
  end.

Definition key_le (k k' : Z * Z * Z) : Prop :=
  k.1.1 < k'.1.1
  \/ (k.1.1 = k'.1.1
      /\ (k.1.2 < k'.1.2 \/ (k.1.2 = k'.1.2 /\ k.2 <= k'.2))).

Definition key_lt (k k' : Z * Z * Z) : Prop :=
  k.1.1 < k'.1.1
  \/ (k.1.1 = k'.1.1
      /\ (k.1.2 < k'.1.2 \/ (k.1.2 = k'.1.2 /\ k.2 < k'.2))).

Definition is_nan (x : spec_float) : bool :=
  match x with S754_nan => true | _ => false end.

(** A zero, a positive number or the positive infinity. *)
Definition nonneg (x : spec_float) : bool :=
  match x with
  | S754_zero _ => true
  | S754_infinity s => negb s
  | S754_finite s _ _ => negb s
  | S754_nan => false
  end.

Local Close Scope Z_scope.

(** * Properties *)

(** ** Floating-point rounding *)

Local Open Scope Z_scope.

Lemma digits2_pos_bounds (m : positive) :
  2 ^ (Zpos (digits2_pos m) - 1) <= Zpos m < 2 ^ Zpos (digits2_pos m).
Proof.
  induction m as [m IH | m IH | ]; cbn [digits2_pos].
  - rewrite Pos2Z.inj_succ.
    replace (Z.succ (Zpos (digits2_pos m)) - 1) with (Z.succ (Zpos (digits2_pos m) - 1)) by lia.
    rewrite !Z.pow_succ_r by lia. lia.
  - rewrite Pos2Z.inj_succ.
    replace (Z.succ (Zpos (digits2_pos m)) - 1) with (Z.succ (Zpos (digits2_pos m) - 1)) by lia.
    rewrite !Z.pow_succ_r by lia. lia.
  - simpl. lia.
Qed.

Lemma iter_pos_invariant {A : Type} (f : A -> A) (P : Z -> A -> Prop) :
  (forall k x, 0 <= k -> P k x -> P (k + 1) (f x)) ->
  forall p k x, 0 <= k -> P k x -> P (k + Zpos p) (SpecFloat.iter_pos f p x).
Proof.
  intros Hstep. induction p as [p IH | p IH | ]; intros k x Hk Hx; cbn [SpecFloat.iter_pos].
  - replace (k + Zpos p~1) with (k + 1 + Zpos p + Zpos p) by lia.
    apply IH; [lia | ]. apply IH; [lia | ]. by apply Hstep.
  - replace (k + Zpos p~0) with (k + Zpos p + Zpos p) by lia.
    apply IH; [lia | ]. by apply IH.
  - by apply Hstep.
Qed.

Lemma shr_inv_init (m : Z) (l : location) :
  0 <= m -> l = loc_Exact -> shr_inv m 0 (shr_record_of_loc m l).
Proof.
  intros Hm ->. unfold shr_inv. simpl. repeat split; try lia; intros; try discriminate; lia.
Qed.

Lemma shr_inv_step (m k : Z) (mrs : shr_record) :
  0 <= k -> shr_inv m k mrs -> shr_inv m (k + 1) (shr_1 mrs).
Proof.
  intros Hk. destruct mrs as [M R S]. unfold shr_inv. cbn [shr_m shr_r shr_s].
  rewrite Z.pow_add_r by lia. change (2 ^ 1) with 2.
  assert (0 < 2 ^ k) as Hp by (apply Z.pow_pos_nonneg; lia).
  revert Hp. generalize (2 ^ k). intros P Hp (HM & Hrho & HR & HS).
  destruct M as [ | [p | p | ] | p]; try lia; cbn [shr_1 shr_m shr_r shr_s];
    destruct R, S; cbn [orb];
    repeat split; try lia; try (intros; discriminate); try (intros _);
    try (intros [? ?]); try nia;
    try (exfalso; destruct HR as [HR1 HR2]; destruct HS as [HS1 HS2];
         first [ specialize (HR1 eq_refl) | idtac ];
         first [ specialize (HS1 eq_refl) | idtac ]; nia).
Qed.

Lemma shr_spec (m e n : Z) :
  0 <= m -> 0 <= n ->
  (shr (shr_record_of_loc m loc_Exact) e n).2 = e + n
  /\ shr_inv m n (shr (shr_record_of_loc m loc_Exact) e n).1.
Proof.
  intros Hm Hn. destruct n as [ | p | p]; [ | | lia]; cbn [shr fst snd].
  - split; [lia | by apply shr_inv_init].
  - split; [reflexivity | ].
    apply (iter_pos_invariant shr_1 (shr_inv m)) with (k := 0);
      [intros k x; apply shr_inv_step | lia | by apply shr_inv_init].
Qed.

Lemma round_nearest_even_spec (m k : Z) (mrs : shr_record) :
  0 <= k -> shr_inv m k mrs ->
  let m1 := round_nearest_even (shr_m mrs) (loc_of_shr_record mrs) in
  is_rne m k m1 /\ shr_m mrs <= m1 <= shr_m mrs + 1.
Proof.
  intros Hk. destruct mrs as [M R S]. unfold shr_inv, is_rne.
  cbn [shr_m shr_r shr_s].
  assert (0 < 2 ^ k) as Hp by (apply Z.pow_pos_nonneg; lia).
  revert Hp. generalize (2 ^ k). intros P Hp (HM & Hrho & [HR1 HR2] & [HS1 HS2]).
  destruct R, S; cbn [loc_of_shr_record round_nearest_even].
  - specialize (HR1 eq_refl). specialize (HS1 eq_refl).
    repeat split; try nia; try (intros [E | E]; exfalso; nia).
  - specialize (HR1 eq_refl).
    assert (2 * (m - M * P) = P) as E2.
    { destruct (Z.eq_dec (2 * (m - M * P)) P) as [E | N]; [exact E | ].
      assert (false = true) by (apply HS2; lia). discriminate. }
    destruct (Z.even M) eqn:Ev.
    + repeat split; try nia. intros _. exact Ev.
    + repeat split; try nia. intros _. rewrite Z.even_add, Ev. reflexivity.
  - assert (2 * (m - M * P) < P) as Hlt.
    { destruct (Z_lt_dec (2 * (m - M * P)) P) as [L | N]; [exact L | ].
      assert (false = true) by (apply HR2; lia). discriminate. }
    repeat split; try nia; try (intros [E | E]; exfalso; nia).
  - assert (2 * (m - M * P) < P) as Hlt.
    { destruct (Z_lt_dec (2 * (m - M * P)) P) as [L | N]; [exact L | ].
      assert (false = true) by (apply HR2; lia). discriminate. }
    repeat split; try nia; try (intros [E | E]; exfalso; nia).
Qed.

Lemma is_rne_mono (m k m1 m' k' m1' : Z) :
  0 <= k -> 0 <= k' ->
  is_rne m k m1 -> is_rne m' k' m1' ->
  m * 2 ^ k' <= m' * 2 ^ k -> m1 <= m1'.
Proof.
  intros Hk Hk'. unfold is_rne.
  assert (0 < 2 ^ k) as Hp by (apply Z.pow_pos_nonneg; lia).
  assert (0 < 2 ^ k') as Hp' by (apply Z.pow_pos_nonneg; lia).
  revert Hp Hp'. generalize (2 ^ k) (2 ^ k'). intros P P' Hp Hp'.
  intros [[Hlo Hhi] Hev] [[Hlo' Hhi'] Hev'] Hle.
  destruct (Z_le_gt_dec m1 m1') as [L | G]; [exact L | exfalso].
  assert ((2 * m1 - 1) * P * P' <= 2 * m * P') as H1 by nia.
  assert (2 * m' * P <= (2 * m1' + 1) * P' * P) as H2 by nia.
  assert ((2 * m1 - 1) * (P * P') <= (2 * m1' + 1) * (P * P')) as H3 by nia.
  assert (0 < P * P') as Hpp by nia.
  assert (2 * m1 - 1 <= 2 * m1' + 1) as H4 by nia.
  assert (m1 = m1' + 1) as -> by lia.
  assert (2 * m = (2 * (m1' + 1) - 1) * P) as E1 by nia.
  assert (2 * m' = (2 * m1' + 1) * P') as E2 by nia.
  specialize (Hev (or_introl E1)). specialize (Hev' (or_intror E2)).
  rewrite Z.even_add, Hev' in Hev. discriminate.
Qed.

Section Rounding.

Variables prec emax : Z.
Hypothesis Hprec : 1 < prec.
Hypothesis Hemax : prec < emax.

Local Notation "'fexp'" := (SpecFloat.fexp prec emax).
Local Notation "'emin'" := (SpecFloat.emin prec emax).

Lemma fexp_ge (x : Z) : x - prec <= fexp x /\ emin <= fexp x.
Proof using Hprec Hemax. unfold SpecFloat.fexp. lia. Qed.

Lemma fexp_mono (x y : Z) : x <= y -> fexp x <= fexp y.
Proof using Hprec Hemax. unfold SpecFloat.fexp. lia. Qed.

Lemma binary_round_aux_spec (s : bool) (m : positive) (e : Z) :
  e <= fexp (Zpos (digits2_pos m) + e) ->
  let E := fexp (Zpos (digits2_pos m) + e) in
  exists m1,
    is_rne (Zpos m) (E - e) m1
    /\ 0 <= m1 <= 2 ^ prec
    /\ (emin <= Zpos (digits2_pos m) + e - prec -> 2 ^ (prec - 1) <= m1)
    /\ binary_round_aux prec emax s (Zpos m) e loc_Exact = encode prec emax s m1 E.
Proof using Hprec Hemax.
  intros Hpre E. assert (e <= E) as HeE by exact Hpre.
  pose proof (digits2_pos_bounds m) as Hd.
  set (d := Zpos (digits2_pos m)) in *.
  unfold binary_round_aux, shr_fexp. cbn [Zdigits2]. fold d. fold E.
  destruct (shr_spec (Zpos m) e (E - e)) as [He' Hinv]; [lia | lia | ].
  destruct (shr (shr_record_of_loc (Zpos m) loc_Exact) e (E - e)) as [mrs' e'].
  cbn [fst snd] in He', Hinv. subst e'.
  destruct (round_nearest_even_spec (Zpos m) (E - e) mrs' ltac:(lia) Hinv)
    as [Hrne Hm1].
  set (m1 := round_nearest_even (shr_m mrs') (loc_of_shr_record mrs')) in *.
  replace (e + (E - e)) with E by lia.
  exists m1.
  destruct Hinv as (Hq & Hrho & _ & _).
  set (q := shr_m mrs') in *. set (n := E - e) in *.
  assert (0 <= n) as Hn by lia.
  assert (0 < 2 ^ n) as Hpn by (apply Z.pow_pos_nonneg; lia).
  assert (0 < 2 ^ prec) as Hpp by (apply Z.pow_pos_nonneg; lia).
  assert (d <= n + prec) as Hdn by (pose proof (fexp_ge (d + e)); lia).
  assert (2 ^ d <= 2 ^ n * 2 ^ prec) as Hpow.
  { rewrite <- Z.pow_add_r by lia. apply Z.pow_le_mono_r; lia. }
  assert (q < 2 ^ prec) as Hqlt by nia.
  split; [exact Hrne | ]. split; [lia | ]. split.
  { intros Hnormal.
    assert (E = d + e - prec) as HE by (unfold E, SpecFloat.fexp; lia).
    assert (d - 1 = n + (prec - 1)) as Hd1 by lia.
    rewrite Hd1, Z.pow_add_r in Hd by lia.
    assert (0 < 2 ^ (prec - 1)) by (apply Z.pow_pos_nonneg; lia).
    nia. }
  unfold encode.
  destruct (Z.eqb_spec m1 0) as [E0 | N0].
  { rewrite E0. cbn [Zdigits2].
    assert (fexp (0 + E) - E <= 0) as Hle
      by (pose proof (fexp_ge (d + e)); unfold SpecFloat.fexp; fold E; lia).
    destruct (fexp (0 + E) - E) as [ | p | p] eqn:En; [ | lia | ]; reflexivity. }
  destruct m1 as [ | p1 | p1] eqn:Em1; [lia | | lia].
  pose proof (digits2_pos_bounds p1) as Hd1.
  set (d1 := Zpos (digits2_pos p1)) in *. cbn [Zdigits2]. fold d1.
  assert (emin <= E) as HEmin by (apply fexp_ge).
  destruct (Z.eqb_spec (Zpos p1) (2 ^ prec)) as [Ec | Nc].
  - assert (d1 = prec + 1) as Hd1e.
    { rewrite Ec in Hd1. destruct Hd1 as [Hlo Hhi].
      apply Z.pow_lt_mono_r_iff in Hhi; [ | lia | lia].
      apply Z.pow_le_mono_r_iff in Hlo; [ | lia | lia]. lia. }
    assert (fexp (d1 + E) - E = 1) as -> by (unfold SpecFloat.fexp; lia).
    cbn [shr SpecFloat.iter_pos shr_record_of_loc].
    destruct (shr_inv_step (Zpos p1) 0 _ ltac:(lia)
                (shr_inv_init (Zpos p1) loc_Exact ltac:(lia) eq_refl))
      as (HM & HrhoM & _ & _).
    cbn [shr_record_of_loc] in HM, HrhoM.
    set (M := shr_m (shr_1 {| shr_m := Zpos p1; shr_r := false; shr_s := false |})) in *.
    change (2 ^ (0 + 1)) with 2 in HrhoM.
    assert (2 ^ prec = 2 * 2 ^ (prec - 1)) as Hhalf.
    { replace prec with (Z.succ (prec - 1)) at 1 by lia. apply Z.pow_succ_r. lia. }
    assert (0 < 2 ^ (prec - 1)) by (apply Z.pow_pos_nonneg; lia).
    assert (M = 2 ^ (prec - 1)) as HMe by lia.
    rewrite HMe. destruct (2 ^ (prec - 1)) as [ | ph | ph] eqn:Eh; [lia | | lia].
    reflexivity.
  - assert (d1 <= prec) as Hd1e.
    { destruct Hd1 as [Hlo Hhi].
      assert (2 ^ (d1 - 1) < 2 ^ prec) as Hlt by lia.
      apply Z.pow_lt_mono_r_iff in Hlt; lia. }
    assert (fexp (d1 + E) - E <= 0) as Hle by (unfold SpecFloat.fexp; lia).
    destruct (fexp (d1 + E) - E) as [ | p | p] eqn:En; [ | lia | ]; reflexivity.
Qed.

Lemma SFleb_finite (m m' : positive) (e e' : Z) :
  SFleb (S754_finite false m e) (S754_finite false m' e') = true
  <-> e < e' \/ (e = e' /\ Zpos m <= Zpos m').
Proof using Type.
  unfold SFleb, SFcompare. rewrite Pos.compare_cont_spec. cbn [Pos.switch_Eq].
  destruct (Z.compare_spec e e') as [E | L | G].
  - change (Zpos m <= Zpos m') with (Pos.le m m'). unfold Pos.le.
    destruct (Pos.compare m m'); intuition (try discriminate; try lia; try congruence).
  - intuition lia.
  - split; [discriminate | lia].
Qed.

Lemma encode_le (m1 E m1' E' : Z) :
  0 <= m1 <= 2 ^ prec -> 0 <= m1' <= 2 ^ prec ->
  (E = E' /\ m1 <= m1') \/ (E < E' /\ 2 ^ (prec - 1) <= m1') ->
  SFleb (encode prec emax false m1 E) (encode prec emax false m1' E') = true.
Proof using Hprec Hemax.
  intros Hm1 Hm1' Hord.
  assert (0 < 2 ^ (prec - 1)) as Hh by (apply Z.pow_pos_nonneg; lia).
  assert (2 ^ prec = 2 * 2 ^ (prec - 1)) as Hhalf.
  { replace prec with (Z.succ (prec - 1)) at 1 by lia. apply Z.pow_succ_r. lia. }
  unfold encode.
  destruct (Z.eqb_spec m1 0) as [E0 | N0].
  { destruct (m1' =? 0); [reflexivity | ].
    destruct (m1' =? 2 ^ prec); [by destruct (_ <=? _) | by destruct (_ <=? _)]. }
  destruct (Z.eqb_spec m1' 0) as [E0' | N0']; [lia | ].
  destruct (Z.eqb_spec m1 (2 ^ prec)) as [Ec | Nc];
    destruct (Z.eqb_spec m1' (2 ^ prec)) as [Ec' | Nc'];
    repeat match goal with
           | |- context [?x <=? ?y] => destruct (Z.leb_spec x y)
           end;
    try reflexivity; try lia;
    try (apply SFleb_finite; rewrite ?Z2Pos.id by lia; lia).
Qed.

Lemma value_le_digits (m m' : positive) (e e' : Z) :
  value_le (Zpos m) e (Zpos m') e' ->
  Zpos (digits2_pos m) + e <= Zpos (digits2_pos m') + e'.
Proof using Hprec Hemax.
  unfold value_le. intros Hle.
  pose proof (digits2_pos_bounds m) as [Hlo _].
  pose proof (digits2_pos_bounds m') as [_ Hhi].
  set (d := Zpos (digits2_pos m)) in *. set (d' := Zpos (digits2_pos m')) in *.
  set (c := Z.min e e') in *.
  assert (0 < 2 ^ (e - c)) by (apply Z.pow_pos_nonneg; lia).
  assert (0 < 2 ^ (e' - c)) by (apply Z.pow_pos_nonneg; lia).
  assert (2 ^ (d - 1 + (e - c)) < 2 ^ (d' + (e' - c))) as Hlt.
  { rewrite !Z.pow_add_r by lia. nia. }
  apply Z.pow_lt_mono_r_iff in Hlt; lia.
Qed.

Lemma value_le_scaled (m m' e e' E : Z) :
  e <= E -> e' <= E -> value_le m e m' e' ->
  m * 2 ^ (E - e') <= m' * 2 ^ (E - e).
Proof using Hprec Hemax.
  unfold value_le. intros He He' Hle.
  set (c := Z.min e e') in *. set (x := Z.max e e').
  assert (0 < 2 ^ (E - x)) by (apply Z.pow_pos_nonneg; lia).
  replace (E - e') with ((e - c) + (E - x)) by lia.
  replace (E - e) with ((e' - c) + (E - x)) by lia.
  rewrite !Z.pow_add_r by lia. nia.
Qed.

(** Rounding is monotone: of two positive values, the smaller one rounds to
    the smaller float. *)
Lemma binary_round_aux_mono (m m' : positive) (e e' : Z) :
  e <= fexp (Zpos (digits2_pos m) + e) ->
  e' <= fexp (Zpos (digits2_pos m') + e') ->
  value_le (Zpos m) e (Zpos m') e' ->
  SFleb (binary_round_aux prec emax false (Zpos m) e loc_Exact)
        (binary_round_aux prec emax false (Zpos m') e' loc_Exact) = true.
Proof using Hprec Hemax.
  intros Hpre Hpre' Hle.
  destruct (binary_round_aux_spec false m e Hpre) as (m1 & Hrne & Hb & _ & ->).
  destruct (binary_round_aux_spec false m' e' Hpre') as (m1' & Hrne' & Hb' & Hn' & ->).
  pose proof (value_le_digits m m' e e' Hle) as Hd.
  set (E := fexp (Zpos (digits2_pos m) + e)) in *.
  set (E' := fexp (Zpos (digits2_pos m') + e')) in *.
  assert (E <= E') as HE by (apply fexp_mono; exact Hd).
  apply encode_le; [exact Hb | exact Hb' | ].
  destruct (Z.eq_dec E E') as [Eq | Ne].
  - left. split; [exact Eq | ].
    apply (is_rne_mono (Zpos m) (E - e) m1 (Zpos m') (E' - e') m1');
      [lia | lia | exact Hrne | exact Hrne' | ].
    rewrite <- Eq. apply value_le_scaled; [exact Hpre | lia | exact Hle].
  - right. split; [lia | ]. apply Hn'.
    pose proof (fexp_ge (Zpos (digits2_pos m) + e)) as [_ Hmin]. fold E in Hmin.
    unfold E', SpecFloat.fexp in *. lia.
Qed.

Lemma emin_neg : emin < 0.
Proof using Hprec Hemax. unfold SpecFloat.emin. lia. Qed.

Lemma digits2_pos_unique (p : positive) (d : Z) :
  2 ^ (d - 1) <= Zpos p < 2 ^ d -> Zpos (digits2_pos p) = d.
Proof using Type.
  intros [Hlo Hhi]. pose proof (digits2_pos_bounds p) as [Hlo' Hhi'].
  set (d' := Zpos (digits2_pos p)) in *.
  assert (0 < d') by (unfold d'; lia).
  assert (0 < d).
  { destruct (Z_lt_le_dec 0 d) as [L | G]; [exact L | ].
    rewrite (Z.pow_neg_r 2 (d - 1)) in Hlo by lia.
    assert (2 ^ d <= 2 ^ 0) by (apply Z.pow_le_mono_r; lia).
    change (2 ^ 0) with 1 in *. lia. }
  assert (2 ^ (d - 1) < 2 ^ d') as H1 by lia.
  assert (2 ^ (d' - 1) < 2 ^ d) as H2 by lia.
  apply Z.pow_lt_mono_r_iff in H1; [ | lia | lia].
  apply Z.pow_lt_mono_r_iff in H2; [ | lia | lia]. lia.
Qed.

Lemma bounded_spec (m : positive) (e : Z) :
  bounded prec emax m e = true
  <-> e = fexp (Zpos (digits2_pos m) + e) /\ e <= emax - prec.
Proof using Hprec Hemax.
  unfold bounded, canonical_mantissa.
  rewrite andb_true_iff, Z.eqb_eq, Z.leb_le. intuition congruence.
Qed.

(** What a canonical mantissa and exponent amount to. *)
Lemma bounded_digits (m : positive) (e : Z) :
  bounded prec emax m e = true ->
  Zpos (digits2_pos m) <= prec /\ emin <= e
  /\ (Zpos (digits2_pos m) = prec \/ e = emin).
Proof using Hprec Hemax.
  rewrite bounded_spec. unfold SpecFloat.fexp. lia.
Qed.

(** The result of rounding is a value of the format. *)
Lemma binary_round_aux_valid (s : bool) (m : positive) (e : Z) :
  e <= fexp (Zpos (digits2_pos m) + e) ->
  valid_binary prec emax (binary_round_aux prec emax s (Zpos m) e loc_Exact) = true.
Proof using Hprec Hemax.
  intros Hpre.
  destruct (binary_round_aux_spec s m e Hpre) as (m1 & _ & Hb & Hn & ->).
  set (E := fexp (Zpos (digits2_pos m) + e)) in *.
  assert (emin <= E) as HE by apply fexp_ge.
  assert (E = emin \/ 2 ^ (prec - 1) <= m1) as Hcases.
  { destruct (Z_le_gt_dec emin (Zpos (digits2_pos m) + e - prec)) as [L | G];
      [right; by apply Hn | left; unfold E, SpecFloat.fexp; lia]. }
  assert (0 < 2 ^ (prec - 1)) as Hh by (apply Z.pow_pos_nonneg; lia).
  assert (2 ^ prec = 2 * 2 ^ (prec - 1)) as Hhalf.
  { replace prec with (Z.succ (prec - 1)) at 1 by lia. apply Z.pow_succ_r. lia. }
  unfold encode.
  destruct (Z.eqb_spec m1 0) as [E0 | N0]; [reflexivity | ].
  destruct (Z.eqb_spec m1 (2 ^ prec)) as [Ec | Nc].
  - destruct (Z.leb_spec (E + 1) (emax - prec)) as [L | G]; [ | reflexivity].
    apply bounded_spec. split; [ | exact L].
    rewrite (digits2_pos_unique _ prec) by (rewrite Z2Pos.id by lia; lia).
    unfold SpecFloat.fexp. lia.
  - destruct (Z.leb_spec E (emax - prec)) as [L | G]; [ | reflexivity].
    apply bounded_spec. split; [ | exact L].
    pose proof (digits2_pos_bounds (Z.to_pos m1)) as [Hlo Hhi].
    rewrite Z2Pos.id in Hlo, Hhi by lia.
    set (d1 := Zpos (digits2_pos (Z.to_pos m1))) in *.
    assert (d1 <= prec) as Hd1.
    { assert (2 ^ (d1 - 1) < 2 ^ prec) as Hlt by lia.
      apply Z.pow_lt_mono_r_iff in Hlt; lia. }
    destruct Hcases as [Hmin | Hnorm]; [unfold SpecFloat.fexp; lia | ].
    assert (prec <= d1).
    { assert (2 ^ (prec - 1) < 2 ^ d1) as Hlt by lia.
      apply Z.pow_lt_mono_r_iff in Hlt; lia. }
    unfold SpecFloat.fexp. lia.
Qed.

(** The result of rounding a positive value is not negative, and no NaN. *)
Lemma binary_round_aux_nonneg (m : positive) (e : Z) (s : bool) :
  e <= fexp (Zpos (digits2_pos m) + e) ->
  SFleb (S754_zero s) (binary_round_aux prec emax false (Zpos m) e loc_Exact) = true.
Proof using Hprec Hemax.
  intros Hpre.
  destruct (binary_round_aux_spec false m e Hpre) as (m1 & _ & _ & _ & ->).
  unfold encode.
  repeat match goal with
         | |- context [if ?c then _ else _] => destruct c
         end; reflexivity.
Qed.

(** Of two canonical positive numbers, the smaller in the order of
    [SFcompare] is the smaller in value, and conversely. *)
Lemma bounded_value_le (m m' : positive) (e e' : Z) :
  bounded prec emax m e = true -> bounded prec emax m' e' = true ->
  e < e' \/ (e = e' /\ Zpos m <= Zpos m') ->
  value_le (Zpos m) e (Zpos m') e'.
Proof using Hprec Hemax.
  intros Hb Hb' Hord. unfold value_le.
  destruct Hord as [Hlt | [-> Hle]].
  - apply bounded_digits in Hb as (Hd & Hmin & _).
    apply bounded_digits in Hb' as (_ & _ & [Hd' | Hsub]); [ | lia].
    pose proof (digits2_pos_bounds m) as [_ Hhi].
    pose proof (digits2_pos_bounds m') as [Hlo' _].
    rewrite Hd' in Hlo'.
    assert (2 ^ Zpos (digits2_pos m) <= 2 ^ prec) by (apply Z.pow_le_mono_r; lia).
    assert (2 ^ prec = 2 * 2 ^ (prec - 1)) as Hhalf.
    { replace prec with (Z.succ (prec - 1)) at 1 by lia. apply Z.pow_succ_r. lia. }
    rewrite Z.min_l by lia. rewrite Z.sub_diag. change (2 ^ 0) with 1.
    assert (2 ^ 1 <= 2 ^ (e' - e)) by (apply Z.pow_le_mono_r; lia).
    change (2 ^ 1) with 2 in *. nia.
  - rewrite Z.min_id, Z.sub_diag. change (2 ^ 0) with 1. lia.
Qed.

Lemma value_le_bounded (m m' : positive) (e e' : Z) :
  bounded prec emax m e = true -> bounded prec emax m' e' = true ->
  value_le (Zpos m) e (Zpos m') e' ->
  e < e' \/ (e = e' /\ Zpos m <= Zpos m').
Proof using Hprec Hemax.
  intros Hb Hb' Hle.
  destruct (Z.lt_trichotomy e e') as [L | [E | G]]; [by left | right | exfalso].
  - subst e'. split; [reflexivity | ]. unfold value_le in Hle.
    rewrite Z.min_id, Z.sub_diag in Hle. change (2 ^ 0) with 1 in Hle. lia.
  - unfold value_le in Hle.
    apply bounded_digits in Hb' as (Hd' & Hmin' & _).
    apply bounded_digits in Hb as (_ & _ & [Hd | Hsub]); [ | lia].
    pose proof (digits2_pos_bounds m') as [_ Hhi'].
    pose proof (digits2_pos_bounds m) as [Hlo _].
    rewrite Hd in Hlo.
    assert (2 ^ Zpos (digits2_pos m') <= 2 ^ prec) by (apply Z.pow_le_mono_r; lia).
    assert (2 ^ prec = 2 * 2 ^ (prec - 1)) as Hhalf.
    { replace prec with (Z.succ (prec - 1)) at 1 by lia. apply Z.pow_succ_r. lia. }
    rewrite Z.min_r in Hle by lia. rewrite Z.sub_diag in Hle.
    change (2 ^ 0) with 1 in Hle.
    assert (2 ^ 1 <= 2 ^ (e - e')) by (apply Z.pow_le_mono_r; lia).
    change (2 ^ 1) with 2 in *. nia.
Qed.

Lemma pow2_Q (k : Z) : 0 <= k -> (inject_Z (2 ^ k) == 2 ^ k)%Q.
Proof using Type. intros Hk. by rewrite Zpower_Qpower. Qed.

Lemma value_split (m e c : Z) :
  c <= e -> (dyadic m e == 2 ^ c * inject_Z (m * 2 ^ (e - c)))%Q.
Proof using Type.
  intros Hc. unfold dyadic. rewrite inject_Z_mult, pow2_Q by lia.
  replace e with (c + (e - c)) at 1 by lia.
  rewrite Qpower_plus by lra. ring.
Qed.

Lemma value_le_Q (m e m' e' : Z) :
  value_le m e m' e' <-> (dyadic m e <= dyadic m' e')%Q.
Proof using Type.
  unfold value_le.
  rewrite (value_split m e (Z.min e e')), (value_split m' e' (Z.min e e')) by lia.
  rewrite Qmult_le_l by (apply Qpower_0_lt; lra).
  by rewrite Zle_Qle.
Qed.

Lemma value_shift (m e k : Z) :
  0 <= k -> (dyadic (m * 2 ^ k) (e - k) == dyadic m e)%Q.
Proof using Type.
  intros Hk. unfold dyadic. rewrite inject_Z_mult, pow2_Q by lia.
  replace e with (k + (e - k)) at 2 by lia.
  rewrite Qpower_plus by lra. ring.
Qed.

Lemma value_pos (m e : Z) : 0 < m -> (0 < dyadic m e)%Q.
Proof using Type.
  intros Hm. unfold dyadic. apply Qmult_lt_0_compat.
  - rewrite Zlt_Qlt in Hm. exact Hm.
  - apply Qpower_0_lt. lra.
Qed.

Lemma Pos_iter_xO (m d : positive) :
  Zpos (Pos.iter xO m d) = Zpos m * 2 ^ Zpos d.
Proof using Type.
  rewrite (Pos.iter_swap_gen _ _ Zpos xO (Z.mul 2)) by reflexivity.
  change (Pos.iter (Z.mul 2) (Zpos m) d) with (Z.shiftl (Zpos m) (Zpos d)).
  apply Z.shiftl_mul_pow2. lia.
Qed.

Lemma shl_align_spec (m : positive) (e e' : Z) :
  (shl_align m e e').2 = Z.min e e'
  /\ Zpos (shl_align m e e').1 = Zpos m * 2 ^ (e - Z.min e e').
Proof using Type.
  unfold shl_align. destruct (e' - e) as [ | d | d] eqn:Ed; cbn [fst snd].
  - rewrite Z.min_l by lia. rewrite Z.sub_diag. change (2 ^ 0) with 1. lia.
  - rewrite Z.min_l by lia. rewrite Z.sub_diag. change (2 ^ 0) with 1. lia.
  - rewrite Z.min_r by lia. rewrite Pos_iter_xO.
    split; [reflexivity | ]. f_equal. f_equal. lia.
Qed.

Lemma digits2_pos_shift (m m' : positive) (k : Z) :
  0 <= k -> Zpos m' = Zpos m * 2 ^ k ->
  Zpos (digits2_pos m') = Zpos (digits2_pos m) + k.
Proof using Type.
  intros Hk Hm'. apply digits2_pos_unique. rewrite Hm'.
  pose proof (digits2_pos_bounds m) as [Hlo Hhi].
  assert (0 < 2 ^ k) by (apply Z.pow_pos_nonneg; lia).
  replace (Zpos (digits2_pos m) + k - 1) with (Zpos (digits2_pos m) - 1 + k) by lia.
  rewrite !Z.pow_add_r by lia. nia.
Qed.

(** [binary_round] aligns the mantissa and rounds it. *)
Lemma binary_round_spec (s : bool) (m : positive) (e : Z) :
  exists m' e',
    binary_round prec emax s m e = binary_round_aux prec emax s (Zpos m') e' loc_Exact
    /\ e' <= fexp (Zpos (digits2_pos m') + e')
    /\ (dyadic (Zpos m') e' == dyadic (Zpos m) e)%Q.
Proof using Hprec Hemax.
  unfold binary_round.
  destruct (shl_align_spec m e (fexp (Zpos (digits2_pos m) + e))) as [He' Hm'].
  destruct (shl_align m e (fexp (Zpos (digits2_pos m) + e))) as [m' e'].
  cbn [fst snd] in He', Hm'. exists m', e'. split; [reflexivity | ].
  assert (e' <= e) as Hle by lia.
  rewrite <- He' in Hm'.
  rewrite (digits2_pos_shift m m' (e - e')) by (lia || exact Hm').
  replace (Zpos (digits2_pos m) + (e - e') + e') with (Zpos (digits2_pos m) + e) by lia.
  split; [lia | ].
  rewrite Hm'. rewrite <- (value_shift (Zpos m) e (e - e')) by lia.
  by replace (e - (e - e')) with e' by lia.
Qed.

Lemma binary_round_mono (m m' : positive) (e e' : Z) :
  (dyadic (Zpos m) e <= dyadic (Zpos m') e')%Q ->
  SFleb (binary_round prec emax false m e) (binary_round prec emax false m' e') = true.
Proof using Hprec Hemax.
  intros Hle.
  destruct (binary_round_spec false m e) as (n & f & -> & Hpre & Hv).
  destruct (binary_round_spec false m' e') as (n' & f' & -> & Hpre' & Hv').
  apply binary_round_aux_mono; [exact Hpre | exact Hpre' | ].
  apply value_le_Q. by rewrite Hv, Hv'.
Qed.

Lemma binary_round_valid (s : bool) (m : positive) (e : Z) :
  valid_binary prec emax (binary_round prec emax s m e) = true.
Proof using Hprec Hemax.
  destruct (binary_round_spec s m e) as (n & f & -> & Hpre & _).
  by apply binary_round_aux_valid.
Qed.

Lemma binary_round_nonneg (m : positive) (e : Z) (s : bool) :
  SFleb (S754_zero s) (binary_round prec emax false m e) = true.
Proof using Hprec Hemax.
  destruct (binary_round_spec false m e) as (n & f & -> & Hpre & _).
  by apply binary_round_aux_nonneg.
Qed.

(** *** The order of [SFcompare] *)

Lemma SFleb_key (x y : spec_float) :
  SFleb x y = true
  <-> is_nan x = false /\ is_nan y = false /\ key_le (fkey x) (fkey y).
Proof using Type.
  unfold SFleb, SFcompare, key_le.
  destruct x as [[ | ] | [ | ] | | [ | ] m e], y as [[ | ] | [ | ] | | [ | ] m' e'];
    cbn [fkey is_nan fst snd];
    try (split; [intros _; repeat split; lia | reflexivity]);
    try (split; [discriminate | intros (? & ? & ?); first [discriminate | lia]]).
  - rewrite Pos.compare_cont_spec. cbn [Pos.switch_Eq].
    destruct (Z.compare_spec e e') as [E | L | G];
      [destruct (Pos.compare_spec m m') as [E' | L' | G'] | | ]; cbn [CompOpp];
      split; try discriminate; try (intros _; repeat split; lia);
      try reflexivity; intros (_ & _ & H); lia.
  - rewrite Pos.compare_cont_spec. cbn [Pos.switch_Eq].
    destruct (Z.compare_spec e e') as [E | L | G];
      [destruct (Pos.compare_spec m m') as [E' | L' | G'] | | ];
      split; try discriminate; try (intros _; repeat split; lia);
      try reflexivity; intros (_ & _ & H); lia.
Qed.

Lemma SFltb_key (x y : spec_float) :
  SFltb x y = true
  <-> is_nan x = false /\ is_nan y = false /\ key_lt (fkey x) (fkey y).
Proof using Type.
  unfold SFltb, SFcompare, key_lt.
  destruct x as [[ | ] | [ | ] | | [ | ] m e], y as [[ | ] | [ | ] | | [ | ] m' e'];
    cbn [fkey is_nan fst snd];
    try (split; [intros _; repeat split; lia | reflexivity]);
    try (split; [discriminate | intros (? & ? & ?); first [discriminate | lia]]).
  - rewrite Pos.compare_cont_spec. cbn [Pos.switch_Eq].
    destruct (Z.compare_spec e e') as [E | L | G];
      [destruct (Pos.compare_spec m m') as [E' | L' | G'] | | ]; cbn [CompOpp];
      split; try discriminate; try (intros _; repeat split; lia);
      try reflexivity; intros (_ & _ & H); lia.
  - rewrite Pos.compare_cont_spec. cbn [Pos.switch_Eq].
    destruct (Z.compare_spec e e') as [E | L | G];
      [destruct (Pos.compare_spec m m') as [E' | L' | G'] | | ];
      split; try discriminate; try (intros _; repeat split; lia);
      try reflexivity; intros (_ & _ & H); lia.
Qed.

Lemma SFeqb_key (x y : spec_float) :
  SFeqb x y = true
  <-> is_nan x = false /\ is_nan y = false /\ fkey x = fkey y.
Proof using Type.
  unfold SFeqb, SFcompare.
  destruct x as [[ | ] | [ | ] | | [ | ] m e], y as [[ | ] | [ | ] | | [ | ] m' e'];
    cbn [fkey is_nan];
    try (split; [intros _; repeat split; reflexivity | reflexivity]);
    try (split; [discriminate | intros (? & ? & ?); discriminate]).
  - rewrite Pos.compare_cont_spec. cbn [Pos.switch_Eq].
    destruct (Z.compare_spec e e') as [E | L | G];
      [destruct (Pos.compare_spec m m') as [E' | L' | G'] | | ]; cbn [CompOpp];
      split; try discriminate; try (intros _; repeat split; congruence);
      try reflexivity; intros (_ & _ & [= H1 H2]); lia.
  - rewrite Pos.compare_cont_spec. cbn [Pos.switch_Eq].
    destruct (Z.compare_spec e e') as [E | L | G];
      [destruct (Pos.compare_spec m m') as [E' | L' | G'] | | ];
      split; try discriminate; try (intros _; repeat split; congruence);
      try reflexivity; intros (_ & _ & [= H1 H2]); lia.
Qed.

(** What is exceeded by [x] is exceeded by everything greater. *)
Lemma SFleb_SFltb_trans (x y z : spec_float) :
  SFleb x y = true -> SFltb y z = true -> SFltb x z = true.
Proof using Type.
  rewrite SFleb_key, !SFltb_key. unfold key_le, key_lt.
  intros (? & ? & ?) (? & ? & ?). repeat split; try done. lia.
Qed.

Lemma SFleb_trans (x y z : spec_float) :
  SFleb x y = true -> SFleb y z = true -> SFleb x z = true.
Proof using Type.
  rewrite !SFleb_key. unfold key_le.
  intros (? & ? & ?) (? & ? & ?). repeat split; try done. lia.
Qed.

Lemma SFleb_not_SFltb (x y : spec_float) :
  SFleb x y = true -> SFltb y x = false.
Proof using Type.
  intros Hle. destruct (SFltb y x) eqn:Hlt; [exfalso | reflexivity].
  apply SFleb_key in Hle as (_ & _ & Hle).
  apply SFltb_key in Hlt as (_ & _ & Hlt).
  unfold key_le, key_lt in *. lia.
Qed.

Lemma SFleb_refl (x : spec_float) : is_nan x = false -> SFleb x x = true.
Proof using Type. intros Hn. apply SFleb_key. unfold key_le. repeat split; try done. lia. Qed.

Lemma nonneg_key (x : spec_float) :
  nonneg x = true <-> is_nan x = false /\ 0 <= (fkey x).1.1.
Proof using Type.
  destruct x as [[ | ] | [ | ] | | [ | ] m e]; cbn; split;
    try discriminate; try (intros [? ?]; first [discriminate | lia]);
    try (intros _; split; [reflexivity | lia]).
Qed.

(** *** Multiplication *)

Lemma dyadic_mul (m m' e e' : Z) :
  (dyadic (m * m') (e + e') == dyadic m e * dyadic m' e')%Q.
Proof using Type.
  unfold dyadic. rewrite inject_Z_mult, Qpower_plus by lra. ring.
Qed.

(** The product of two canonical mantissas is not rounded below its
    exponent. *)
Lemma mul_pre (m m' : positive) (e e' : Z) :
  bounded prec emax m e = true -> bounded prec emax m' e' = true ->
  e + e' <= fexp (Zpos (digits2_pos (m * m')) + (e + e')).
Proof using Hprec Hemax.
  intros Hb Hb'.
  apply bounded_digits in Hb as (Hd & Hmin & Hc).
  apply bounded_digits in Hb' as (Hd' & Hmin' & Hc').
  pose proof emin_neg as Hneg.
  pose proof (digits2_pos_bounds m) as [Hlo _].
  pose proof (digits2_pos_bounds m') as [Hlo' _].
  pose proof (digits2_pos_bounds (m * m')) as [_ Hhi].
  set (d := Zpos (digits2_pos m)) in *. set (d' := Zpos (digits2_pos m')) in *.
  set (D := Zpos (digits2_pos (m * m'))) in *.
  assert (0 < d) by (unfold d; lia). assert (0 < d') by (unfold d'; lia).
  assert (d + d' - 1 <= D) as HD.
  { assert (2 ^ (d - 1 + (d' - 1)) < 2 ^ D) as Hlt.
    { rewrite Z.pow_add_r by lia. rewrite Pos2Z.inj_mul in Hhi.
      assert (0 < 2 ^ (d - 1)) by (apply Z.pow_pos_nonneg; lia).
      assert (0 < 2 ^ (d' - 1)) by (apply Z.pow_pos_nonneg; lia). nia. }
    apply Z.pow_lt_mono_r_iff in Hlt; [lia | lia | unfold D; lia]. }
  unfold SpecFloat.fexp. lia.
Qed.

Lemma SFmul_finite (s s' : bool) (m m' : positive) (e e' : Z) :
  SFmul prec emax (S754_finite s m e) (S754_finite s' m' e')
  = binary_round_aux prec emax (xorb s s') (Zpos (m * m')) (e + e') loc_Exact.
Proof using Hprec Hemax. reflexivity. Qed.

Lemma SFleb_finite_value (m m' : positive) (e e' : Z) :
  bounded prec emax m e = true -> bounded prec emax m' e' = true ->
  (SFleb (S754_finite false m e) (S754_finite false m' e') = true
   <-> (dyadic (Zpos m) e <= dyadic (Zpos m') e')%Q).
Proof using Hprec Hemax.
  intros Hb Hb'. rewrite SFleb_finite, <- value_le_Q. split.
  - by apply bounded_value_le.
  - by apply value_le_bounded.
Qed.

(** Multiplication by a positive number is monotone on the non-negative
    numbers. *)
Lemma SFmul_mono (x y : spec_float) (m : positive) (e : Z) :
  valid_binary prec emax x = true -> valid_binary prec emax y = true ->
  bounded prec emax m e = true ->
  nonneg x = true -> SFleb x y = true ->
  SFleb (SFmul prec emax x (S754_finite false m e))
        (SFmul prec emax y (S754_finite false m e)) = true.
Proof using Hprec Hemax.
  intros Hvx Hvy Hb Hx Hle.
  assert (nonneg y = true) as Hy.
  { apply nonneg_key. apply nonneg_key in Hx as [_ Hx].
    apply SFleb_key in Hle as (_ & Hn & Hle). split; [exact Hn | ].
    unfold key_le in Hle. lia. }
  destruct x as [sx | [ | ] | | [ | ] mx ex], y as [sy | [ | ] | | [ | ] my ey];
    try discriminate; try reflexivity.
  - rewrite SFmul_finite. cbn [SFmul xorb]. cbn [valid_binary] in Hvy.
    apply binary_round_aux_nonneg. by apply mul_pre.
  - rewrite SFmul_finite. cbn [SFmul xorb]. cbn [valid_binary] in Hvx.
    destruct (binary_round_aux_spec false (mx * m) (ex + e) (mul_pre _ _ _ _ Hvx Hb))
      as (m1 & _ & _ & _ & ->).
    unfold encode.
    repeat match goal with
           | |- context [if ?c then _ else _] => destruct c
           end; reflexivity.
  - rewrite !SFmul_finite. cbn [xorb]. cbn [valid_binary] in Hvx, Hvy.
    apply binary_round_aux_mono; [by apply mul_pre | by apply mul_pre | ].
    apply value_le_Q. rewrite !Pos2Z.inj_mul, !dyadic_mul.
    apply Qmult_le_compat_r; [by apply SFleb_finite_value | ].
    apply Qlt_le_weak, value_pos. lia.
Qed.

(** *** Exact values *)

Lemma float_value_finite (s : bool) (m : positive) (e : Z) :
  float_value (S754_finite s m e) = dyadic (cond_Zopp s (Zpos m)) e.
Proof using Type. reflexivity. Qed.

Lemma dyadic_opp (m e : Z) : (dyadic (- m) e == - dyadic m e)%Q.
Proof using Type. unfold dyadic. rewrite inject_Z_opp. ring. Qed.

Lemma dyadic_sub (m m' e : Z) : (dyadic (m - m') e == dyadic m e - dyadic m' e)%Q.
Proof using Type. unfold dyadic, Z.sub. rewrite inject_Z_plus, inject_Z_opp. ring. Qed.

Lemma dyadic_abs (m e : Z) : (dyadic (Z.abs m) e == Qabs (dyadic m e))%Q.
Proof using Type.
  assert (0 < 2 ^ e)%Q as Hp by (apply Qpower_0_lt; lra).
  unfold dyadic. rewrite Qabs_Qmult, (Qabs_pos (2 ^ e)) by lra.
  apply Qmult_comp; [ | reflexivity].
  destruct m as [ | p | p]; reflexivity.
Qed.

Lemma dyadic_cond_Zopp (s : bool) (m e : Z) :
  (Qabs (dyadic (cond_Zopp s m) e) == Qabs (dyadic m e))%Q.
Proof using Type.
  destruct s; cbn [cond_Zopp]; [ | reflexivity].
  by rewrite dyadic_opp, Qabs_opp.
Qed.

Lemma dyadic_zero (m e : Z) : (dyadic m e == 0)%Q <-> m = 0.
Proof using Type.
  assert (0 < 2 ^ e)%Q as Hp by (apply Qpower_0_lt; lra).
  unfold dyadic. split.
  - intros E. destruct (Z.eq_dec m 0) as [E0 | N0]; [exact E0 | exfalso].
    apply Qmult_integral in E as [E | E]; [ | lra].
    unfold Qeq in E. cbn in E. lia.
  - intros ->. change (inject_Z 0) with 0%Q. ring.
Qed.

(** *** Subtraction *)

Lemma SFabs_binary_round_aux (s : bool) (m e : Z) (l : location) :
  SFabs (binary_round_aux prec emax s m e l) = binary_round_aux prec emax false m e l.
Proof using Hprec Hemax.
  unfold binary_round_aux.
  destruct (shr_fexp prec emax m e l) as [mrs' e'].
  destruct (shr_fexp prec emax _ e' loc_Exact) as [mrs'' e''].
  destruct (shr_m mrs''); [reflexivity | | reflexivity].
  by destruct (e'' <=? emax - prec).
Qed.

Lemma SFabs_binary_round (s : bool) (m : positive) (e : Z) :
  SFabs (binary_round prec emax s m e) = binary_round prec emax false m e.
Proof using Hprec Hemax.
  unfold binary_round. destruct (shl_align m e _) as [mz ez].
  apply SFabs_binary_round_aux.
Qed.

(** The difference of two finite numbers: zero when they are equal, else
    their exact difference, rounded. *)
Lemma SFabs_SFsub_finite (sx sy : bool) (mx my : positive) (ex ey : Z) :
  exists D : Z,
    (dyadic D (Z.min ex ey)
     == float_value (S754_finite sx mx ex) - float_value (S754_finite sy my ey))%Q
    /\ SFabs (SFsub prec emax (S754_finite sx mx ex) (S754_finite sy my ey))
       = match D with
         | Z0 => S754_zero false
         | Zpos p => binary_round prec emax false p (Z.min ex ey)
         | Zneg p => binary_round prec emax false p (Z.min ex ey)
         end.
Proof using Hprec Hemax.
  destruct (shl_align_spec mx ex (Z.min ex ey)) as [_ Hx].
  destruct (shl_align_spec my ey (Z.min ex ey)) as [_ Hy].
  rewrite (Z.min_r ex (Z.min ex ey)) in Hx by lia.
  rewrite (Z.min_r ey (Z.min ex ey)) in Hy by lia.
  set (ez := Z.min ex ey) in *.
  set (D := cond_Zopp sx (Zpos (shl_align mx ex ez).1)
            - cond_Zopp sy (Zpos (shl_align my ey ez).1)).
  exists D. split.
  - unfold D. rewrite dyadic_sub, Hx, Hy, !float_value_finite.
    assert (forall (s : bool) (m e : Z),
               e >= ez ->
               (dyadic (cond_Zopp s (m * 2 ^ (e - ez))) ez
                == dyadic (cond_Zopp s m) e)%Q) as Hs.
    { intros s m e He.
      assert (cond_Zopp s (m * 2 ^ (e - ez)) = cond_Zopp s m * 2 ^ (e - ez)) as ->
        by (destruct s; cbn [cond_Zopp]; lia).
      rewrite <- (value_shift (cond_Zopp s m) e (e - ez)) by lia.
      by replace (e - (e - ez)) with ez by lia. }
    rewrite !Hs by (unfold ez; lia). reflexivity.
  - cbn [SFsub]. fold ez. fold D. unfold binary_normalize.
    destruct D as [ | p | p]; [reflexivity | | ]; apply SFabs_binary_round.
Qed.

(** *** Canonical representations *)

(** Two values of the format that stand for one number are equal. *)
Lemma valid_value_eq (x y : spec_float) :
  valid_binary prec emax x = true -> valid_binary prec emax y = true ->
  finite x = true -> finite y = true ->
  (float_value x == float_value y)%Q -> SFeqb x y = true.
Proof using Hprec Hemax.
  intros Hvx Hvy Hfx Hfy Hv.
  destruct x as [sx | | | sx mx ex], y as [sy | | | sy my ey]; try discriminate.
  - reflexivity.
  - exfalso. rewrite float_value_finite in Hv. symmetry in Hv.
    apply dyadic_zero in Hv. destruct sy; discriminate.
  - exfalso. rewrite float_value_finite in Hv.
    apply dyadic_zero in Hv. destruct sx; discriminate.
  - cbn [valid_binary] in Hvx, Hvy. rewrite !float_value_finite in Hv.
    pose proof (value_pos (Zpos mx) ex ltac:(lia)) as Hpx.
    pose proof (value_pos (Zpos my) ey ltac:(lia)) as Hpy.
    assert (sx = sy) as ->.
    { destruct sx, sy; cbn [cond_Zopp] in Hv; try reflexivity; exfalso.
      - change (Z.neg mx) with (- Zpos mx) in Hv. rewrite dyadic_opp in Hv. lra.
      - change (Z.neg my) with (- Zpos my) in Hv. rewrite dyadic_opp in Hv. lra. }
    assert (dyadic (Zpos mx) ex == dyadic (Zpos my) ey)%Q as Hv'.
    { destruct sy; cbn [cond_Zopp] in Hv; [ | exact Hv].
      change (Z.neg mx) with (- Zpos mx) in Hv.
      change (Z.neg my) with (- Zpos my) in Hv.
      rewrite !dyadic_opp in Hv. lra. }
    assert (ex = ey /\ mx = my) as [-> ->].
    { assert (value_le (Zpos mx) ex (Zpos my) ey) as H1 by (apply value_le_Q; lra).
      assert (value_le (Zpos my) ey (Zpos mx) ex) as H2 by (apply value_le_Q; lra).
      apply value_le_bounded in H1; [ | done | done].
      apply value_le_bounded in H2; [ | done | done]. lia. }
    apply SFeqb_key. by destruct sy.
Qed.

Lemma SFeqb_value (x y : spec_float) :
  SFeqb x y = true -> finite x = true -> finite y = true ->
  (float_value x == float_value y)%Q.
Proof using Type.
  intros E Hfx Hfy. apply SFeqb_key in E as (_ & _ & E).
  destruct x as [sx | | | sx mx ex], y as [sy | | | sy my ey]; try discriminate;
    try reflexivity.
  - destruct sy; discriminate.
  - destruct sx; discriminate.
  - destruct sx, sy; cbn [fkey] in E; try discriminate;
      injection E as E1 E2; assert (ex = ey) as -> by lia;
      assert (mx = my) as -> by lia; reflexivity.
Qed.

(** A value of the format is not changed by rounding. *)
Lemma binary_round_id (s : bool) (m : positive) (e : Z) :
  bounded prec emax m e = true ->
  binary_round prec emax s m e = S754_finite s m e.
Proof using Hprec Hemax.
  intros Hb. pose proof Hb as Hb'. apply bounded_spec in Hb' as [He Hmax].
  apply bounded_digits in Hb as (Hd & _ & _).
  unfold binary_round, shl_align. rewrite <- He, Z.sub_diag.
  assert (e <= fexp (Zpos (digits2_pos m) + e)) as Hpre by lia.
  destruct (binary_round_aux_spec s m e Hpre) as (m1 & [Hr _] & _ & _ & ->).
  rewrite <- He, Z.sub_diag in Hr. change (2 ^ 0) with 1 in Hr.
  assert (m1 = Zpos m) as -> by lia.
  pose proof (digits2_pos_bounds m) as [_ Hhi].
  assert (2 ^ Zpos (digits2_pos m) <= 2 ^ prec) by (apply Z.pow_le_mono_r; lia).
  unfold encode. rewrite <- He.
  destruct (Z.eqb_spec (Zpos m) 0); [lia | ].
  destruct (Z.eqb_spec (Zpos m) (2 ^ prec)); [lia | ].
  destruct (Z.leb_spec e (emax - prec)); [reflexivity | lia].
Qed.

(** *** Adding zero *)

Lemma SFadd_fzero_key (x : spec_float) :
  fkey (SFadd prec emax fzero x) = fkey x
  /\ is_nan (SFadd prec emax fzero x) = is_nan x.
Proof using Hprec Hemax. by destruct x as [[ | ] | [ | ] | | [ | ] m e]. Qed.

Lemma SFleb_SFadd_fzero (x y : spec_float) :
  SFleb x (SFadd prec emax fzero y) = SFleb x y.
Proof using Hprec Hemax.
  apply eq_true_iff_eq. rewrite !SFleb_key.
  destruct (SFadd_fzero_key y) as [-> ->]. reflexivity.
Qed.

Lemma SFltb_SFadd_fzero (x y : spec_float) :
  SFltb (SFadd prec emax fzero y) x = SFltb y x.
Proof using Hprec Hemax.
  apply eq_true_iff_eq. rewrite !SFltb_key.
  destruct (SFadd_fzero_key y) as [-> ->]. reflexivity.
Qed.

(** *** Within the tolerance in exact arithmetic *)

Lemma rounded_le_product (p : positive) (ez : Z) (t y : spec_float) :
  valid_binary prec emax t = true -> valid_binary prec emax y = true ->
  finite t = true -> finite y = true -> nonneg t = true ->
  (dyadic (Zpos p) ez <= float_value t * Qabs (float_value y))%Q ->
  SFleb (binary_round prec emax false p ez) (SFmul prec emax t (SFabs y)) = true.
Proof using Hprec Hemax.
  intros Hvt Hvy Hft Hfy Ht Hle.
  pose proof (value_pos (Zpos p) ez ltac:(lia)) as Hpos.
  destruct t as [st | | | [ | ] mt et]; try discriminate.
  { exfalso. cbn [float_value] in Hle. lra. }
  destruct y as [sy | | | sy my ey]; try discriminate.
  { exfalso. cbn [float_value] in Hle. change (Qabs 0) with 0%Q in Hle. lra. }
  cbn [SFabs valid_binary] in *. rewrite SFmul_finite. cbn [xorb].
  destruct (binary_round_spec false p ez) as (n & f & -> & Hpre & Hv).
  apply binary_round_aux_mono; [exact Hpre | by apply mul_pre | ].
  apply value_le_Q. rewrite Hv, Pos2Z.inj_mul, dyadic_mul.
  rewrite !float_value_finite, dyadic_cond_Zopp in Hle. cbn [cond_Zopp] in Hle.
  rewrite (Qabs_pos (dyadic (Zpos my) ey)) in Hle
    by (apply Qlt_le_weak, value_pos; lia).
  exact Hle.
Qed.

(** Two finite numbers within the relative tolerance [t] in exact
    arithmetic are within it in floating-point arithmetic. *)
Lemma within_tolerance (x y t : spec_float) :
  valid_binary prec emax x = true -> valid_binary prec emax y = true ->
  valid_binary prec emax t = true ->
  finite x = true -> finite y = true -> finite t = true -> nonneg t = true ->
  (Qabs (float_value x - float_value y) <= float_value t * Qabs (float_value y))%Q ->
  SFleb (SFabs (SFsub prec emax x y))
        (SFadd prec emax fzero (SFmul prec emax t (SFabs y))) = true.
Proof using Hprec Hemax.
  intros Hvx Hvy Hvt Hfx Hfy Hft Ht Hle. rewrite SFleb_SFadd_fzero.
  assert (SFleb (S754_zero false) (SFmul prec emax t (SFabs y)) = true) as Hnn.
  { destruct t as [st | | | [ | ] mt et]; try discriminate;
      destruct y as [sy | | | sy my ey]; try discriminate;
      cbn [SFabs SFmul xorb]; try reflexivity; try (by destruct st).
    cbn [valid_binary] in *. apply binary_round_aux_nonneg. by apply mul_pre. }
  destruct x as [sx | | | sx mx ex]; try discriminate;
    destruct y as [sy | | | sy my ey]; try discriminate.
  - assert (SFabs (SFsub prec emax (S754_zero sx) (S754_zero sy)) = S754_zero false)
      as -> by (by destruct sx, sy).
    exact Hnn.
  - cbn [SFsub].
    change (SFabs (S754_finite (negb sy) my ey)) with (S754_finite false my ey).
    cbn [valid_binary] in Hvy.
    rewrite <- (binary_round_id false my ey Hvy).
    apply rounded_le_product; try done.
    change (float_value (S754_zero sx)) with 0%Q in Hle.
    rewrite float_value_finite in Hle.
    assert (Qabs (0 - dyadic (cond_Zopp sy (Zpos my)) ey)
            == dyadic (Zpos my) ey)%Q as E.
    { assert (0 - dyadic (cond_Zopp sy (Zpos my)) ey
              == - dyadic (cond_Zopp sy (Zpos my)) ey)%Q as -> by ring.
      rewrite Qabs_opp, dyadic_cond_Zopp.
      apply Qabs_pos, Qlt_le_weak, value_pos. lia. }
    rewrite E in Hle. by rewrite float_value_finite.
  - exfalso. change (float_value (S754_zero sy)) with 0%Q in Hle.
    change (Qabs 0) with 0%Q in Hle. rewrite float_value_finite in Hle.
    assert (dyadic (cond_Zopp sx (Zpos mx)) ex - 0
            == dyadic (cond_Zopp sx (Zpos mx)) ex)%Q as E by ring.
    rewrite E, dyadic_cond_Zopp in Hle.
    pose proof (value_pos (Zpos mx) ex ltac:(lia)) as Hpos.
    rewrite Qabs_pos in Hle by lra. lra.
  - destruct (SFabs_SFsub_finite sx sy mx my ex ey) as (D & HD & ->).
    rewrite <- HD, <- dyadic_abs in Hle.
    destruct D as [ | p | p]; [exact Hnn | | ];
      apply rounded_le_product; done.
Qed.

(** *** Equal numbers *)

(** The difference of two equal numbers is a zero, or NaN for two
    infinities. *)
Lemma SFsub_equal (x y : spec_float) :
  SFeqb x y = true ->
  fkey (SFabs (SFsub prec emax x y)) = (0, 0, 0).
Proof using Hprec Hemax.
  intros E. apply SFeqb_key in E as (Hx & Hy & E).
  destruct x as [sx | [ | ] | | sx mx ex], y as [sy | [ | ] | | sy my ey];
    try discriminate; try (by destruct sx, sy); try reflexivity;
    try (destruct sy; discriminate); try (destruct sx; discriminate).
  destruct (SFabs_SFsub_finite sx sy mx my ex ey) as (D & HD & ->).
  assert (sx = sy /\ ex = ey /\ mx = my) as (-> & -> & ->).
  { destruct sx, sy; cbn [fkey] in E; try discriminate;
      injection E as E1 E2; repeat split; lia. }
  assert (D = 0) as ->; [ | reflexivity].
  apply (dyadic_zero D (Z.min ey ey)). rewrite HD. ring.
Qed.

(** *** Integers *)

(** The float of an integer other than 0 is not zero. *)
Lemma binary_normalize_nonzero (z : Z) :
  z <> 0 -> SFeqb (binary_normalize prec emax z 0 false) fzero = false.
Proof using Hprec Hemax.
  intros Hz.
  assert (forall (s : bool) (p : positive),
             SFeqb (binary_round prec emax s p 0) fzero = false) as Hp.
  { intros s p.
    destruct (binary_round_spec s p 0) as (n & f & -> & Hpre & Hv).
    destruct (binary_round_aux_spec s n f Hpre) as (m1 & _ & Hb & Hn & ->).
    assert (2 ^ (prec - 1) <= m1) as Hm1.
    { apply Hn.
      assert (1 <= Zpos (digits2_pos n) + f); [ | unfold SpecFloat.emin; lia].
      assert (dyadic 1 0 <= dyadic (Zpos n) f)%Q as Hle.
      { rewrite Hv. apply value_le_Q. unfold value_le.
        rewrite Z.min_id, Z.sub_diag. lia. }
      apply value_le_Q, (value_le_digits 1 n 0 f) in Hle. cbn in Hle. lia. }
    assert (0 < 2 ^ (prec - 1)) by (apply Z.pow_pos_nonneg; lia).
    unfold encode. destruct (Z.eqb_spec m1 0); [lia | ].
    repeat match goal with
           | |- context [if ?c then _ else _] => destruct c
           end; by destruct s. }
  destruct z as [ | p | p]; [done | apply Hp | apply Hp].
Qed.

End Rounding.

(** *** The two formats *)

Lemma prec_gt_1 (k : ftype) : 1 < prec k.
Proof. by destruct k. Qed.

Lemma prec_lt_emax (k : ftype) : prec k < emax k.
Proof. by destruct k. Qed.

Lemma binary_round_aux_sign (p e : Z) (m : Z) (x : Z) (l : location) :
  0 <= (fkey (binary_round_aux p e false m x l)).1.1.
Proof.
  unfold binary_round_aux.
  destruct (shr_fexp p e m x l) as [mrs' e'].
  destruct (shr_fexp p e _ e' loc_Exact) as [mrs'' e''].
  destruct (shr_m mrs''); cbn; try lia. destruct (e'' <=? e - p); cbn; lia.
Qed.

Lemma binary_round_sign (p e : Z) (m : positive) (x : Z) :
  0 <= (fkey (binary_round p e false m x)).1.1.
Proof.
  unfold binary_round. destruct (shl_align m x _) as [mz ez].
  apply binary_round_aux_sign.
Qed.

(** Conversion keeps values of a format in the format it converts to, and
    keeps their order. *)
Lemma fconv_valid (k : ftype) (x : float) : valid k (fconv k x) = true.
Proof.
  destruct x as [s | s | | s m e]; try reflexivity.
  apply binary_round_valid; [apply prec_gt_1 | apply prec_lt_emax].
Qed.

Lemma convert_valid (k0 k : ftype) (x : float) :
  valid k0 x = true -> valid k (convert k0 k x) = true.
Proof. intros Hv. destruct k0, k; cbn [convert]; try done; apply fconv_valid. Qed.

Lemma fconv_sign (k : ftype) (x : float) :
  0 <= (fkey x).1.1 -> 0 <= (fkey (fconv k x)).1.1.
Proof.
  destruct x as [s | s | | [ | ] m e]; cbn [fconv]; try done.
  intros _. apply binary_round_sign.
Qed.

Lemma convert_sign (k0 k : ftype) (x : float) :
  0 <= (fkey x).1.1 -> 0 <= (fkey (convert k0 k x)).1.1.
Proof. destruct k0, k; cbn [convert]; try done; apply fconv_sign. Qed.

Lemma fconv_nan (k : ftype) (x : float) : is_nan (fconv k x) = true -> is_nan x = true.
Proof.
  destruct x as [s | s | | s m e]; try done. cbn [fconv]. intros Hn. exfalso.
  pose proof (binary_round_spec (prec k) (emax k) (prec_gt_1 k) (prec_lt_emax k) s m e)
    as (n & f & E & Hpre & _).
  rewrite E in Hn.
  destruct (binary_round_aux_spec (prec k) (emax k) (prec_gt_1 k) (prec_lt_emax k)
              s n f Hpre) as (m1 & _ & _ & _ & E').
  rewrite E' in Hn. unfold encode in Hn.
  repeat match type of Hn with
         | context [if ?c then _ else _] => destruct c
         end; discriminate.
Qed.

Lemma fconv_mono (k0 k : ftype) (x y : float) :
  valid k0 x = true -> valid k0 y = true -> nonneg x = true ->
  SFleb x y = true -> SFleb (fconv k x) (fconv k y) = true.
Proof.
  intros Hvx Hvy Hx Hle.
  pose proof (prec_gt_1 k) as Hp. pose proof (prec_lt_emax k) as He.
  destruct x as [sx | [ | ] | | [ | ] mx ex], y as [sy | [ | ] | | [ | ] my ey];
    try discriminate; try reflexivity; cbn [fconv].
  - by apply binary_round_nonneg.
  - destruct (binary_round_spec _ _ Hp He false mx ex) as (n & f & -> & Hpre & _).
    destruct (binary_round_aux_spec _ _ Hp He false n f Hpre) as (m1 & _ & _ & _ & ->).
    unfold encode.
    repeat match goal with
           | |- context [if ?c then _ else _] => destruct c
           end; reflexivity.
  - apply binary_round_mono; [exact Hp | exact He | ].
    by apply (SFleb_finite_value (prec k0) (emax k0) (prec_gt_1 k0) (prec_lt_emax k0)).
Qed.

Lemma convert_mono (k0 k : ftype) (x y : float) :
  valid k0 x = true -> valid k0 y = true -> nonneg x = true ->
  SFleb x y = true -> SFleb (convert k0 k x) (convert k0 k y) = true.
Proof.
  intros Hvx Hvy Hx Hle.
  destruct k0, k; cbn [convert]; try done.
  - by apply (fconv_mono binary32 _ x y).
  - by apply (fconv_mono binary64 _ x y).
Qed.

Lemma convert_fzero (k0 k : ftype) : convert k0 k fzero = fzero.
Proof. by destruct k0, k. Qed.

Lemma convert_id (k : ftype) (x : float) : convert k k x = x.
Proof. by destruct k. Qed.

(** [float(n)] is zero for [n = 0] only. *)
Lemma float_of_nat_nonzero (n : nat) :
  n <> 0%nat -> SFeqb (float_of_nat n) fzero = false.
Proof.
  intros Hn. unfold float_of_nat, float_of_Z.
  apply binary_normalize_nonzero; [by apply prec_gt_1 | by apply prec_lt_emax | lia].
Qed.

(** *** Floats and integers *)

Lemma float_eq_int_spec (x : float) (z : Z) :
  float_eq_int x z = true
  <-> finite x = true /\ (float_value x == inject_Z z)%Q.
Proof.
  destruct x as [s | s | | s m e]; cbn [float_eq_int finite float_value].
  - rewrite Z.eqb_eq. split.
    + intros ->. by split.
    + intros [_ E]. change 0%Q with (inject_Z 0) in E.
      symmetry. by apply inject_Z_injective.
  - split; [discriminate | by intros [? _]].
  - split; [discriminate | by intros [? _]].
  - assert (forall k, cond_Zopp s (Zpos m * k) = cond_Zopp s (Zpos m) * k) as Hc
      by (intros k; destruct s; cbn [cond_Zopp]; lia).
    set (M := cond_Zopp s (Zpos m)) in *.
    destruct (Z.leb_spec 0 e) as [He | He].
    + rewrite Z.eqb_eq, (Hc (2 ^ e)). rewrite <- pow2_Q by lia.
      rewrite <- inject_Z_mult, inject_Z_injective. intuition.
    + assert (0 < 2 ^ (- e)) as Hp by (apply Z.pow_pos_nonneg; lia).
      assert ((inject_Z M * 2 ^ e == inject_Z z)%Q <-> M = z * 2 ^ (- e)) as ->.
      { rewrite <- inject_Z_injective, inject_Z_mult, pow2_Q by lia.
        assert (2 ^ e * 2 ^ (- e) == 1)%Q as Hinv.
        { rewrite <- Qpower_plus by lra. by replace (e + - e) with 0 by lia. }
        assert (0 < 2 ^ (- e))%Q by (apply Qpower_0_lt; lra).
        split; intros E.
        - rewrite <- E. rewrite <- Qmult_assoc, Hinv. ring.
        - rewrite E. rewrite <- Qmult_assoc, (Qmult_comm (2 ^ (- e))), Hinv. ring. }
      rewrite andb_true_iff, !Z.eqb_eq. split.
      * intros [Hmod Hq]. split; [reflexivity | ].
        apply Z_div_exact_full_2 in Hmod; [ | lia].
        unfold M. revert Hmod Hq. generalize (Zpos m / 2 ^ (- e)) (2 ^ (- e)).
        intros q P Hmod Hq. destruct s; cbn [cond_Zopp] in *; nia.
      * intros [_ EM].
        assert (Zpos m = Z.abs z * 2 ^ (- e)) as Em
          by (unfold M in EM; destruct s; cbn [cond_Zopp] in EM; lia).
        split.
        -- rewrite Em. apply Z_mod_mult.
        -- rewrite Em, Z_div_mult by lia.
           unfold M in EM. revert EM Em. generalize (2 ^ (- e)).
           intros P EM Em. destruct s; cbn [cond_Zopp] in *; nia.
Qed.

Local Close Scope Z_scope.

(** ** Scalars *)

Lemma py_eq_spec (a b : pyval) : py_eq a b = true <-> py_equal a b.
Proof.
  split.
  - destruct a as [ | x | x | x | s], b as [ | y | y | y | t];
      cbn [py_eq]; intros E; try discriminate.
    + constructor.
    + apply (py_equal_int _ _ (Z.b2z x)); [reflexivity | ].
      by destruct x, y.
    + apply Z.eqb_eq in E. subst y. by apply (py_equal_int _ _ (Z.b2z x)).
    + apply float_eq_int_spec in E as [Hf Hv].
      by apply (py_equal_int_float _ (Z.b2z x)).
    + apply Z.eqb_eq in E. subst x. by apply (py_equal_int _ _ (Z.b2z y)).
    + apply Z.eqb_eq in E. subst x. by apply (py_equal_int _ _ y).
    + apply float_eq_int_spec in E as [Hf Hv].
      by apply (py_equal_int_float _ x).
    + apply float_eq_int_spec in E as [Hf Hv].
      by apply (py_equal_float_int _ (Z.b2z y)).
    + apply float_eq_int_spec in E as [Hf Hv].
      by apply (py_equal_float_int _ y).
    + by constructor.
    + apply String.eqb_eq in E. subst. constructor.
  - intros E.
    destruct E as [ | s | a b z Ha Hb | x y E | a z x Ha Hf Hv | a z x Ha Hf Hv].
    + reflexivity.
    + cbn. apply String.eqb_refl.
    + destruct a as [ | x | x | x | s], b as [ | y | y | y | t];
        try discriminate; cbn in Ha, Hb; cbn [py_eq];
        injection Ha as <-; injection Hb as Hb.
      * destruct x, y; done.
      * apply Z.eqb_eq. lia.
      * apply Z.eqb_eq. lia.
      * apply Z.eqb_eq. lia.
    + exact E.
    + destruct a as [ | y | y | y | s]; try discriminate; cbn in Ha;
        injection Ha as <-; cbn [py_eq]; by apply float_eq_int_spec.
    + destruct a as [ | y | y | y | s]; try discriminate; cbn in Ha;
        injection Ha as <-; cbn [py_eq]; by apply float_eq_int_spec.
Qed.

Lemma Qle_bool_false (x y : Q) : Qle_bool x y = false <-> (y < x)%Q.
Proof.
  destruct (Qle_bool x y) eqn:E.
  - apply Qle_bool_iff in E. split; [discriminate | intros L].
    exfalso. apply (Qlt_not_le _ _ L E).
  - split; [intros _ | reflexivity].
    apply Qnot_le_lt. intros L. apply Qle_bool_iff in L. congruence.
Qed.

(** [np.allclose] on two Python floats. *)
Lemma isclose_float64 `{External} (t x y : float) :
  isclose t fzero (float64 x) (float64 y)
  = if isinf x || isinf y then isinf x && isinf y && SFeqb x y
    else SFleb (SFabs (fsub binary64 x y))
               (fadd binary64 fzero (fmul binary64 t (SFabs y))).
Proof. reflexivity. Qed.

Lemma diff_values_close64 `{External} (x y t : float) :
  diff_values (PyFloat x) (PyFloat y) t = true <-> ~ close64 t x y.
Proof.
  unfold diff_values, np_allclose. cbn [forallb combine fst snd].
  rewrite isclose_float64, andb_true_r, negb_true_iff. unfold close64.
  destruct x as [sx | sx | | sx mx ex], y as [sy | sy | | sy my ey];
    cbn [isinf orb andb];
    try (symmetry; apply not_true_iff_false);
    try (split; [intros _ Hf; exact Hf | intros _; reflexivity]).
  destruct sx, sy; cbn; split; try done; intros Hne; by exfalso.
Qed.

(** C4 (amended). [diff_values] on two floats is the negation of
    [np.allclose] with [atol = 0.0]: an infinity is close to itself only, and
    any other pair differs iff [|a-b| <= 0.0 + tolerance*|b|] fails, every
    operation being carried out in binary64.  When it reports a difference
    between two finite floats for a finite tolerance that is not negative,
    [|a-b|] exceeds [tolerance*|b|] in exact arithmetic too.  Any other
    pair of values differs iff the two are not exactly equal.  The function
    is total: a pair of values of unrelated types is simply unequal, nothing
    is raised. *)
Theorem diff_values_spec `{External} :
  (forall x y t : float,
      diff_values (PyFloat x) (PyFloat y) t = true <-> ~ close64 t x y)
  /\ (forall x y t : float,
         valid binary64 x = true -> valid binary64 y = true ->
         valid binary64 t = true ->
         finite x = true -> finite y = true -> finite t = true ->
         nonneg t = true ->
         diff_values (PyFloat x) (PyFloat y) t = true ->
         (float_value t * Qabs (float_value y)
          < Qabs (float_value x - float_value y))%Q)
  /\ (forall (a b : pyval) (t : float),
         is_float a && is_float b = false ->
         (diff_values a b t = true <-> ~ py_equal a b)).
Proof.
  split; [ | split].
  - intros x y t. apply diff_values_close64.
  - intros x y t Hvx Hvy Hvt Hfx Hfy Hft Ht Hd.
    apply Qnot_le_lt. intros Hle.
    apply diff_values_close64 in Hd. apply Hd. unfold close64.
    pose proof (within_tolerance (prec binary64) (emax binary64)
                  (prec_gt_1 binary64) (prec_lt_emax binary64)
                  x y t Hvx Hvy Hvt Hfx Hfy Hft Ht Hle) as Hw.
    destruct x as [sx | | | sx mx ex]; try discriminate;
      destruct y as [sy | | | sy my ey]; try discriminate; exact Hw.
  - intros a b t Hf.
    assert (diff_values a b t = py_ne a b) as ->
      by (destruct a, b; try reflexivity; discriminate).
    unfold py_ne. rewrite negb_true_iff, <- py_eq_spec.
    destruct (py_eq a b); split; congruence.
Qed.

Lemma diff_values_spec_witness :
  (@diff_values sample_external
     (PyFloat (float_of_Z binary64 1)) (PyFloat (float_of_Z binary64 2))
     (ratio 1 4) = true
   <-> ~ close64 (ratio 1 4) (float_of_Z binary64 1) (float_of_Z binary64 2))
  /\ (float_value (ratio 1 4) * Qabs (float_value (float_of_Z binary64 2))
      < Qabs (float_value (float_of_Z binary64 1)
              - float_value (float_of_Z binary64 2)))%Q
  /\ (@diff_values sample_external (PyInt 1) (PyStr "1") fzero = true
      <-> ~ py_equal (PyInt 1) (PyStr "1")).
Proof.
  destruct (@diff_values_spec sample_external) as (H1 & H2 & H3).
  split; [apply H1 | split].
  - apply H2; reflexivity.
  - apply H3. reflexivity.
Defined.

(** C4 as stated fails: the threshold [tolerance*|b|] is rounded.  For
    [a = 4.0], [b = 3.0] and the tolerance [1.0/3.0] (the binary64 value
    just below one third) [|a-b| = 1] exceeds [tolerance*|b|] in exact
    arithmetic, but the binary64 product is [1.0] and [diff_values] reports
    no difference. *)
Lemma diff_values_rounds_the_threshold :
  ~ (forall (E : External) (x y t : float),
        valid binary64 x = true -> valid binary64 y = true ->
        valid binary64 t = true ->
        finite x = true -> finite y = true -> finite t = true ->
        nonneg t = true ->
        (diff_values (PyFloat x) (PyFloat y) t = true
         <-> (float_value t * Qabs (float_value y)
              < Qabs (float_value x - float_value y))%Q)).
Proof.
  intros Hclaim.
  destruct (Hclaim sample_external (float_of_Z binary64 4)
              (float_of_Z binary64 3) (ratio 1 3)) as [_ Hd];
    try reflexivity.
  assert (@diff_values sample_external (PyFloat (float_of_Z binary64 4))
            (PyFloat (float_of_Z binary64 3)) (ratio 1 3) = true) as E
    by (apply Hd; reflexivity).
  vm_compute in E. discriminate E.
Qed.

(** ** [identical] *)

Lemma identical_spec {T : Type} `{BaseDiff T} (self : T) :
  identical self = true
  <-> forall attr v, In (attr, v) (__dict__ self) ->
        startswith "diff_" attr = true -> truth v = false.
Proof.
  unfold identical. rewrite negb_true_iff. split.
  - intros E attr v Hin Hp.
    destruct (truth v) eqn:Ev; [ | reflexivity].
    assert (existsb (fun kv => truth kv.2)
              (List.filter (fun kv => startswith "diff_" kv.1) (__dict__ self))
            = true) as E'; [ | congruence].
    apply existsb_exists. exists (attr, v). split; [ | exact Ev].
    apply filter_In. by split.
  - intros Hall.
    destruct (existsb _ _) eqn:E; [ | reflexivity].
    apply existsb_exists in E as [[attr v] [Hin Ev]].
    apply filter_In in Hin as [Hin Hp]. simpl in *.
    rewrite (Hall attr v Hin Hp) in Ev. discriminate.
Qed.

(** C1. For each of the six comparators, [identical] is true iff every
    instance attribute whose name starts with "diff_" is falsy, and the
    instance has at least one such attribute. *)
Theorem identical_iff_all_diff_attributes_empty :
  identical_iff_no_diff FITSDiff.t
  /\ identical_iff_no_diff HDUDiff.t
  /\ identical_iff_no_diff HeaderDiff.t
  /\ identical_iff_no_diff ImageDataDiff.t
  /\ identical_iff_no_diff RawDataDiff.t
  /\ identical_iff_no_diff TableDataDiff.t.
Proof.
  repeat split; try (by apply identical_spec).
  - exists "diff_hdu_count", (apair (FITSDiff.diff_hdu_count self)).
    split; [ | reflexivity]. simpl. tauto.
  - exists "diff_extnames", (apair (HDUDiff.diff_extnames self)).
    split; [ | reflexivity]. simpl. tauto.
  - exists "diff_keyword_count", (apair (HeaderDiff.diff_keyword_count self)).
    split; [ | reflexivity]. simpl. tauto.
  - exists "diff_dimensions", (apair (ImageDataDiff.diff_dimensions self)).
    split; [ | reflexivity]. simpl. tauto.
  - exists "diff_dimensions", (apair (RawDataDiff.diff_dimensions self)).
    split; [ | reflexivity]. simpl. tauto.
  - exists "diff_column_count", (apair (TableDataDiff.diff_column_count self)).
    split; [ | reflexivity]. simpl. tauto.
Qed.

(** ** [ImageDataDiff] on arrays of different shapes *)

(** C7. Two arrays of different shapes: the two shapes are recorded in
    [diff_dimensions] and nothing is compared; [diff_pixels] stays empty,
    [diff_total] and [diff_ratio] stay 0. *)
Theorem shape_mismatch_short_circuit `{External}
    (a b : ndarray) (numdiffs : Z) (tolerance : float) :
  shape a <> shape b ->
  exists d, ImageDataDiff.__init__ a b numdiffs tolerance = Ok d
    /\ ImageDataDiff.diff_dimensions d = Some (shape a, shape b)
    /\ ImageDataDiff.diff_pixels d = []
    /\ ImageDataDiff.diff_total d = 0%nat
    /\ ImageDataDiff.diff_ratio d = fzero.
Proof.
  intros Hne. unfold ImageDataDiff.__init__, ImageDataDiff._diff. simpl.
  rewrite bool_decide_false by exact Hne. simpl.
  eexists. split; [reflexivity | ]. simpl. repeat split.
Qed.

Lemma shape_mismatch_short_circuit_witness :
  shape (ints [3] uint8 [5; 6; 7]%Z) <> shape (ints [2] uint8 [7; 6]%Z)
  /\ exists d,
      @ImageDataDiff.__init__ sample_external (ints [3] uint8 [5; 6; 7]%Z)
        (ints [2] uint8 [7; 6]%Z) 10 fzero = Ok d
      /\ ImageDataDiff.diff_dimensions d = Some ([3], [2])%nat
      /\ ImageDataDiff.diff_pixels d = []
      /\ ImageDataDiff.diff_total d = 0%nat
      /\ ImageDataDiff.diff_ratio d = fzero.
Proof.
  split; [simpl; discriminate | ].
  apply (@shape_mismatch_short_circuit sample_external
           (ints [3] uint8 [5; 6; 7]%Z) (ints [2] uint8 [7; 6]%Z) 10 fzero).
  simpl. discriminate.
Defined.

(** ** [HeaderDiff] under the wildcard *)

Lemma star_is_kept (X : gset string) :
  "*" ∈ X -> "*" ∈ (filter (fun k => HeaderDiff.is_pattern k = false) X : gset string).
Proof. intros Hin. apply elem_of_filter. split; [reflexivity | exact Hin]. Qed.

(** C6. With "*" among the ignored keywords, [HeaderDiff] records no
    keyword, duplicate, value or comment difference, whatever the headers
    hold; [diff_keyword_count] is still set when the numbers of cards
    differ. *)
Theorem wildcard_ignores_all_keywords `{External} (a b : Header)
    (ignore_keywords ignore_comments : gset string)
    (tolerance : float) (ignore_blanks : bool) :
  "*" ∈ ignore_keywords ->
  let d := HeaderDiff.__init__ a b ignore_keywords ignore_comments
             tolerance ignore_blanks in
  HeaderDiff.diff_keywords d = None
  /\ HeaderDiff.diff_duplicate_keywords d = ∅
  /\ HeaderDiff.diff_keyword_values d = ∅
  /\ HeaderDiff.diff_keyword_comments d = ∅
  /\ (Header_len a <> Header_len b ->
      HeaderDiff.diff_keyword_count d = Some (Header_len a, Header_len b)).
Proof.
  intros Hstar d. subst d.
  unfold HeaderDiff.__init__, HeaderDiff._diff. simpl.
  destruct (HeaderDiff.get_header_values_comments _ a) as [valuesa commentsa].
  destruct (HeaderDiff.get_header_values_comments _ b) as [valuesb commentsb].
  rewrite bool_decide_true by (by apply star_is_kept).
  simpl. repeat split.
  intros Hne. apply Nat.eqb_neq in Hne. by rewrite Hne.
Qed.

Lemma wildcard_ignores_all_keywords_witness :
  ("*" ∈ ({["*"]} : gset string))
  /\ HeaderDiff.diff_keyword_values
       (@HeaderDiff.__init__ sample_external header_a header_b {["*"]} ∅ fzero true)
     = ∅.
Proof.
  split; [by apply elem_of_singleton | ].
  apply (@wildcard_ignores_all_keywords sample_external header_a header_b
           {["*"]} ∅ fzero true).
  by apply elem_of_singleton.
Defined.

(** ** Index tuples and [np.where] *)

Lemma ndindex_valid (sh idx : list nat) :
  In idx (ndindex sh) <-> valid_index sh idx.
Proof.
  revert idx. induction sh as [ | n sh IH]; intros idx; simpl.
  - split.
    + intros [<- | []]. constructor.
    + intros Hv. inversion Hv. by left.
  - rewrite in_flat_map. split.
    + intros (i & Hi & Hin). apply in_map_iff in Hin as (idx' & <- & Hin').
      apply in_seq in Hi. constructor; [lia | by apply IH].
    + intros Hv. inversion Hv as [ | i n' idx' sh' Hi Hv']; subst.
      exists i. split; [apply in_seq; lia | ].
      apply in_map_iff. exists idx'. split; [done | by apply IH].
Qed.

Lemma lex_lt_map_cons (i : nat) (l : list (list nat)) :
  StronglySorted lex_lt l -> StronglySorted lex_lt (map (cons i) l).
Proof.
  induction 1 as [ | x l Hs IH Hx]; simpl; constructor; [exact IH | ].
  apply Forall_map. eapply Forall_impl; [exact Hx | ].
  intros y Hy. by apply lex_lt_tail.
Qed.

Lemma ndindex_rows_sorted (sh : list nat) (s n : nat) :
  StronglySorted lex_lt (ndindex sh) ->
  StronglySorted lex_lt
    (flat_map (fun i => map (cons i) (ndindex sh)) (seq s n)).
Proof.
  intros Hs. revert s. induction n as [ | n IH]; intros s; simpl.
  - constructor.
  - apply StronglySorted_app_2; [ | by apply lex_lt_map_cons | apply IH].
    intros x1 x2 H1 H2.
    apply list_elem_of_In, in_map_iff in H1 as (y1 & <- & _).
    apply list_elem_of_In, in_flat_map in H2 as (j & Hj & H2).
    apply in_map_iff in H2 as (y2 & <- & _).
    apply in_seq in Hj. apply lex_lt_head. lia.
Qed.

Lemma ndindex_sorted (sh : list nat) : StronglySorted lex_lt (ndindex sh).
Proof.
  induction sh as [ | n sh IH]; simpl.
  - repeat constructor.
  - by apply ndindex_rows_sorted.
Qed.

Lemma StronglySorted_filter {A : Type} (R : relation A) (p : A -> bool)
    (l : list A) :
  StronglySorted R l -> StronglySorted R (List.filter p l).
Proof.
  induction 1 as [ | x l Hs IH Hx]; simpl; [constructor | ].
  destruct (p x); [ | exact IH]. constructor; [exact IH | ].
  apply Forall_forall. intros y Hy.
  apply list_elem_of_In, filter_In in Hy as [Hy _].
  rewrite Forall_forall in Hx. by apply Hx, list_elem_of_In.
Qed.

Lemma ravel_lt (sh idx : list nat) (acc : nat) :
  valid_index sh idx -> (ravel sh idx acc < (acc + 1) * shape_size sh)%nat.
Proof.
  intros Hv. revert acc.
  induction Hv as [ | i n idx sh Hi Hv IH]; intros acc; cbn [ravel shape_size foldr].
  - lia.
  - specialize (IH (acc * n + i)%nat). fold (shape_size sh) in *. nia.
Qed.

(** An element within the bounds of an array of floats. *)
Lemma getitem_float (k : ftype) (a : ndarray) (l : list float) (P : float -> Prop)
    (idx : list nat) :
  elems a = Floats k l -> Forall P l -> wf_array a ->
  valid_index (shape a) idx ->
  exists x, getitem a idx = SFloat x /\ P x.
Proof.
  intros El Hall Hwf Hv. unfold getitem.
  pose proof (ravel_lt _ _ 0 Hv) as Hlt. rewrite <- Hwf in Hlt.
  unfold flat in *. rewrite El in *. rewrite length_map in Hlt.
  exists (nth (ravel (shape a) idx 0) l fzero). split.
  - rewrite (nth_indep _ (SInt 0) (SFloat fzero)) by (rewrite length_map; lia).
    apply (map_nth SFloat).
  - rewrite Forall_forall in Hall. apply Hall, list_elem_of_In, nth_In. lia.
Qed.

(** Both branches of [where_not_allclose] select the deviating positions. *)
Lemma where_not_allclose_deviating `{External} (a b : ndarray) (rtol : float) :
  where_not_allclose a b rtol fzero
  = List.filter (deviating a b rtol) (ndindex (shape a)).
Proof.
  unfold where_not_allclose, np_where, deviating, exceeds.
  change (SFeqb fzero fzero) with true. cbn [andb].
  by destruct (SFeqb rtol fzero).
Qed.

(** The comparison of two binary64 elements with a relative tolerance. *)
Lemma exceeds_float64 `{External} (rtol x y : float) :
  exceeds rtol (float64 x) (float64 y)
  = SFltb (fadd binary64 fzero (fmul binary64 rtol (SFabs y)))
          (SFabs (fsub binary64 x y)).
Proof. reflexivity. Qed.

Lemma wrap_idempotent (i : inttype) (z : Z) : wrap i (wrap i z) = wrap i z.
Proof.
  unfold wrap. destruct i; rewrite ?Z.sub_add; by rewrite Z.mod_mod.
Qed.

(** An element of an array of integers is an integer of the type. *)
Lemma getitem_int (i : inttype) (a : ndarray) (l : list Z) (idx : list nat) :
  elems a = Ints i l -> exists z, getitem a idx = SInt z /\ wrap i z = z.
Proof.
  intros El. unfold getitem, flat. rewrite El.
  destruct (nth_in_or_default (ravel (shape a) idx 0)
              (map (fun z => SInt (wrap i z)) l) (SInt 0)) as [Hin | ->].
  - apply in_map_iff in Hin as (z & <- & _). exists (wrap i z).
    split; [reflexivity | apply wrap_idempotent].
  - exists 0%Z. split; [reflexivity | by destruct i].
Qed.

(** C5 (amended). [where_not_allclose] with [atol = 0.0] on two arrays of
    one shape.  For a zero [rtol] it yields exactly the positions at which
    [a != b] holds (for two arrays of one integer type: at which the
    elements differ).  For any other [rtol] it yields exactly the positions
    at which numpy evaluates [abs(a - b) > 0.0 + rtol * abs(b)] to true, in
    the arithmetic of the element types.  For two binary64 arrays of finite
    elements and a finite [rtol] that is not negative, every position it
    yields satisfies [|a[i]-b[i]| > rtol*|b[i]|] in exact arithmetic.
    Either way the index tuples come in row-major order (strictly
    increasing, so none is repeated). *)
Theorem where_not_allclose_positions `{External} (a b : ndarray) (rtol : float) :
  shape a = shape b ->
  (SFeqb rtol fzero = true ->
   (forall idx, In idx (where_not_allclose a b rtol fzero)
      <-> valid_index (shape a) idx
          /\ np_not_equal (item a idx) (item b idx) = true)
   /\ (forall i la lb, elems a = Ints i la -> elems b = Ints i lb ->
         forall idx, In idx (where_not_allclose a b rtol fzero)
           <-> valid_index (shape a) idx /\ getitem a idx <> getitem b idx))
  /\ (SFeqb rtol fzero = false ->
      forall idx, In idx (where_not_allclose a b rtol fzero)
        <-> valid_index (shape a) idx
            /\ exceeds rtol (item a idx) (item b idx) = true)
  /\ (finite_array binary64 a -> finite_array binary64 b ->
      wf_array a -> wf_array b ->
      valid binary64 rtol = true -> finite rtol = true -> nonneg rtol = true ->
      forall idx, In idx (where_not_allclose a b rtol fzero) ->
        (float_value rtol * Qabs (scalar_value (getitem b idx))
         < Qabs (scalar_value (getitem a idx) - scalar_value (getitem b idx)))%Q)
  /\ StronglySorted lex_lt (where_not_allclose a b rtol fzero).
Proof.
  intros Hsh. rewrite where_not_allclose_deviating.
  split; [intros Hz; split | split; [intros Hnz idx | split]].
  - intros idx. rewrite filter_In, ndindex_valid. unfold deviating.
    by rewrite Hz.
  - intros i la lb Ea Eb idx. rewrite filter_In, ndindex_valid.
    unfold deviating. rewrite Hz.
    destruct (getitem_int i a la idx Ea) as (x & Ex & Hx).
    destruct (getitem_int i b lb idx Eb) as (y & Ey & Hy).
    unfold item, dtype_of. rewrite Ea, Eb, Ex, Ey.
    unfold np_not_equal, np_equal. cbn [promote_types fst snd to_int].
    assert (int_join i i = i) as -> by (by destruct i).
    rewrite Hx, Hy, negb_true_iff, Z.eqb_neq.
    split; (intros [Hv Hne]; split; [exact Hv | congruence]).
  - rewrite filter_In, ndindex_valid. unfold deviating. by rewrite Hnz.
  - intros (la & Ea & Hla) (lb & Eb & Hlb) Hwa Hwb Hvt Hft Ht idx Hin.
    apply filter_In in Hin as [Hv Hd]. apply ndindex_valid in Hv.
    destruct (getitem_float _ a la _ idx Ea Hla Hwa Hv) as (x & Ex & Hvx & Hfx).
    destruct (getitem_float _ b lb _ idx Eb Hlb Hwb ltac:(by rewrite <- Hsh))
      as (y & Ey & Hvy & Hfy).
    rewrite Ex, Ey. cbn [scalar_value].
    apply Qnot_le_lt. intros Hle.
    unfold deviating, item, dtype_of in Hd. rewrite Ea, Eb, Ex, Ey in Hd.
    fold (float64 x) in Hd. fold (float64 y) in Hd.
    destruct (SFeqb rtol fzero) eqn:Ez.
    + assert (float_value rtol == 0)%Q as E0.
      { apply (SFeqb_value rtol fzero Ez Hft eq_refl). }
      assert (float_value x == float_value y)%Q as Exy.
      { rewrite E0 in Hle.
        assert (Qabs (float_value x - float_value y) <= 0)%Q as H0 by lra.
        revert H0. apply Qabs_case; intros; lra. }
      pose proof (valid_value_eq (prec binary64) (emax binary64)
                    (prec_gt_1 binary64) (prec_lt_emax binary64)
                    x y Hvx Hvy Hfx Hfy Exy) as Eeq.
      unfold np_not_equal, np_equal in Hd.
      cbn [promote_types float64 fst snd float_join to_float format_of convert] in Hd.
      rewrite Eeq in Hd. discriminate Hd.
    + rewrite exceeds_float64 in Hd.
      pose proof (within_tolerance (prec binary64) (emax binary64)
                    (prec_gt_1 binary64) (prec_lt_emax binary64)
                    x y rtol Hvx Hvy Hvt Hfx Hfy Hft Ht Hle) as Hw.
      apply SFleb_not_SFltb in Hw. unfold fadd, fmul, fsub in Hd.
      rewrite Hw in Hd. discriminate Hd.
  - apply StronglySorted_filter, ndindex_sorted.
Qed.

Lemma where_not_allclose_positions_witness :
  shape grid_a = shape grid_b
  /\ (forall idx,
        In idx (@where_not_allclose sample_external grid_a grid_b fzero fzero)
        <-> valid_index (shape grid_a) idx
            /\ np_not_equal (item grid_a idx) (item grid_b idx) = true)
  /\ (forall idx,
        In idx (@where_not_allclose sample_external grid_a grid_b (ratio 1 2) fzero)
        <-> valid_index (shape grid_a) idx
            /\ @exceeds sample_external (ratio 1 2)
                 (item grid_a idx) (item grid_b idx) = true)
  /\ (forall idx,
        In idx (@where_not_allclose sample_external grid_a grid_b (ratio 1 2) fzero) ->
        (float_value (ratio 1 2) * Qabs (scalar_value (getitem grid_b idx))
         < Qabs (scalar_value (getitem grid_a idx)
                 - scalar_value (getitem grid_b idx)))%Q)
  /\ StronglySorted lex_lt
       (@where_not_allclose sample_external grid_a grid_b (ratio 1 2) fzero).
Proof.
  assert (finite_array binary64 grid_a /\ finite_array binary64 grid_b)
    as [Hfa Hfb].
  { split; (eexists; split; [reflexivity | ]); cbn [map];
      repeat (constructor; [split; vm_compute; reflexivity | ]); constructor. }
  pose proof (@where_not_allclose_positions sample_external
                grid_a grid_b fzero eq_refl) as (Hzero & _).
  pose proof (@where_not_allclose_positions sample_external
                grid_a grid_b (ratio 1 2) eq_refl) as (_ & Hrel & Hexact & Hsorted).
  split; [reflexivity | ].
  split; [ | split; [ | split]].
  - exact (proj1 (Hzero eq_refl)).
  - assert (SFeqb (ratio 1 2) fzero = false) as Hnz by (vm_compute; reflexivity).
    exact (Hrel Hnz).
  - assert (wf_array grid_a /\ wf_array grid_b) as [Hwa Hwb] by (split; reflexivity).
    assert (valid binary64 (ratio 1 2) = true) as Hvt by (vm_compute; reflexivity).
    assert (finite (ratio 1 2) = true) as Hft by (vm_compute; reflexivity).
    assert (nonneg (ratio 1 2) = true) as Ht by (vm_compute; reflexivity).
    exact (Hexact Hfa Hfb Hwa Hwb Hvt Hft Ht).
  - exact Hsorted.
Defined.

(** C5 as stated fails: the arithmetic is that of the element type.  For the
    uint8 arrays [5] and [7] and [rtol = 0.5], [a - b] wraps around to 254,
    which exceeds [0.5 * 7], so position 0 is yielded although [|5 - 7| = 2]
    does not exceed 3.5. *)
Lemma where_not_allclose_wraps_around :
  ~ (forall (E : External) (a b : ndarray) (rtol : float) (idx : list nat),
        shape a = shape b -> wf_array a -> wf_array b ->
        SFltb fzero rtol = true ->
        (In idx (where_not_allclose a b rtol fzero)
         <-> valid_index (shape a) idx
             /\ (float_value rtol * Qabs (scalar_value (getitem b idx))
                 < Qabs (scalar_value (getitem a idx)
                         - scalar_value (getitem b idx)))%Q)).
Proof.
  intros Hclaim.
  destruct (Hclaim sample_external (ints [1] uint8 [5]%Z) (ints [1] uint8 [7]%Z)
              (ratio 1 2) [0%nat]) as [Hin _];
    [vm_compute; reflexivity .. | ].
  destruct Hin as [_ Hlt]; [vm_compute; by left | ].
  vm_compute in Hlt. discriminate Hlt.
Qed.

(** ** [ImageDataDiff] on arrays of one shape *)

Lemma length_ndindex (sh : list nat) : length (ndindex sh) = shape_size sh.
Proof.
  induction sh as [ | n sh IH]; simpl; [reflexivity | ].
  rewrite (flat_map_constant_length (c := shape_size sh)).
  - by rewrite length_seq.
  - intros i _. by rewrite length_map.
Qed.

Lemma filter_length_mono {A : Type} (p q : A -> bool) (l : list A) :
  (forall x, In x l -> p x = true -> q x = true) ->
  (length (List.filter p l) <= length (List.filter q l))%nat.
Proof.
  induction l as [ | x l IH]; intros Hpq; simpl; [lia | ].
  assert (length (List.filter p l) <= length (List.filter q l))%nat as IH'
    by (apply IH; intros y Hy; apply Hpq; by right).
  destruct (p x) eqn:Ep.
  - rewrite (Hpq x (or_introl eq_refl) Ep). simpl. lia.
  - destruct (q x); simpl; lia.
Qed.

Lemma filter_none {A : Type} (p : A -> bool) (l : list A) :
  (forall x, In x l -> p x = false) -> List.filter p l = [].
Proof.
  induction l as [ | x l IH]; intros Hp; simpl; [reflexivity | ].
  rewrite (Hp x (or_introl eq_refl)). apply IH. intros y Hy. apply Hp. by right.
Qed.

(** What [ImageDataDiff] computes for two arrays of one shape: it never
    raises, [diff_total] counts the deviating positions and [diff_pixels]
    samples them from the front. *)
Lemma ImageDataDiff_equal_shapes `{External} (a b : ndarray) (numdiffs : Z)
    (tolerance : float) :
  wf_array a -> shape a = shape b ->
  let rtol :=
    ImageDataDiff.effective_tolerance
      (ImageDataDiff.initial a b numdiffs tolerance) in
  let diffs := List.filter (deviating a b rtol) (ndindex (shape a)) in
  exists d, ImageDataDiff.__init__ a b numdiffs tolerance = Ok d
    /\ ImageDataDiff.diff_total d = length diffs
    /\ ImageDataDiff.diff_pixels d
       = map (fun idx => (idx, (getitem a idx, getitem b idx)))
             (islice diffs (if (numdiffs <? 0)%Z
                            then Z.of_nat (length diffs) else numdiffs))
    /\ ImageDataDiff.diff_dimensions d = None
    /\ ImageDataDiff.numdiffs d = numdiffs
    /\ ImageDataDiff.tolerance d = tolerance.
Proof.
  intros Hwf Hsh rtol diffs.
  unfold ImageDataDiff.__init__, ImageDataDiff._diff.
  cbn [ImageDataDiff.a ImageDataDiff.b ImageDataDiff.initial].
  rewrite bool_decide_true by exact Hsh. cbn [negb].
  rewrite where_not_allclose_deviating. fold rtol. fold diffs.
  destruct (length diffs =? 0)%nat eqn:E0.
  - apply Nat.eqb_eq in E0. eexists. split; [reflexivity | ].
    cbn. repeat split; try done.
    apply length_zero_iff_nil in E0. rewrite E0. unfold islice.
    by rewrite take_nil.
  - apply Nat.eqb_neq in E0.
    assert (length (flat a) <> 0)%nat as Hlen.
    { rewrite Hwf, <- length_ndindex.
      pose proof (filter_length_le (deviating a b rtol) (ndindex (shape a))) as Hle.
      fold diffs in Hle. lia. }
    unfold py_fdiv. rewrite (float_of_nat_nonzero _ Hlen).
    eexists. split; [reflexivity | ]. cbn. repeat split; done.
Qed.

(** *** The threshold [0.0 + rtol * abs(y)] *)

Lemma nonneg_SFleb (x y : float) :
  nonneg x = true -> SFleb x y = true -> nonneg y = true.
Proof.
  intros Hx Hle. apply nonneg_key. apply nonneg_key in Hx as [_ Hx].
  apply SFleb_key in Hle as (_ & Hn & Hle). split; [exact Hn | ].
  unfold key_le in Hle. lia.
Qed.

Lemma SFmul_valid (k : ftype) (t : float) (m : positive) (e : Z) :
  valid k t = true -> bounded (prec k) (emax k) m e = true ->
  valid k (fmul k t (S754_finite false m e)) = true.
Proof.
  intros Ht Hb. destruct t as [s | s | | s mt et]; try reflexivity.
  unfold fmul.
  rewrite (SFmul_finite _ _ (prec_gt_1 k) (prec_lt_emax k)).
  apply binary_round_aux_valid;
    [apply prec_gt_1 | apply prec_lt_emax | ].
  by apply (mul_pre _ _ (prec_gt_1 k) (prec_lt_emax k)).
Qed.

Lemma SFmul_sign (k : ftype) (t y : float) :
  (0 <= (fkey t).1.1)%Z -> (0 <= (fkey (fmul k t (SFabs y))).1.1)%Z.
Proof.
  intros Ht.
  destruct t as [s | [ | ] | | [ | ] mt et], y as [s' | s' | | s' m e];
    cbn in Ht; try lia; try (cbn; lia).
  apply binary_round_aux_sign.
Qed.

Lemma SFadd_fzero_valid (k : ftype) (x : float) :
  valid k x = true -> valid k (fadd k fzero x) = true.
Proof. by destruct x as [[ | ] | | | ]. Qed.

Lemma SFadd_fzero_mono (k : ftype) (x y : float) :
  SFleb x y = true -> SFleb (fadd k fzero x) (fadd k fzero y) = true.
Proof.
  intros Hle. apply SFleb_key in Hle as (Hx & Hy & Hle). apply SFleb_key.
  unfold fadd.
  destruct (SFadd_fzero_key _ _ (prec_gt_1 k) (prec_lt_emax k) x) as [-> ->].
  destruct (SFadd_fzero_key _ _ (prec_gt_1 k) (prec_lt_emax k) y) as [-> ->].
  done.
Qed.

Lemma SFadd_fzero_nonneg (k : ftype) (x : float) :
  nonneg x = true -> nonneg (fadd k fzero x) = true.
Proof.
  rewrite !nonneg_key. unfold fadd.
  by destruct (SFadd_fzero_key _ _ (prec_gt_1 k) (prec_lt_emax k) x) as [-> ->].
Qed.

Lemma convert_nan (k0 k : ftype) : convert k0 k S754_nan = S754_nan.
Proof. by destruct k0, k. Qed.

Lemma convert_infinity (k0 k : ftype) (s : bool) :
  convert k0 k (S754_infinity s) = S754_infinity s.
Proof. by destruct k0, k. Qed.

Lemma SFltb_infinity (x : float) : SFltb (S754_infinity false) x = false.
Proof. by destruct x as [ | [ | ] | | [ | ] ]. Qed.

(** The threshold of a tolerance that is not negative is not negative (or
    is a NaN). *)
Lemma threshold_sign (k2 k : ftype) (t y : float) :
  (0 <= (fkey t).1.1)%Z ->
  (0 <= (fkey (convert k2 k
                 (fadd k2 fzero (fmul k2 (convert binary64 k2 t) (SFabs y))))).1.1)%Z.
Proof.
  intros Ht. apply convert_sign. unfold fadd.
  rewrite (proj1 (SFadd_fzero_key _ _ (prec_gt_1 k2) (prec_lt_emax k2) _)).
  by apply (SFmul_sign k2), convert_sign.
Qed.

(** The threshold grows with the tolerance: what exceeds the threshold of
    the greater tolerance exceeds that of the smaller one. *)
Lemma threshold_mono (k2 k : ftype) (t1 t2 y d : float) :
  valid binary64 t1 = true -> valid binary64 t2 = true ->
  nonneg t1 = true -> SFleb t1 t2 = true ->
  valid k2 y = true ->
  SFltb (convert k2 k
           (fadd k2 fzero (fmul k2 (convert binary64 k2 t2) (SFabs y)))) d = true ->
  SFltb (convert k2 k
           (fadd k2 fzero (fmul k2 (convert binary64 k2 t1) (SFabs y)))) d = true.
Proof.
  intros Hv1 Hv2 Hn1 Hle Hvy.
  pose proof (convert_valid binary64 k2 t1 Hv1) as HV1.
  pose proof (convert_valid binary64 k2 t2 Hv2) as HV2.
  pose proof (convert_mono binary64 k2 t1 t2 Hv1 Hv2 Hn1 Hle) as HLE.
  assert (nonneg (convert binary64 k2 t1) = true) as HN1.
  { apply nonneg_key. split.
    - by apply SFleb_key in HLE as (Hn & _).
    - apply convert_sign. by apply nonneg_key in Hn1 as [_ Hn1]. }
  pose proof (nonneg_SFleb _ _ HN1 HLE) as HN2.
  set (T1 := convert binary64 k2 t1) in *.
  set (T2 := convert binary64 k2 t2) in *.
  clearbody T1 T2. clear Hv1 Hv2 Hn1 Hle t1 t2.
  destruct y as [sy | sy | | sy m e]; cbn [SFabs].
  - (* a zero *)
    intros Hd.
    destruct T1 as [s1 | [ | ] | | [ | ] m1 e1], T2 as [s2 | [ | ] | | [ | ] m2 e2];
      try discriminate;
      cbn [fmul SFmul xorb fadd SFadd fzero Bool.eqb] in Hd |- *;
      rewrite ?convert_nan in Hd; try discriminate Hd;
      try (destruct s1); try (destruct s2); try exact Hd.
  - (* an infinity *)
    intros Hd. exfalso.
    destruct T2 as [s2 | [ | ] | | [ | ] m2 e2]; try discriminate;
      cbn [fmul SFmul xorb fadd SFadd fzero] in Hd;
      rewrite ?convert_nan, ?convert_infinity, ?SFltb_infinity in Hd;
      discriminate Hd.
  - (* a NaN *)
    intros Hd. exfalso.
    destruct T2 as [s2 | [ | ] | | [ | ] m2 e2];
      cbn [fmul SFmul xorb fadd SFadd fzero] in Hd;
      rewrite ?convert_nan in Hd; discriminate Hd.
  - cbn [valid valid_binary] in Hvy.
    pose proof (SFmul_mono _ _ (prec_gt_1 k2) (prec_lt_emax k2)
                  T1 T2 m e HV1 HV2 Hvy HN1 HLE) as Hmul.
    fold (fmul k2 T1 (S754_finite false m e)) in Hmul.
    fold (fmul k2 T2 (S754_finite false m e)) in Hmul.
    pose proof (SFmul_valid k2 T1 m e HV1 Hvy) as Hm1.
    pose proof (SFmul_valid k2 T2 m e HV2 Hvy) as Hm2.
    assert (nonneg (fmul k2 T1 (S754_finite false m e)) = true) as Hp1.
    { apply nonneg_key. split.
      - by apply SFleb_key in Hmul as (Hn & _).
      - apply (SFmul_sign k2 T1 (S754_finite false m e)).
        by apply nonneg_key in HN1 as [_ HN1]. }
    intros Hd. eapply SFleb_SFltb_trans; [ | exact Hd].
    apply convert_mono.
    + by apply SFadd_fzero_valid.
    + by apply SFadd_fzero_valid.
    + by apply SFadd_fzero_nonneg.
    + by apply SFadd_fzero_mono.
Qed.

(** *** Deviating positions of two arrays of floats *)

Lemma exceeds_floats `{External} (k1 k2 : ftype) (t x y : float) :
  exceeds t (Dfloat k1, SFloat x) (Dfloat k2, SFloat y)
  = SFltb (convert k2 (float_join k1 k2)
             (fadd k2 fzero (fmul k2 (convert binary64 k2 t) (SFabs y))))
          (SFabs (fsub (float_join k1 k2)
                    (convert k1 (float_join k1 k2) x)
                    (convert k2 (float_join k1 k2) y))).
Proof. destruct k1, k2; reflexivity. Qed.

Lemma np_not_equal_floats (k1 k2 : ftype) (x y : float) :
  np_not_equal (Dfloat k1, SFloat x) (Dfloat k2, SFloat y)
  = negb (SFeqb (convert k1 (float_join k1 k2) x)
                (convert k2 (float_join k1 k2) y)).
Proof. reflexivity. Qed.

Lemma fkey_zero (x : float) : (fkey x).1.1 = 0%Z -> fkey x = (0, 0, 0)%Z.
Proof. by destruct x as [ | [ | ] | | [ | ] ]. Qed.

(** What exceeds the threshold of a tolerance that is not negative is
    unequal. *)
Lemma exceeds_not_equal `{External} (k1 k2 : ftype) (t x y : float) :
  (0 <= (fkey t).1.1)%Z ->
  exceeds t (Dfloat k1, SFloat x) (Dfloat k2, SFloat y) = true ->
  np_not_equal (Dfloat k1, SFloat x) (Dfloat k2, SFloat y) = true.
Proof.
  intros Ht. rewrite exceeds_floats, np_not_equal_floats.
  set (k := float_join k1 k2). intros Hd.
  destruct (SFeqb _ _) eqn:Eq; [exfalso | reflexivity].
  apply (SFsub_equal _ _ (prec_gt_1 k) (prec_lt_emax k)) in Eq.
  apply SFltb_key in Hd as (_ & _ & Hlt). unfold fsub in Hlt.
  rewrite Eq in Hlt.
  pose proof (threshold_sign k2 k t y Ht) as Hs.
  unfold key_lt in Hlt. cbn [fst snd] in Hlt.
  destruct Hlt as [Hlt | [E0 Hlt]]; [lia | ].
  apply fkey_zero in E0. rewrite E0 in Hlt. cbn [fst snd] in Hlt. lia.
Qed.

Lemma item_float (k : ftype) (a : ndarray) (P : float -> Prop) (l : list float)
    (idx : list nat) :
  elems a = Floats k l -> Forall P l -> wf_array a ->
  valid_index (shape a) idx ->
  exists x, item a idx = (Dfloat k, SFloat x) /\ P x.
Proof.
  intros El Hall Hwf Hv.
  destruct (getitem_float k a l P idx El Hall Hwf Hv) as (x & Ex & Hx).
  exists x. split; [ | exact Hx]. unfold item, dtype_of. by rewrite El, Ex.
Qed.

Lemma zero_tolerance (t1 t2 : float) :
  nonneg t1 = true -> SFleb t1 t2 = true -> SFeqb t2 fzero = true ->
  SFeqb t1 fzero = true.
Proof.
  by destruct t1 as [s1 | [ | ] | | [ | ] m1 e1], t2 as [s2 | [ | ] | | [ | ] m2 e2].
Qed.

(** On two arrays of floats a position that deviates at a tolerance
    deviates at every smaller tolerance that is not negative. *)
Lemma deviating_anti `{External} (k1 k2 : ftype) (a b : ndarray) (t1 t2 : float)
    (idx : list nat) :
  float_array k1 a -> float_array k2 b ->
  wf_array a -> wf_array b -> shape a = shape b ->
  valid_index (shape a) idx ->
  valid binary64 t1 = true -> valid binary64 t2 = true ->
  nonneg t1 = true -> SFleb t1 t2 = true ->
  deviating a b t2 idx = true -> deviating a b t1 idx = true.
Proof.
  intros (la & Ea & Hla) (lb & Eb & Hlb) Hwa Hwb Hsh Hv Hv1 Hv2 Hn1 Hle.
  destruct (item_float k1 a _ la idx Ea Hla Hwa Hv) as (x & Ex & Hx).
  destruct (item_float k2 b _ lb idx Eb Hlb Hwb ltac:(by rewrite <- Hsh))
    as (y & Ey & Hy).
  unfold deviating. rewrite Ex, Ey. clear Ex Ey.
  destruct (SFeqb t2 fzero) eqn:E2.
  - by rewrite (zero_tolerance t1 t2 Hn1 Hle E2).
  - destruct (SFeqb t1 fzero) eqn:E1.
    + apply exceeds_not_equal.
      pose proof (nonneg_SFleb _ _ Hn1 Hle) as Hn2.
      by apply nonneg_key in Hn2 as [_ Hn2].
    + rewrite !exceeds_floats. by apply threshold_mono.
Qed.

(** *** The maximum relative deviation *)

Lemma rel_dev_le_max (a b : ndarray) (idx : list nat) :
  In idx (ndindex (shape a)) ->
  (rel_dev (scalar_value (getitem a idx)) (scalar_value (getitem b idx))
   <= max_rel_dev a b)%Q.
Proof.
  unfold max_rel_dev. induction (ndindex (shape a)) as [ | i l IH]; [done | ].
  intros Hin. cbn [foldr].
  set (m := foldr _ _ l) in *.
  set (r := rel_dev (scalar_value (getitem a i)) (scalar_value (getitem b i))).
  assert (r <= (if Qle_bool m r then r else m))%Q as Hr.
  { destruct (Qle_bool m r) eqn:E; [apply Qle_refl | ].
    apply Qle_bool_false in E. by apply Qlt_le_weak. }
  assert (m <= (if Qle_bool m r then r else m))%Q as Hm.
  { destruct (Qle_bool m r) eqn:E; [by apply Qle_bool_iff | apply Qle_refl]. }
  destruct Hin as [<- | Hin]; [exact Hr | ].
  eapply Qle_trans; [by apply IH | exact Hm].
Qed.

Lemma max_rel_dev_nonneg (a b : ndarray) : (0 <= max_rel_dev a b)%Q.
Proof.
  unfold max_rel_dev. induction (ndindex (shape a)) as [ | i l IH]; [done | ].
  cbn [foldr]. set (m := foldr _ _ l) in *.
  destruct (Qle_bool m _) eqn:E; [ | exact IH].
  apply Qle_bool_iff in E. eapply Qle_trans; [exact IH | exact E].
Qed.

Lemma Qabs_pos (y : Q) : ~ (y == 0)%Q -> (0 < Qabs y)%Q.
Proof.
  intros Hy. apply Qabs_case; intros Hs; [ | lra].
  destruct (Qlt_le_dec 0 y) as [Hlt | Hge]; [exact Hlt | ].
  exfalso. apply Hy. lra.
Qed.

Lemma Qabs_zero (x y : Q) : (Qabs (x - y) <= 0)%Q -> (x == y)%Q.
Proof. apply Qabs_case; intros; lra. Qed.

(** A finite float of a value that is not negative. *)
Lemma nonneg_value (t : float) :
  finite t = true -> (0 <= float_value t)%Q -> nonneg t = true.
Proof.
  destruct t as [s | s | | [ | ] m e]; try done.
  intros _ Hv. exfalso. cbn [float_value cond_Zopp] in Hv.
  pose proof (value_pos (Zpos m) e eq_refl) as Hpos.
  change (Z.opp (Zpos m)) with (- Zpos m)%Z in Hv.
  fold (dyadic (- Zpos m) e) in Hv. rewrite dyadic_opp in Hv. lra.
Qed.

(** Within the maximum relative deviation nothing deviates, on binary64
    arrays of finite elements. *)
Lemma within_max_rel_dev `{External} (a b : ndarray) (t : float) (idx : list nat) :
  finite_array binary64 a -> finite_array binary64 b ->
  wf_array a -> wf_array b -> shape a = shape b ->
  valid binary64 t = true -> finite t = true ->
  valid_index (shape a) idx ->
  ((scalar_value (getitem b idx) == 0)%Q -> (scalar_value (getitem a idx) == 0)%Q) ->
  (max_rel_dev a b <= float_value t)%Q ->
  deviating a b t idx = false.
Proof.
  intros (la & Ea & Hla) (lb & Eb & Hlb) Hwa Hwb Hsh Hvt Hft Hv Hzero Hmax.
  pose proof (rel_dev_le_max a b idx (proj2 (ndindex_valid _ _) Hv)) as Hr.
  pose proof (max_rel_dev_nonneg a b) as H0.
  destruct (getitem_float _ a la _ idx Ea Hla Hwa Hv) as (x & Ex & Hvx & Hfx).
  destruct (getitem_float _ b lb _ idx Eb Hlb Hwb ltac:(by rewrite <- Hsh))
    as (y & Ey & Hvy & Hfy).
  unfold deviating, item, dtype_of. rewrite Ea, Eb, Ex, Ey.
  rewrite Ex, Ey in Hr, Hzero. cbn [scalar_value] in Hr, Hzero.
  fold (float64 x). fold (float64 y).
  set (X := float_value x) in *. set (Y := float_value y) in *.
  set (T := float_value t) in *.
  assert (Qabs (X - Y) <= T * Qabs Y)%Q as Hle.
  { destruct (Qeq_dec Y 0) as [Hy | Hy].
    - assert (Qabs (X - Y) == Qabs 0)%Q as E0
        by (apply Qabs_wd; rewrite (Hzero Hy), Hy; lra).
      assert (Qabs Y == Qabs 0)%Q as E1 by (by apply Qabs_wd).
      rewrite E0, E1. change (Qabs 0) with 0%Q. lra.
    - pose proof (Qabs_pos Y Hy) as Hpos. unfold rel_dev in Hr.
      assert (Qabs (X - Y) == Qabs Y * (Qabs (X - Y) / Qabs Y))%Q as ->
        by (rewrite Qmult_div_r; [reflexivity | lra]).
      rewrite (Qmult_comm T). apply Qmult_le_l; [exact Hpos | ].
      eapply Qle_trans; [exact Hr | exact Hmax]. }
  destruct (SFeqb t fzero) eqn:Ez.
  - assert (T == 0)%Q as E0 by (apply (SFeqb_value t fzero Ez Hft eq_refl)).
    assert (X == Y)%Q as Exy by (apply Qabs_zero; rewrite E0 in Hle; lra).
    pose proof (valid_value_eq _ _ (prec_gt_1 binary64) (prec_lt_emax binary64)
                  x y Hvx Hvy Hfx Hfy Exy) as Eeq.
    unfold np_not_equal, np_equal.
    cbn [promote_types float64 fst snd float_join to_float format_of convert].
    by rewrite Eeq.
  - rewrite exceeds_float64. apply SFleb_not_SFltb.
    apply (within_tolerance _ _ (prec_gt_1 binary64) (prec_lt_emax binary64));
      try assumption.
    apply nonneg_value; [exact Hft | ]. fold T. lra.
Qed.

Lemma effective_tolerance_exact (a b : ndarray) (n : Z) (t : float) :
  inexact a || inexact b = false ->
  ImageDataDiff.effective_tolerance (ImageDataDiff.initial a b n t) = fzero.
Proof.
  intros Hi. unfold ImageDataDiff.effective_tolerance. cbn [ImageDataDiff.a
    ImageDataDiff.b ImageDataDiff.initial ImageDataDiff.tolerance].
  unfold inexact in Hi. by rewrite Hi.
Qed.

Lemma effective_tolerance_inexact (a b : ndarray) (n : Z) (t : float) :
  inexact a || inexact b = true ->
  ImageDataDiff.effective_tolerance (ImageDataDiff.initial a b n t) = t.
Proof.
  intros Hi. unfold ImageDataDiff.effective_tolerance. cbn [ImageDataDiff.a
    ImageDataDiff.b ImageDataDiff.initial ImageDataDiff.tolerance].
  unfold inexact in Hi. by rewrite Hi.
Qed.

Lemma float_array_inexact (k : ftype) (a : ndarray) :
  float_array k a -> inexact a = true.
Proof. intros (l & El & _). unfold inexact, dtype_of. by rewrite El. Qed.

(** C8 (amended). For two arrays of one shape, both of an integer type or
    both of a float type (float32 or float64, each its own), and two
    tolerances [0 <= t1 <= t2], [diff_total] at [t2] is at most
    [diff_total] at [t1].  For two float64 arrays of finite elements, where
    the relative deviation is defined everywhere ([a] is zero wherever [b]
    is), a finite tolerance at least the maximum relative deviation gives
    [diff_total = 0]. *)
Theorem tolerance_monotone `{External} (a b : ndarray) (numdiffs : Z) :
  wf_array a -> wf_array b -> shape a = shape b ->
  (forall t1 t2 : float,
     valid binary64 t1 = true -> valid binary64 t2 = true ->
     nonneg t1 = true -> SFleb t1 t2 = true ->
     inexact a || inexact b = false
     \/ (exists k1 k2, float_array k1 a /\ float_array k2 b) ->
     exists d1 d2,
       ImageDataDiff.__init__ a b numdiffs t1 = Ok d1
       /\ ImageDataDiff.__init__ a b numdiffs t2 = Ok d2
       /\ (ImageDataDiff.diff_total d2 <= ImageDataDiff.diff_total d1)%nat)
  /\ (forall t : float,
        valid binary64 t = true -> finite t = true ->
        finite_array binary64 a -> finite_array binary64 b ->
        (forall idx, valid_index (shape a) idx ->
                     (scalar_value (getitem b idx) == 0)%Q ->
                     (scalar_value (getitem a idx) == 0)%Q) ->
        (max_rel_dev a b <= float_value t)%Q ->
        exists d, ImageDataDiff.__init__ a b numdiffs t = Ok d
                  /\ ImageDataDiff.diff_total d = 0%nat).
Proof.
  intros Hwa Hwb Hsh. split.
  - intros t1 t2 Hv1 Hv2 Hn1 Hle Hty.
    destruct (ImageDataDiff_equal_shapes a b numdiffs t1 Hwa Hsh)
      as (d1 & E1 & T1 & _).
    destruct (ImageDataDiff_equal_shapes a b numdiffs t2 Hwa Hsh)
      as (d2 & E2 & T2 & _).
    exists d1, d2. split; [exact E1 | split; [exact E2 | ]].
    rewrite T1, T2. destruct Hty as [Hint | (k1 & k2 & Ha & Hb)].
    + rewrite !effective_tolerance_exact by exact Hint. lia.
    + rewrite !effective_tolerance_inexact
        by (by rewrite (float_array_inexact k1 a Ha)).
      apply filter_length_mono. intros idx Hin.
      apply (deviating_anti k1 k2); try assumption.
      by apply ndindex_valid.
  - intros t Hvt Hft Ha Hb Hzero Hmax.
    destruct (ImageDataDiff_equal_shapes a b numdiffs t Hwa Hsh)
      as (d & E & T & _).
    exists d. split; [exact E | ]. rewrite T.
    rewrite effective_tolerance_inexact.
    + rewrite filter_none; [reflexivity | ].
      intros idx Hin. apply ndindex_valid in Hin.
      apply within_max_rel_dev; try assumption. by apply Hzero.
    + destruct Ha as (l & El & _). unfold inexact, dtype_of. by rewrite El.
Qed.

Lemma tolerance_monotone_witness :
  wf_array line_a /\ wf_array line_b
  /\ shape line_a = shape line_b
  /\ (float_value fzero <= float_value (ratio 1 2))%Q
  /\ (max_rel_dev line_a line_b <= float_value (ratio 1 2))%Q
  /\ (exists d1 d2,
         @ImageDataDiff.__init__ sample_external line_a line_b 10 fzero = Ok d1
         /\ @ImageDataDiff.__init__ sample_external line_a line_b 10 (ratio 1 2)
            = Ok d2
         /\ (ImageDataDiff.diff_total d2 <= ImageDataDiff.diff_total d1)%nat)
  /\ (exists d,
         @ImageDataDiff.__init__ sample_external line_a line_b 10 (ratio 1 2)
         = Ok d
         /\ ImageDataDiff.diff_total d = 0%nat).
Proof.
  pose proof (@tolerance_monotone sample_external line_a line_b 10
                eq_refl eq_refl eq_refl) as [Hmono Hzero].
  assert (finite_array binary64 line_a /\ finite_array binary64 line_b)
    as [Hfa Hfb].
  { split; (eexists; split; [reflexivity | ]); cbn [map];
      repeat (constructor; [split; vm_compute; reflexivity | ]); constructor. }
  assert (float_array binary64 line_a /\ float_array binary64 line_b)
    as [Ha Hb].
  { split; (eexists; split; [reflexivity | ]); cbn [map];
      repeat (constructor; [vm_compute; reflexivity | ]); constructor. }
  assert (valid binary64 fzero = true) as Hv0 by reflexivity.
  assert (valid binary64 (ratio 1 2) = true) as Hvt by (vm_compute; reflexivity).
  assert (finite (ratio 1 2) = true) as Hft by (vm_compute; reflexivity).
  assert (SFleb fzero (ratio 1 2) = true) as Hle by (vm_compute; reflexivity).
  assert (max_rel_dev line_a line_b <= float_value (ratio 1 2))%Q as Hmax
    by (vm_compute; discriminate).
  split; [reflexivity | split; [reflexivity | split; [reflexivity | ]]].
  split; [vm_compute; discriminate | split; [exact Hmax | split]].
  - exact (Hmono fzero (ratio 1 2) Hv0 Hvt eq_refl Hle
             (or_intror (ex_intro _ binary64 (ex_intro _ binary64 (conj Ha Hb))))).
  - refine (Hzero (ratio 1 2) Hvt Hft Hfa Hfb _ Hmax).
    intros idx Hv Hb0. exfalso. apply ndindex_valid in Hv.
    destruct Hv as [<- | [<- | []]]; vm_compute in Hb0; discriminate Hb0.
Defined.

(** C8 as stated fails on integer arrays: [ImageDataDiff] compares them
    with tolerance 0 whatever the configured tolerance, so [5] against [7]
    keeps [diff_total = 1] at tolerance 1, although the relative deviation
    is 2/7. *)
Lemma tolerance_ignored_for_integer_arrays :
  ~ (forall (E : External) (a b : ndarray) (numdiffs : Z) (t : float),
        wf_array a -> wf_array b -> shape a = shape b ->
        valid binary64 t = true -> finite t = true ->
        (max_rel_dev a b <= float_value t)%Q ->
        exists d, ImageDataDiff.__init__ a b numdiffs t = Ok d
                  /\ ImageDataDiff.diff_total d = 0%nat).
Proof.
  intros Hclaim.
  destruct (Hclaim sample_external (ints [1] int32 [5]%Z) (ints [1] int32 [7]%Z)
              10%Z (float_of_Z binary64 1))
    as (d & E & T); [reflexivity | reflexivity | reflexivity
                     | vm_compute; reflexivity | vm_compute; reflexivity
                     | vm_compute; discriminate | ].
  vm_compute in E. injection E as <-. discriminate T.
Qed.

(** The restriction to float64 arrays in C8 is needed: on float32 arrays the
    tolerance is rounded to float32 before it is multiplied.  [6.0] against
    [2.75] deviates by 13/11; the tolerance 1.1818181818181819 is not
    below that, but its product with 2.75 in float32 is below 3.25. *)
Example tolerance_rounded_in_float32 :
  let a := singles [1] [float_of_Z binary64 6] in
  let b := singles [1] [ratio 11 4] in
  (max_rel_dev a b <= float_value (ratio 13 11))%Q
  /\ exists d, @ImageDataDiff.__init__ sample_external a b 10 (ratio 13 11) = Ok d
               /\ ImageDataDiff.diff_total d = 1%nat.
Proof.
  split; [vm_compute; discriminate | ].
  eexists. split; [vm_compute; reflexivity | reflexivity].
Qed.

(** So is the restriction to two arrays of floats or two of integers in the
    first part: the absolute value of the least int32 wraps around to
    itself, which makes the threshold negative.  An equal pair is then
    flagged at tolerance 0.5 and not at tolerance 0. *)
Example tolerance_not_monotone_on_mixed_arrays :
  let a := doubles [1] [-2147483648]%Z in
  let b := ints [1] int32 [-2147483648]%Z in
  exists d1 d2,
    @ImageDataDiff.__init__ sample_external a b 10 fzero = Ok d1
    /\ @ImageDataDiff.__init__ sample_external a b 10 (ratio 1 2) = Ok d2
    /\ ImageDataDiff.diff_total d1 = 0%nat
    /\ ImageDataDiff.diff_total d2 = 1%nat.
Proof.
  do 2 eexists. split; [vm_compute; reflexivity | ].
  split; [vm_compute; reflexivity | split; reflexivity].
Qed.

(** ** [HDUDiff] and [FITSDiff] *)

Lemma HDUDiff_identical_spec (d : HDUDiff.t) :
  identical d = true
  <-> HDUDiff.diff_extnames d = None
      /\ HDUDiff.diff_extvers d = None
      /\ HDUDiff.diff_extension_types d = None
      /\ (forall h, HDUDiff.diff_headers d = Some h -> identical h = true)
      /\ (forall dd, HDUDiff.diff_data d = Some dd -> identical dd = true).
Proof.
  unfold identical at 1. unfold __dict__ at 1. unfold HDUDiff.base_diff.
  cbn [List.filter startswith fst snd existsb Ascii.eqb Bool.eqb andb].
  rewrite negb_true_iff, !orb_false_iff.
  split.
  - intros (E1 & E2 & E3 & E4 & E5 & _).
    destruct (HDUDiff.diff_extnames d); [discriminate | ].
    destruct (HDUDiff.diff_extvers d); [discriminate | ].
    destruct (HDUDiff.diff_extension_types d); [discriminate | ].
    repeat split; try done.
    + intros h Eh. rewrite Eh in E4. by apply negb_false_iff in E4.
    + intros dd Ed. rewrite Ed in E5. by apply negb_false_iff in E5.
  - intros (-> & -> & -> & Hh & Hd). repeat split.
    + destruct (HDUDiff.diff_headers d) as [h | ]; [ | reflexivity].
      cbn. by rewrite (Hh h eq_refl).
    + destruct (HDUDiff.diff_data d) as [dd | ]; [ | reflexivity].
      cbn. by rewrite (Hd dd eq_refl).
Qed.

Lemma py_ne_false (a b : pyval) : py_ne a b = false <-> py_equal a b.
Proof. unfold py_ne. by rewrite negb_false_iff, py_eq_spec. Qed.

(** C9. When at least one of two HDUs has no data, [HDUDiff] is built
    without a data comparison ([diff_data] stays [None]) and no [diff_*]
    attribute records that one side alone may carry data: the pair is
    identical exactly when the names, the EXTVER and XTENSION values and the
    headers match. *)
Theorem missing_data_is_not_a_difference `{External} (a b : HDU.t)
    (ignore_keywords ignore_comments ignore_fields : gset string)
    (numdiffs : Z) (tolerance : float) (ignore_blanks : bool) :
  HDU.data a = None \/ HDU.data b = None ->
  exists d,
    HDUDiff.__init__ a b ignore_keywords ignore_comments ignore_fields
      numdiffs tolerance ignore_blanks = Ok d
    /\ HDUDiff.diff_data d = None
    /\ (identical d = true
        <-> HDU.name a = HDU.name b
            /\ py_equal (Header_get (HDU.header a) "EXTVER")
                        (Header_get (HDU.header b) "EXTVER")
            /\ py_equal (Header_get (HDU.header a) "XTENSION")
                        (Header_get (HDU.header b) "XTENSION")
            /\ identical (HeaderDiff.__init__ (HDU.header a) (HDU.header b)
                            ignore_keywords ignore_comments tolerance
                            ignore_blanks) = true).
Proof.
  intros Hnone.
  unfold HDUDiff.__init__, HDUDiff._diff.
  assert (forall self et, HDUDiff.a self = a -> HDUDiff.b self = b ->
            HDUDiff.diff_data self = None ->
            HDUDiff.select_data_diff self et = Ok None) as Hsel.
  { intros self et Ea Eb Ed. unfold HDUDiff.select_data_diff.
    rewrite Ea, Eb, Ed.
    destruct Hnone as [-> | ->]; [reflexivity | ].
    by destruct (HDU.data a). }
  rewrite Hsel by reflexivity.
  eexists. split; [reflexivity | ]. split; [reflexivity | ].
  rewrite HDUDiff_identical_spec. cbn.
  rewrite <- !py_ne_false, <- String.eqb_eq.
  destruct (String.eqb (HDU.name a) (HDU.name b)),
    (py_ne (Header_get (HDU.header a) "EXTVER") _),
    (py_ne (Header_get (HDU.header a) "XTENSION") _); cbn;
    split; try (intros (? & ? & ? & ?); discriminate);
    try (intros (? & ? & ? & ? & ?); discriminate).
  - intros (_ & _ & _ & Hh & _). repeat split. by apply Hh.
  - intros (_ & _ & _ & Hh). repeat split; try done. by intros h [= <-].
Qed.

Lemma missing_data_is_not_a_difference_witness :
  (HDU.data (primary (Some (ArrayData (ints [2] int32 [1; 2]%Z)))) = None
   \/ HDU.data (primary None) = None)
  /\ exists d,
      @HDUDiff.__init__ sample_external
        (primary (Some (ArrayData (ints [2] int32 [1; 2]%Z)))) (primary None)
        ∅ ∅ ∅ 10 fzero true = Ok d
      /\ HDUDiff.diff_data d = None.
Proof.
  split; [by right | ].
  destruct (@missing_data_is_not_a_difference sample_external
              (primary (Some (ArrayData (ints [2] int32 [1; 2]%Z))))
              (primary None) ∅ ∅ ∅ 10 fzero true) as (d & E & Hd & _);
    [by right | ].
  exists d. by split.
Defined.

Lemma bind_Ok {A B : Type} (m : result A) (k : A -> result B) (y : B) :
  (x ← m; k x) = Ok y -> exists x, m = Ok x /\ k x = Ok y.
Proof. destruct m as [x | e]; [ | discriminate]. intros E. by exists x. Qed.

(** Inversion of a successful monadic step [x ← m; k x = Ok y] in a
    hypothesis. *)
Ltac bind_inv E x Ex :=
  apply bind_Ok in E as (x & Ex & E).

Lemma mapM_Ok_In {A B : Type} (f : A -> result B) (l : list A)
    (ys : list B) (y : B) :
  mapM f l = Ok ys -> In y ys -> exists x, In x l /\ f x = Ok y.
Proof.
  revert ys. induction l as [ | x l IH]; intros ys E Hin.
  - injection E as <-. destruct Hin.
  - cbn in E. bind_inv E y0 Ef. bind_inv E ys0 El.
    injection E as <-. destruct Hin as [<- | Hin].
    + exists x. split; [by left | exact Ef].
    + destruct (IH ys0 El Hin) as (x' & Hx' & Ex').
      exists x'. split; [by right | exact Ex'].
Qed.

Lemma HeaderDiff_diff_keeps_options `{External} (self : HeaderDiff.t) :
  let d := HeaderDiff._diff self in
  HeaderDiff.ignore_keywords d = HeaderDiff.ignore_keywords self
  /\ HeaderDiff.ignore_comments d = HeaderDiff.ignore_comments self
  /\ HeaderDiff.ignore_keyword_patterns d = HeaderDiff.ignore_keyword_patterns self
  /\ HeaderDiff.ignore_comment_patterns d = HeaderDiff.ignore_comment_patterns self
  /\ HeaderDiff.tolerance d = HeaderDiff.tolerance self
  /\ HeaderDiff.ignore_blanks d = HeaderDiff.ignore_blanks self.
Proof.
  unfold HeaderDiff._diff.
  destruct (HeaderDiff.get_header_values_comments self (HeaderDiff.a self)).
  destruct (HeaderDiff.get_header_values_comments self (HeaderDiff.b self)).
  destruct (bool_decide _); [by cbn | ].
  destruct (foldl _ _ _) as [[? ?] ?]. by cbn.
Qed.

Lemma split_patterns (X : gset string) :
  filter (fun k => HeaderDiff.is_pattern k = false) X
  ∪ filter (fun k => HeaderDiff.is_pattern k = true) X = X.
Proof.
  apply set_eq. intros k. rewrite elem_of_union, !elem_of_filter.
  destruct (HeaderDiff.is_pattern k); intuition congruence.
Qed.

(** The options a [HeaderDiff] ends up with. *)
Lemma HeaderDiff_options `{External} (a b : Header)
    (ignore_keywords ignore_comments : gset string) (tolerance : float)
    (ignore_blanks : bool) :
  let h := HeaderDiff.__init__ a b ignore_keywords ignore_comments
             tolerance ignore_blanks in
  HeaderDiff.ignore_keywords h ∪ HeaderDiff.ignore_keyword_patterns h
  = ignore_keywords
  /\ HeaderDiff.ignore_comments h ∪ HeaderDiff.ignore_comment_patterns h
     = ignore_comments
  /\ HeaderDiff.tolerance h = tolerance
  /\ HeaderDiff.ignore_blanks h = ignore_blanks.
Proof.
  unfold HeaderDiff.__init__.
  match goal with
  | |- context [HeaderDiff._diff ?self] =>
      destruct (HeaderDiff_diff_keeps_options self)
        as (-> & -> & -> & -> & -> & ->)
  end.
  cbn. by rewrite !split_patterns.
Qed.

Lemma ImageDataDiff_keeps_options `{External} (a b : ndarray) (n : Z) (t : float)
    (d : ImageDataDiff.t) :
  ImageDataDiff.__init__ a b n t = Ok d ->
  ImageDataDiff.numdiffs d = n /\ ImageDataDiff.tolerance d = t.
Proof.
  unfold ImageDataDiff.__init__, ImageDataDiff._diff.
  destruct (negb _); [by intros [= <-] | ].
  destruct (_ =? _)%nat; [by intros [= <-] | ].
  intros E. bind_inv E rt Er. by injection E as <-.
Qed.

Lemma RawDataDiff_options `{External} (a b : ndarray) (n : Z) (d : RawDataDiff.t) :
  RawDataDiff.__init__ a b n = Ok d ->
  RawDataDiff.numdiffs d = n /\ RawDataDiff.tolerance d = fzero.
Proof.
  unfold RawDataDiff.__init__. fold (ImageDataDiff.__init__ a b n fzero).
  intros E. bind_inv E super Es.
  apply ImageDataDiff_keeps_options in Es as [En Et].
  unfold RawDataDiff._diff in E.
  bind_inv E dimensions Ed. bind_inv E bytes Eb.
  injection E as <-. by cbn.
Qed.

Lemma TableDataDiff_keeps_options `{External} (a b : FITS_rec)
    (ign : gset string) (n : Z) (tol : float) (d : TableDataDiff.t) :
  TableDataDiff.__init__ a b ign n tol = Ok d ->
  TableDataDiff.ignore_fields d = ign
  /\ TableDataDiff.numdiffs d = n
  /\ TableDataDiff.tolerance d = tol.
Proof.
  unfold TableDataDiff.__init__, TableDataDiff._diff.
  destruct (bool_decide _); [by intros [= <-] | ].
  destruct (bool_decide _ && bool_decide _);
    intros E; bind_inv E st Ef; bind_inv E rt Er; by injection E as <-.
Qed.

(** The data comparison an [HDUDiff] selects, with the options it is
    constructed with: the cap and the tolerance of the [HDUDiff] for an
    image; for the calls [TableDataDiff(self.a.data, self.b.data)] and
    [RawDataDiff(self.a.data, self.b.data)] the defaults of the callee (no
    ignored field, cap 10, tolerance 0). *)
Lemma select_data_diff_options `{External} (self : HDUDiff.t)
    (et : option (pyval * pyval)) (data : option data_diff) :
  HDUDiff.select_data_diff self et = Ok data ->
  HDUDiff.diff_data self = None ->
  match data with
  | None => True
  | Some (ImageDiff i) =>
      ImageDataDiff.numdiffs i = HDUDiff.numdiffs self
      /\ ImageDataDiff.tolerance i = HDUDiff.tolerance self
  | Some (TableDiff t) =>
      TableDataDiff.ignore_fields t = ∅
      /\ TableDataDiff.numdiffs t = 10%Z
      /\ TableDataDiff.tolerance t = fzero
  | Some (RawDiff r) =>
      RawDataDiff.numdiffs r = 10%Z /\ RawDataDiff.tolerance r = fzero
  end.
Proof.
  unfold HDUDiff.select_data_diff. intros E Hnone. rewrite Hnone in E.
  destruct (HDU.data (HDUDiff.a self)) as [da | ]; [ | by injection E as <-].
  destruct (HDU.data (HDUDiff.b self)) as [db | ]; [ | by injection E as <-].
  destruct (_ && _).
  { bind_inv E x Ex. bind_inv E y Ey. bind_inv E d Ed. injection E as <-.
    by apply ImageDataDiff_keeps_options in Ed. }
  destruct (_ && _).
  { bind_inv E x Ex. bind_inv E y Ey. bind_inv E d Ed. injection E as <-.
    by apply TableDataDiff_keeps_options in Ed. }
  destruct (negb _); [ | by injection E as <-].
  bind_inv E x Ex. bind_inv E y Ey. bind_inv E d Ed. injection E as <-.
  by apply RawDataDiff_options in Ed.
Qed.

(** What a constructed [HDUDiff] holds. *)
Lemma HDUDiff_options `{External} (a b : HDU.t)
    (ignore_keywords ignore_comments ignore_fields : gset string)
    (numdiffs : Z) (tolerance : float) (ignore_blanks : bool) (d : HDUDiff.t) :
  HDUDiff.__init__ a b ignore_keywords ignore_comments ignore_fields
    numdiffs tolerance ignore_blanks = Ok d ->
  (HDUDiff.ignore_keywords d = ignore_keywords
   /\ HDUDiff.ignore_comments d = ignore_comments
   /\ HDUDiff.ignore_fields d = ignore_fields
   /\ HDUDiff.numdiffs d = numdiffs
   /\ HDUDiff.tolerance d = tolerance
   /\ HDUDiff.ignore_blanks d = ignore_blanks)
  /\ HDUDiff.diff_headers d
     = Some (HeaderDiff.__init__ (HDU.header a) (HDU.header b)
               ignore_keywords ignore_comments tolerance ignore_blanks)
  /\ match HDUDiff.diff_data d with
     | None => True
     | Some (ImageDiff i) =>
         ImageDataDiff.numdiffs i = numdiffs
         /\ ImageDataDiff.tolerance i = tolerance
     | Some (TableDiff t) =>
         TableDataDiff.ignore_fields t = ∅
         /\ TableDataDiff.numdiffs t = 10%Z
         /\ TableDataDiff.tolerance t = fzero
     | Some (RawDiff r) =>
         RawDataDiff.numdiffs r = 10%Z /\ RawDataDiff.tolerance r = fzero
     end.
Proof.
  unfold HDUDiff.__init__, HDUDiff._diff. intros E. bind_inv E data Es.
  injection E as <-. cbn. split; [done | ]. split; [done | ].
  by apply select_data_diff_options in Es.
Qed.

(** C2 (amended). [FITSDiff] hands its configuration unchanged to every
    [HDUDiff] it constructs.  Each [HDUDiff] hands the keyword and comment
    ignore sets, the tolerance and the blank flag to its [HeaderDiff]
    (which splits each ignore set into exact names and patterns) and the
    cap and the tolerance to an [ImageDataDiff]; a [RawDataDiff] takes no
    tolerance and always compares with tolerance 0. *)
Theorem configuration_threading `{External} (a b : list HDU.t)
    (ignore_keywords ignore_comments ignore_fields : gset string)
    (numdiffs : Z) (tolerance : float) (ignore_blanks : bool)
    (diffs : list (nat * HDUDiff.t)) :
  FITSDiff.hdu_diffs
    (FITSDiff.initial a b ignore_keywords ignore_comments ignore_fields
       numdiffs tolerance ignore_blanks) = Ok diffs ->
  forall idx d, In (idx, d) diffs ->
    (HDUDiff.ignore_keywords d = ignore_keywords
     /\ HDUDiff.ignore_comments d = ignore_comments
     /\ HDUDiff.ignore_fields d = ignore_fields
     /\ HDUDiff.numdiffs d = numdiffs
     /\ HDUDiff.tolerance d = tolerance
     /\ HDUDiff.ignore_blanks d = ignore_blanks)
    /\ (exists h, HDUDiff.diff_headers d = Some h
          /\ HeaderDiff.ignore_keywords h ∪ HeaderDiff.ignore_keyword_patterns h
             = ignore_keywords
          /\ HeaderDiff.ignore_comments h ∪ HeaderDiff.ignore_comment_patterns h
             = ignore_comments
          /\ HeaderDiff.tolerance h = tolerance
          /\ HeaderDiff.ignore_blanks h = ignore_blanks)
    /\ (forall i, HDUDiff.diff_data d = Some (ImageDiff i) ->
          ImageDataDiff.numdiffs i = numdiffs
          /\ ImageDataDiff.tolerance i = tolerance)
    /\ (forall r, HDUDiff.diff_data d = Some (RawDiff r) ->
          RawDataDiff.tolerance r = fzero).
Proof.
  intros E idx d Hin. unfold FITSDiff.hdu_diffs in E.
  destruct (mapM_Ok_In _ _ _ _ E Hin) as (i & _ & Ei). clear E Hin.
  cbn in Ei. bind_inv Ei x Ex. bind_inv Ei y Ey. bind_inv Ei d' Ed.
  injection Ei as _ <-.
  apply HDUDiff_options in Ed as (Hopt & Hh & Hdata).
  split; [exact Hopt | ]. split; [ | split].
  - eexists. split; [exact Hh | ]. apply HeaderDiff_options.
  - intros img Ei. by rewrite Ei in Hdata.
  - intros raw Er. rewrite Er in Hdata. by destruct Hdata.
Qed.

Lemma configuration_threading_witness :
  exists diffs,
    @FITSDiff.hdu_diffs sample_external
      (FITSDiff.initial [raw_extension [1; 2]%Z] [raw_extension [1; 3]%Z]
         ∅ ∅ ∅ 10 (ratio 1 2) true) = Ok diffs
    /\ forall idx d, In (idx, d) diffs ->
         HDUDiff.tolerance d = ratio 1 2
         /\ forall r, HDUDiff.diff_data d = Some (RawDiff r) ->
              RawDataDiff.tolerance r = fzero.
Proof.
  destruct (@FITSDiff.hdu_diffs sample_external
              (FITSDiff.initial [raw_extension [1; 2]%Z] [raw_extension [1; 3]%Z]
                 ∅ ∅ ∅ 10 (ratio 1 2) true)) as [diffs | e] eqn:E;
    [ | vm_compute in E; discriminate E].
  exists diffs. split; [reflexivity | ].
  intros idx d Hin.
  destruct (@configuration_threading sample_external _ _ _ _ _ _ _ _ _ E idx d Hin)
    as ((_ & _ & _ & _ & Ht & _) & _ & _ & Hraw).
  by split.
Defined.

(** C2 as stated fails for raw data: [RawDataDiff] has no tolerance
    parameter, so the [RawDataDiff] of two HDUs of an unrecognised type
    holds tolerance 0.0 when the file diff was configured with 0.5. *)
Lemma raw_data_diff_takes_no_tolerance :
  ~ (forall (E : External) (a b : list HDU.t)
            (ignore_keywords ignore_comments ignore_fields : gset string)
            (numdiffs : Z) (tolerance : float) (ignore_blanks : bool)
            (diffs : list (nat * HDUDiff.t)),
        FITSDiff.hdu_diffs
          (FITSDiff.initial a b ignore_keywords ignore_comments ignore_fields
             numdiffs tolerance ignore_blanks) = Ok diffs ->
        forall idx d r, In (idx, d) diffs ->
          HDUDiff.diff_data d = Some (RawDiff r) ->
          RawDataDiff.numdiffs r = numdiffs
          /\ RawDataDiff.tolerance r = tolerance).
Proof.
  intros Hclaim.
  destruct (@FITSDiff.hdu_diffs sample_external
              (FITSDiff.initial [raw_extension [1; 2]%Z] [raw_extension [1; 3]%Z]
                 ∅ ∅ ∅ 10 (ratio 1 2) true)) as [diffs | e] eqn:E;
    [ | vm_compute in E; discriminate E].
  pose proof (Hclaim sample_external _ _ _ _ _ _ _ _ _ E) as Hall.
  vm_compute in E. injection E as <-.
  edestruct (Hall 0%nat) as [_ Ht]; [by left | reflexivity | ].
  vm_compute in Ht. discriminate Ht.
Qed.

(** ** The column loop of [TableDataDiff] *)

Lemma seq_sorted (s n : nat) : StronglySorted lt (seq s n).
Proof.
  revert s. induction n as [ | n IH]; intros s; simpl; constructor; [apply IH | ].
  apply Forall_forall. intros x Hx. apply list_elem_of_In, in_seq in Hx. lia.
Qed.

Lemma StronglySorted_weaken {A : Type} (R S : relation A) (l : list A) :
  (forall x y, R x y -> S x y) -> StronglySorted R l -> StronglySorted S l.
Proof.
  intros HRS. induction 1 as [ | x l Hs IH Hx]; constructor; [exact IH | ].
  eapply Forall_impl; [exact Hx | ]. intros y. apply HRS.
Qed.

Lemma StronglySorted_lt_NoDup (l : list nat) : StronglySorted lt l -> NoDup l.
Proof.
  induction 1 as [ | x l Hs IH Hx]; constructor; [ | exact IH].
  intros Hin. rewrite Forall_forall in Hx. specialize (Hx x Hin). lia.
Qed.

Lemma lex_sorted_heads (l : list (list nat)) :
  StronglySorted lex_lt l -> StronglySorted le (map (hd 0%nat) l).
Proof.
  induction 1 as [ | x l Hs IH Hx]; simpl; constructor; [exact IH | ].
  apply Forall_map. eapply Forall_impl; [exact Hx | ].
  intros y Hy. destruct Hy; simpl; lia.
Qed.

Lemma lex_sorted_heads_strict (l : list (list nat)) :
  StronglySorted lex_lt l -> Forall (fun x => length x = 1%nat) l ->
  StronglySorted lt (map (hd 0%nat) l).
Proof.
  induction 1 as [ | x l Hs IH Hx]; intros Hlen; simpl; constructor.
  - apply IH. by inversion Hlen.
  - apply Forall_map. apply Forall_forall. intros y Hy.
    rewrite Forall_forall in Hx. specialize (Hx y Hy).
    destruct Hx as [i j l0 l1 Hij | i l0 l1 Hl]; [exact Hij | ].
    exfalso. inversion Hlen as [ | ? ? Hx1 _]; subst.
    destruct l0; [inversion Hl | discriminate Hx1].
Qed.

Lemma ndindex_length (sh idx : list nat) :
  In idx (ndindex sh) -> length idx = length sh.
Proof. rewrite ndindex_valid. apply Forall2_length. Qed.

Lemma filter_ndindex_lengths (p : list nat -> bool) (sh : list nat) :
  length sh = 1%nat ->
  Forall (fun x => length x = 1%nat) (List.filter p (ndindex sh)).
Proof.
  intros Hsh. apply Forall_forall. intros x Hx.
  apply list_elem_of_In, filter_In in Hx as [Hx _].
  by rewrite (ndindex_length _ _ Hx).
Qed.

Lemma column_diffs_sorted `{External} (tol : float) (col : Column) (ca cb : colarray)
    (l : list nat) :
  column_diffs tol col ca cb = Ok l -> StronglySorted le l.
Proof.
  assert (forall n p, StronglySorted le (rows_where n p)) as Hrows.
  { intros n p. apply (StronglySorted_weaken lt); [lia | ].
    apply StronglySorted_filter, seq_sorted. }
  unfold column_diffs. destruct (negb (comparable ca cb)); [discriminate | ].
  destruct (col_is_float ca && col_is_float cb);
    [ | destruct (str_contains _ _)];
    destruct ca, cb; try discriminate; intros [= <-]; try apply Hrows;
    try rewrite where_not_allclose_deviating;
    apply lex_sorted_heads, StronglySorted_filter, ndindex_sorted.
Qed.

Lemma column_diffs_strict `{External} (tol : float) (col : Column) (ca cb : colarray)
    (l : list nat) :
  scalar_cells ca -> column_diffs tol col ca cb = Ok l -> StronglySorted lt l.
Proof.
  assert (forall n p, StronglySorted lt (rows_where n p)) as Hrows
    by (intros n p; apply StronglySorted_filter, seq_sorted).
  intros Hsc. unfold column_diffs.
  destruct (negb (comparable ca cb)); [discriminate | ].
  destruct (col_is_float ca && col_is_float cb);
    [ | destruct (str_contains _ _)];
    destruct ca, cb; try discriminate; intros [= <-]; try apply Hrows;
    try rewrite where_not_allclose_deviating;
    (apply lex_sorted_heads_strict;
     [apply StronglySorted_filter, ndindex_sorted
     | by apply filter_ndindex_lengths]).
Qed.

Lemma column_diffs_ok `{External} (tol : float) (col : Column) (ca cb : colarray) :
  comparable ca cb = true -> well_typed col ca = true ->
  exists l, column_diffs tol col ca cb = Ok l.
Proof.
  intros Hc Hw. unfold column_diffs. rewrite Hc. cbn [negb].
  destruct ca, cb; try discriminate Hc; cbn in Hw; cbn [col_is_float andb].
  - destruct (_ && _); [by eexists | ]. destruct (str_contains _ _); by eexists.
  - apply negb_true_iff in Hw. rewrite Hw. by eexists.
  - rewrite Hw. by eexists.
Qed.

(** The [last_seen_idx] filter on a list of row numbers in increasing
    order. *)
Lemma skip_seen_length (last : option nat) (l : list nat) :
  (length (skip_seen last l) <= length l)%nat.
Proof.
  revert last. induction l as [ | x l IH]; intros last; simpl; [lia | ].
  destruct (bool_decide _); simpl.
  - specialize (IH last). lia.
  - specialize (IH (Some x)). lia.
Qed.

Lemma skip_seen_elem (last : option nat) (l : list nat) (x : nat) :
  In x (skip_seen last l) -> In x l.
Proof.
  revert last. induction l as [ | y l IH]; intros last; simpl; [done | ].
  destruct (bool_decide _); simpl.
  - intros Hin. right. by apply (IH last).
  - intros [-> | Hin]; [by left | right; by apply (IH (Some y))].
Qed.

Lemma skip_seen_sorted_above (p : nat) (l : list nat) :
  StronglySorted le l -> Forall (le p) l ->
  StronglySorted lt (skip_seen (Some p) l)
  /\ Forall (lt p) (skip_seen (Some p) l).
Proof.
  intros Hs. revert p. induction Hs as [ | x l Hs IH Hx]; intros p Hp; simpl.
  - split; constructor.
  - inversion Hp as [ | ? ? Hpx Hpl]; subst.
    case_bool_decide as E.
    + by apply IH.
    + assert (p < x)%nat by (assert (x <> p) by congruence; lia).
      destruct (IH x Hx) as [IH1 IH2]. split.
      * by constructor.
      * constructor; [done | ]. eapply Forall_impl; [exact IH2 | ].
        intros y Hy. simpl in Hy. lia.
Qed.

Lemma skip_seen_sorted (l : list nat) :
  StronglySorted le l -> StronglySorted lt (skip_seen None l).
Proof.
  intros Hs. destruct Hs as [ | x l Hs Hx]; simpl; [constructor | ].
  destruct (skip_seen_sorted_above x l Hs Hx). by constructor.
Qed.

Lemma skip_seen_strict_above (p : nat) (l : list nat) :
  StronglySorted lt l -> Forall (lt p) l -> skip_seen (Some p) l = l.
Proof.
  intros Hs. revert p. induction Hs as [ | x l Hs IH Hx]; intros p Hp; simpl;
    [reflexivity | ].
  inversion Hp as [ | ? ? Hpx Hpl]; subst.
  rewrite bool_decide_false by (intros [= ->]; lia).
  by rewrite IH.
Qed.

Lemma skip_seen_strict (l : list nat) :
  StronglySorted lt l -> skip_seen None l = l.
Proof.
  intros Hs. destruct Hs as [ | x l Hs Hx]; simpl; [reflexivity | ].
  by rewrite skip_seen_strict_above.
Qed.

Lemma StronglySorted_take {A : Type} (R : relation A) (n : nat) (l : list A) :
  StronglySorted R l -> StronglySorted R (take n l).
Proof.
  intros Hs. rewrite <- (take_drop n l) in Hs.
  by apply StronglySorted_app_1_l in Hs.
Qed.

Lemma remove_dups_NoDup (l : list nat) : NoDup l -> remove_dups l = l.
Proof.
  induction 1 as [ | x l Hx Hnd IH]; simpl; [reflexivity | ].
  destruct (decide_rel elem_of x l); [contradiction | by rewrite IH].
Qed.

(** The rows sampled from one column: at most the room left under the cap
    and at most the rows counted into [diff_total]. *)
Lemma sampled_le (diffs : list nat) (m : nat) :
  StronglySorted le diffs ->
  (length (skip_seen None (take m diffs)) <= m `min` length (remove_dups diffs))%nat.
Proof.
  intros Hs.
  assert (length (skip_seen None (take m diffs)) <= m)%nat.
  { pose proof (skip_seen_length None (take m diffs)).
    pose proof (length_take diffs m). lia. }
  assert (length (skip_seen None (take m diffs))
          <= length (remove_dups diffs))%nat.
  { apply submseteq_length, NoDup_submseteq.
    - by apply StronglySorted_lt_NoDup, skip_seen_sorted, StronglySorted_take.
    - intros x Hx. apply elem_of_remove_dups.
      apply list_elem_of_In, skip_seen_elem in Hx.
      apply list_elem_of_In in Hx. by apply elem_of_take in Hx as (i & Hi & _);
        eapply list_elem_of_lookup_2. }
  lia.
Qed.

Lemma sampled_eq (diffs : list nat) (m : nat) :
  StronglySorted lt diffs ->
  length (skip_seen None (take m diffs)) = (m `min` length (remove_dups diffs))%nat.
Proof.
  intros Hs.
  rewrite skip_seen_strict by (by apply StronglySorted_take).
  rewrite remove_dups_NoDup by (by apply StronglySorted_lt_NoDup).
  apply length_take.
Qed.

Lemma foldM_invariant {A S : Type} (f : S -> A -> result S) (P : S -> Prop)
    (l : list A) :
  (forall s x s', In x l -> f s x = Ok s' -> P s -> P s') ->
  forall s s', foldM f s l = Ok s' -> P s -> P s'.
Proof.
  induction l as [ | x l IH]; intros Hstep s s'; cbn.
  - by intros [= <-].
  - destruct (f s x) as [s1 | e] eqn:E; [ | discriminate]. cbn.
    intros Ef Hs. apply (IH (fun s0 y s0' Hy => Hstep s0 y s0' (or_intror Hy)) s1 s' Ef).
    by apply (Hstep s x s1 (or_introl eq_refl) E).
Qed.

Lemma foldM_ok {A S : Type} (f : S -> A -> result S) (l : list A) :
  (forall s x, In x l -> exists s', f s x = Ok s') ->
  forall s, exists s', foldM f s l = Ok s'.
Proof.
  induction l as [ | x l IH]; intros Hstep s; cbn.
  - by eexists.
  - destruct (Hstep s x (or_introl eq_refl)) as [s1 ->]. cbn.
    apply IH. intros s0 y Hy. apply Hstep. by right.
Qed.

Lemma diff_column_cap `{External} (self : TableDataDiff.t) (ign : gset string)
    (st st' : nat * list TableDataDiff.sample) (col : Column) :
  (0 <= TableDataDiff.numdiffs self)%Z ->
  TableDataDiff.diff_column self ign st col = Ok st' ->
  (length st.2 <= Z.to_nat (TableDataDiff.numdiffs self) `min` st.1)%nat ->
  (length st'.2 <= Z.to_nat (TableDataDiff.numdiffs self) `min` st'.1)%nat.
Proof.
  intros Hn. unfold TableDataDiff.diff_column. destruct st as [total values].
  destruct (bool_decide _); [by intros [= <-] | ].
  destruct (column_diffs _ _ _ _) as [diffs | e] eqn:Ed; [ | discriminate].
  cbn. apply column_diffs_sorted in Ed.
  assert ((0 <=? TableDataDiff.numdiffs self)%Z = true) as -> by lia.
  cbn [andb]. destruct (_ <=? _)%Z eqn:Ecap.
  - intros [= <-]. cbn. lia.
  - intros [= <-]. cbn. rewrite length_app, length_map. unfold islice.
    pose proof (sampled_le diffs
                  (Z.to_nat (TableDataDiff.numdiffs self - Z.of_nat (length values)))
                  Ed).
    lia.
Qed.

Lemma diff_column_cap_exact `{External} (self : TableDataDiff.t) (ign : gset string)
    (st st' : nat * list TableDataDiff.sample) (col : Column) :
  (0 <= TableDataDiff.numdiffs self)%Z ->
  scalar_cells (field (TableDataDiff.a self) (name col)) ->
  TableDataDiff.diff_column self ign st col = Ok st' ->
  length st.2 = (Z.to_nat (TableDataDiff.numdiffs self) `min` st.1)%nat ->
  length st'.2 = (Z.to_nat (TableDataDiff.numdiffs self) `min` st'.1)%nat.
Proof.
  intros Hn Hsc. unfold TableDataDiff.diff_column. destruct st as [total values].
  destruct (bool_decide _); [by intros [= <-] | ].
  destruct (column_diffs _ _ _ _) as [diffs | e] eqn:Ed; [ | discriminate].
  cbn. apply (column_diffs_strict _ _ _ _ _ Hsc) in Ed.
  assert ((0 <=? TableDataDiff.numdiffs self)%Z = true) as -> by lia.
  cbn [andb]. destruct (_ <=? _)%Z eqn:Ecap.
  - intros [= <-]. cbn. lia.
  - intros [= <-]. cbn. rewrite length_app, length_map. unfold islice.
    rewrite (sampled_eq diffs _ Ed). lia.
Qed.

Lemma diff_column_total `{External} (self1 self2 : TableDataDiff.t) (ign : gset string)
    (st1 st2 st1' st2' : nat * list TableDataDiff.sample) (col : Column) :
  TableDataDiff.a self1 = TableDataDiff.a self2 ->
  TableDataDiff.b self1 = TableDataDiff.b self2 ->
  TableDataDiff.tolerance self1 = TableDataDiff.tolerance self2 ->
  st1.1 = st2.1 ->
  TableDataDiff.diff_column self1 ign st1 col = Ok st1' ->
  TableDataDiff.diff_column self2 ign st2 col = Ok st2' ->
  st1'.1 = st2'.1.
Proof.
  intros Ea Eb Et E1. unfold TableDataDiff.diff_column.
  destruct st1 as [total1 values1], st2 as [total2 values2]. cbn in E1. subst.
  destruct (bool_decide _); [by intros [= <-] [= <-] | ].
  rewrite Ea, Eb, Et.
  destruct (column_diffs _ _ _ _) as [diffs | e]; [ | discriminate]. cbn.
  destruct (_ && _), (_ && _); by intros [= <-] [= <-].
Qed.

Lemma foldM_diff_column_total `{External} (self1 self2 : TableDataDiff.t)
    (ign : gset string) (l : list Column) :
  TableDataDiff.a self1 = TableDataDiff.a self2 ->
  TableDataDiff.b self1 = TableDataDiff.b self2 ->
  TableDataDiff.tolerance self1 = TableDataDiff.tolerance self2 ->
  forall st1 st2 st1' st2',
    st1.1 = st2.1 ->
    foldM (TableDataDiff.diff_column self1 ign) st1 l = Ok st1' ->
    foldM (TableDataDiff.diff_column self2 ign) st2 l = Ok st2' ->
    st1'.1 = st2'.1.
Proof.
  intros Ea Eb Et. induction l as [ | col l IH]; intros st1 st2 st1' st2' E; cbn.
  - by intros [= <-] [= <-].
  - destruct (TableDataDiff.diff_column self1 ign st1 col) as [s1 | ] eqn:E1;
      [ | discriminate].
    destruct (TableDataDiff.diff_column self2 ign st2 col) as [s2 | ] eqn:E2;
      [ | discriminate].
    cbn. apply IH. by apply (diff_column_total _ _ _ _ _ _ _ _ Ea Eb Et E E1 E2).
Qed.

(** The columns that are compared come from the first table. *)
Lemma column_set_In `{External} (cols : list Column) (col : Column) :
  In col (column_set cols) -> In col cols.
Proof.
  unfold column_set.
  assert (forall acc, In col (foldl (fun s c => if column_in c s then s else s ++ [c])
                                acc cols) -> In col acc \/ In col cols) as Hgen.
  { induction cols as [ | c cols IH]; intros acc; cbn; [by left | ].
    intros Hin. apply IH in Hin as [Hin | Hin]; [ | by right; right].
    destruct (column_in c acc); [by left | ].
    apply in_app_iff in Hin as [Hin | [<- | []]]; [by left | by right; left]. }
  intros Hin. by apply Hgen in Hin as [[] | Hin].
Qed.

Lemma remove_ignored_In (ign : gset string) (cols : list Column) (col : Column) :
  In col (TableDataDiff.remove_ignored ign cols) -> In col cols.
Proof.
  unfold TableDataDiff.remove_ignored.
  apply (set_fold_ind_L (fun r _ => In col r -> In col cols)); [done | ].
  intros fieldname X r _ IH Hin. apply filter_In in Hin as [Hin _]. by apply IH.
Qed.

Lemma compared_columns_In `{External} (ign : gset string) (a b : FITS_rec)
    (col : Column) :
  In col (sorted_columns
            (column_intersection
               (TableDataDiff.remove_ignored ign (column_set (columns a)))
               (TableDataDiff.remove_ignored ign (column_set (columns b))))) ->
  In col (columns a).
Proof.
  intros Hin. apply (Permutation_in _ (sorted_columns_perm _)) in Hin.
  apply filter_In in Hin as [Hin _].
  by apply remove_ignored_In, column_set_In in Hin.
Qed.

(** What [TableDataDiff.__init__] returns when it returns: nothing under
    the wildcard, else the state the column loop ends in. *)
Lemma TableDataDiff_result `{External} (a b : FITS_rec) (ign : gset string)
    (n : Z) (tol : float) (d : TableDataDiff.t) :
  TableDataDiff.__init__ a b ign n tol = Ok d ->
  (("*" ∈ ign) /\ TableDataDiff.diff_total d = 0%nat
   /\ TableDataDiff.diff_values d = [])
  \/ (("*" ∉ ign)
      /\ exists st,
          foldM (TableDataDiff.diff_column (TableDataDiff.initial a b ign n tol)
                   (set_map str_lower ign))
                (0%nat, [])
                (sorted_columns
                   (column_intersection
                      (TableDataDiff.remove_ignored (set_map str_lower ign)
                         (column_set (columns a)))
                      (TableDataDiff.remove_ignored (set_map str_lower ign)
                         (column_set (columns b))))) = Ok st
          /\ TableDataDiff.diff_total d = st.1
          /\ TableDataDiff.diff_values d = st.2).
Proof.
  unfold TableDataDiff.__init__, TableDataDiff._diff.
  cbn [TableDataDiff.initial TableDataDiff.a TableDataDiff.b
       TableDataDiff.ignore_fields TableDataDiff.diff_total
       TableDataDiff.diff_values TableDataDiff.diff_columns
       TableDataDiff.diff_column_names].
  case_bool_decide as Estar.
  - intros [= <-]. left. by cbn.
  - destruct (bool_decide _ && bool_decide _).
    + destruct (foldM _ _ _) as [st | e] eqn:Ef; [ | discriminate]. cbn.
      destruct (py_fdiv _ _); [ | discriminate]. cbn.
      intros [= <-]. right. split; [done | ]. exists st. by cbn.
    + destruct (foldM _ _ _) as [st | e] eqn:Ef; [ | discriminate]. cbn.
      destruct (py_fdiv _ _); [ | discriminate]. cbn.
      intros [= <-]. right. split; [done | ]. exists st. by cbn.
Qed.

(** ** The cap on the sampled differences *)

(** What holds of the cap [numdiffs >= 0].  [ImageDataDiff] on two arrays
    of one shape stores [min(numdiffs, diff_total)] pixels, and [diff_total]
    is the number of deviating positions whatever the cap.  [TableDataDiff]
    stores at most [min(numdiffs, diff_total)] values, and exactly that many
    when every cell of the first table's columns holds one value; its
    [diff_total] does not depend on the cap either. *)
Theorem cap_invariant :
  (forall (E : External) (a b : ndarray) (numdiffs : Z) (tolerance : float),
      wf_array a -> shape a = shape b -> (0 <= numdiffs)%Z ->
      exists d,
        ImageDataDiff.__init__ a b numdiffs tolerance = Ok d
        /\ length (ImageDataDiff.diff_pixels d)
           = (Z.to_nat numdiffs `min` ImageDataDiff.diff_total d)%nat
        /\ ImageDataDiff.diff_total d
           = length (List.filter
                       (deviating a b
                          (if inexact a || inexact b then tolerance else fzero))
                       (ndindex (shape a))))
  /\ (forall (E : External) (a b : FITS_rec) (ignore_fields : gset string)
             (numdiffs : Z) (tolerance : float) (d : TableDataDiff.t),
         (0 <= numdiffs)%Z ->
         TableDataDiff.__init__ a b ignore_fields numdiffs tolerance = Ok d ->
         (length (TableDataDiff.diff_values d)
          <= Z.to_nat numdiffs `min` TableDataDiff.diff_total d)%nat
         /\ ((forall col, In col (columns a) ->
                          scalar_cells (field a (name col))) ->
             length (TableDataDiff.diff_values d)
             = (Z.to_nat numdiffs `min` TableDataDiff.diff_total d)%nat)
         /\ (forall (numdiffs' : Z) (d' : TableDataDiff.t),
                TableDataDiff.__init__ a b ignore_fields numdiffs' tolerance
                = Ok d' ->
                TableDataDiff.diff_total d' = TableDataDiff.diff_total d)).
Proof.
  split.
  - intros E a b n tol Hwf Hsh Hn.
    destruct (ImageDataDiff_equal_shapes a b n tol Hwf Hsh)
      as (d & Ed & Ht & Hp & _).
    exists d. split; [exact Ed | ].
    assert (ImageDataDiff.effective_tolerance (ImageDataDiff.initial a b n tol)
            = if inexact a || inexact b then tol else fzero) as Etol.
    { unfold ImageDataDiff.effective_tolerance, inexact. cbn.
      by destruct (_ || _). }
    rewrite Etol in Ht, Hp. split; [ | exact Ht].
    rewrite Hp, length_map, Ht. unfold islice.
    assert ((n <? 0)%Z = false) as -> by lia. apply length_take.
  - intros E a b ign n tol d Hn Ed.
    destruct (TableDataDiff_result a b ign n tol d Ed)
      as [(Hstar & -> & ->) | (Hstar & st & Ef & -> & ->)].
    + split; [cbn; lia | ]. split; [intros _; cbn; lia | ].
      intros n' d' Ed'.
      destruct (TableDataDiff_result a b ign n' tol d' Ed')
        as [(_ & -> & _) | (Hstar' & _)]; [reflexivity | contradiction].
    + split; [ | split].
      * apply (foldM_invariant _
                 (fun s => length s.2 <= Z.to_nat n `min` s.1)%nat _
                 (fun s x s' _ =>
                    diff_column_cap (TableDataDiff.initial a b ign n tol)
                      _ s s' x Hn) _ _ Ef).
        cbn. lia.
      * intros Hsc.
        apply (foldM_invariant _
                 (fun s => length s.2 = Z.to_nat n `min` s.1)%nat _
                 (fun s x s' Hx =>
                    diff_column_cap_exact (TableDataDiff.initial a b ign n tol)
                      _ s s' x Hn
                      (Hsc x (compared_columns_In _ a b x Hx))) _ _ Ef).
        cbn. lia.
      * intros n' d' Ed'.
        destruct (TableDataDiff_result a b ign n' tol d' Ed')
          as [(Hstar' & _) | (_ & st' & Ef' & -> & _)]; [contradiction | ].
        by apply (foldM_diff_column_total
                    (TableDataDiff.initial a b ign n' tol)
                    (TableDataDiff.initial a b ign n tol)
                    _ _ eq_refl eq_refl eq_refl _ _ _ _ eq_refl Ef' Ef).
Qed.

Lemma cap_invariant_witness :
  (wf_array (ints [3] int32 [1; 2; 3]%Z)
   /\ shape (ints [3] int32 [1; 2; 3]%Z) = shape (ints [3] int32 [1; 0; 0]%Z)
   /\ (0 <= 1)%Z
   /\ exists d,
       @ImageDataDiff.__init__ sample_external (ints [3] int32 [1; 2; 3]%Z)
         (ints [3] int32 [1; 0; 0]%Z) 1 fzero = Ok d
       /\ length (ImageDataDiff.diff_pixels d)
          = (Z.to_nat 1 `min` ImageDataDiff.diff_total d)%nat)
  /\ exists d,
      @TableDataDiff.__init__ sample_external scalars_a scalars_b ∅ 1 fzero = Ok d
      /\ length (TableDataDiff.diff_values d)
         = (Z.to_nat 1 `min` TableDataDiff.diff_total d)%nat.
Proof.
  split.
  - split; [reflexivity | split; [reflexivity | split; [lia | ]]].
    destruct (proj1 cap_invariant sample_external (ints [3] int32 [1; 2; 3]%Z)
                (ints [3] int32 [1; 0; 0]%Z) 1%Z fzero)
      as (d & E & Hp & _); [reflexivity | reflexivity | lia | ].
    exists d. by split.
  - destruct (@TableDataDiff.__init__ sample_external scalars_a scalars_b ∅ 1 fzero)
      as [d | e] eqn:E; [ | vm_compute in E; discriminate E].
    exists d. split; [reflexivity | ].
    apply (proj2 cap_invariant sample_external scalars_a scalars_b ∅ 1%Z fzero d);
      [lia | exact E | ].
    intros col _. exact eq_refl.
Defined.

(** C3. The cap invariant breaks on a table whose cells hold several
    values: the cap is spent on the row index of every differing element
    before repeated rows are skipped.  Two rows of three values, all
    different, cap 2: [diff_total] is 2, yet one value is stored where
    [min(numdiffs, diff_total)] is 2. *)
Theorem cap_spent_on_elements_of_one_row :
  exists d,
    @TableDataDiff.__init__ sample_external vectors_a vectors_b ∅ 2 fzero = Ok d
    /\ TableDataDiff.diff_total d = 2%nat
    /\ length (TableDataDiff.diff_values d) = 1%nat
    /\ length (TableDataDiff.diff_values d)
       <> (Z.to_nat 2 `min` TableDataDiff.diff_total d)%nat.
Proof.
  destruct (@TableDataDiff.__init__ sample_external vectors_a vectors_b ∅ 2 fzero)
    as [d | e] eqn:E; [ | vm_compute in E; discriminate E].
  exists d. split; [reflexivity | ].
  vm_compute in E. injection E as <-. repeat split. discriminate.
Qed.

(** ** Tables without rows *)

(** C10. For two tables of which the first has no rows, compared without
    the "*" wildcard, the constructor of [TableDataDiff] raises
    [ZeroDivisionError]: after the column loop [diff_ratio] is computed as
    [diff_total] over rows times columns, which is zero. *)
Theorem empty_table_division_by_zero `{External} (a b : FITS_rec)
    (ignore_fields : gset string) (numdiffs : Z) (tolerance : float) :
  nrows a = 0%nat ->
  "*" ∉ ignore_fields ->
  comparable_tables a b ->
  TableDataDiff.__init__ a b ignore_fields numdiffs tolerance
  = Raise ZeroDivisionError.
Proof.
  intros Hrows Hstar Hcmp.
  unfold TableDataDiff.__init__, TableDataDiff._diff.
  cbn [TableDataDiff.initial TableDataDiff.a TableDataDiff.b
       TableDataDiff.ignore_fields TableDataDiff.diff_total
       TableDataDiff.diff_values TableDataDiff.diff_columns
       TableDataDiff.diff_column_names].
  rewrite bool_decide_false by exact Hstar.
  match goal with
  | |- context [foldM ?f ?s0 ?l] =>
      assert (exists st, foldM f s0 l = Ok st) as [st Ef];
        [apply foldM_ok | ]
  end.
  { intros [total values] col Hin.
    apply compared_columns_In, Hcmp in Hin as [Hc Hw].
    unfold TableDataDiff.diff_column.
    destruct (bool_decide _); [by eexists | ].
    cbn [TableDataDiff.a TableDataDiff.b TableDataDiff.tolerance
         TableDataDiff.numdiffs TableDataDiff.initial].
    destruct (column_diffs_ok tolerance col _ _ Hc Hw) as [diffs ->]. cbn.
    destruct (_ && _); by eexists. }
  rewrite Hrows.
  destruct (bool_decide _ && bool_decide _); rewrite Ef; reflexivity.
Qed.

Lemma empty_table_division_by_zero_witness :
  nrows no_rows = 0%nat
  /\ ("*" ∉ (∅ : gset string))
  /\ comparable_tables no_rows no_rows
  /\ @TableDataDiff.__init__ sample_external no_rows no_rows ∅ 10 fzero
     = Raise ZeroDivisionError.
Proof.
  assert (comparable_tables no_rows no_rows) as Hcmp
    by (intros col _; split; reflexivity).
  split; [reflexivity | split; [apply not_elem_of_empty | split; [exact Hcmp | ]]].
  apply (@empty_table_division_by_zero sample_external no_rows no_rows ∅ 10 fzero);
    [reflexivity | apply not_elem_of_empty | exact Hcmp].
Defined.

(** ** Scenarios *)

(** Headers [N = 2, HISTORY = v1] against [N = 3, HISTORY = v1, HISTORY =
    v2]: the card counts (2, 3), the values of N and the number of HISTORY
    cards are reported. *)
Example header_scenario :
  let d := @HeaderDiff.__init__ sample_external header_a header_b ∅ ∅ fzero true in
  HeaderDiff.diff_keyword_count d = Some (2, 3)%nat
  /\ HeaderDiff.diff_keyword_values d !! "N" = Some [Some (PyInt 2, PyInt 3)]
  /\ HeaderDiff.diff_keyword_values d !! "HISTORY" = None
  /\ HeaderDiff.diff_duplicate_keywords d !! "HISTORY" = Some (1, 2)%nat
  /\ HeaderDiff.diff_keywords d = None
  /\ identical d = false.
Proof. vm_compute. repeat split. Qed.

(** Two integer images that differ in one pixel, 5 against 7. *)
Example image_scenario :
  exists d,
    @ImageDataDiff.__init__ sample_external (ints [2; 2] int32 [1; 2; 5; 4]%Z)
      (ints [2; 2] int32 [1; 2; 7; 4]%Z) 10 fzero = Ok d
    /\ ImageDataDiff.diff_total d = 1%nat
    /\ ImageDataDiff.diff_pixels d = [([1; 0]%nat, (SInt 5, SInt 7))]
    /\ ImageDataDiff.diff_ratio d = ratio 1 4
    /\ identical d = false.
Proof. eexists. split; [vm_compute; reflexivity | ]. by vm_compute. Qed.

(** Raw data of different sizes: the sizes are reported, no byte is. *)
Example raw_scenario :
  exists d,
    @RawDataDiff.__init__ sample_external (ints [3] uint8 [5; 6; 7]%Z)
      (ints [2] uint8 [7; 6]%Z) 10 = Ok d
    /\ RawDataDiff.diff_dimensions d = Some (3, 2)%nat
    /\ RawDataDiff.diff_bytes d = [].
Proof. eexists. split; [vm_compute; reflexivity | ]. by vm_compute. Qed.

